(** * birpc: a shallow embedding of the bidirectional RPC engine

    The development follows [client.go] and [server.go] of package [birpc].
    The engine is stateful Go code: a [Client] holds two mutexes, a sequence
    counter, the table of pending outbound calls and a handler registry; the
    [Call] objects and their completion channels are shared between the engine
    and its callers.  The embedding therefore threads an explicit [World]
    (a small heap of calls, channels and registries, the engine record, and a
    chronological log of observable events) through a state monad with two
    abnormal outcomes: a Go panic, and blocking on a mutex that is held.

    The codec and the user handlers are external collaborators.  Their results
    are supplied to the operations as arguments; every invocation is recorded
    in the event log. *)

From Stdlib Require Import ZArith String Ascii List Bool Lia.
From stdpp Require Import base option list gmap strings fin_maps pretty.

Local Open Scope string_scope.
Local Open Scope Z_scope.

(** ** Machine integers *)

(** [uint64] arithmetic wraps modulo 2^64. *)
Definition uint64_mod : Z := 2 ^ 64.
Definition wrap64 (z : Z) : Z := z mod uint64_mod.

(** ** Errors *)

(** The error values the engine compares against or creates.  [EOF] and
    [ErrUnexpectedEOF] are the sentinels of package [io], [Canceled] and
    [DeadlineExceeded] those of package [context]; [ErrorsNew s] is a value
    made by [errors.New(s)]; [CodecError s] is any other error a codec
    returns.  Sentinels are compared by identity, so an error that merely
    prints like a sentinel is a different value. *)
Inductive error : Type :=
| EOF
| ErrUnexpectedEOF
| ErrShutdown
| Canceled
| DeadlineExceeded
| ServerError (s : string)
| ErrorsNew (s : string)
| CodecError (s : string).

Global Instance error_eq_dec : EqDecision error.
Proof. solve_decision. Defined.

(** The [Error()] method. *)
Definition error_string (e : error) : string :=
  match e with
  | EOF => "EOF"
  | ErrUnexpectedEOF => "unexpected EOF"
  | ErrShutdown => "connection is shut down"
  | Canceled => "context canceled"
  | DeadlineExceeded => "context deadline exceeded"
  | ServerError s => s
  | ErrorsNew s => s
  | CodecError s => s
  end.

(** ** Frames and values *)

Record Request : Type := mkRequest { req_Seq : Z; req_Method : string }.
Record Response : Type := mkResponse { resp_Seq : Z; resp_Error : string }.

Global Instance Request_eq_dec : EqDecision Request.
Proof. solve_decision. Defined.
Global Instance Response_eq_dec : EqDecision Response.
Proof. solve_decision. Defined.

(** Values of type [interface{}] handed to the codec as arguments and
    replies. *)
Inductive value : Type :=
| VNil
| VInt (z : Z)
| VStr (s : string)
| VResponse (r : Response)          (* a [*Response] *)
| VCancelArgs (seq : Z).            (* a [*svc.CancelArgs] *)

Global Instance value_eq_dec : EqDecision value.
Proof. solve_decision. Defined.

(** ** Reflected types *)

(** [reflect.Kind].  The kinds other than [Ptr] are those of [BaseKind]. *)
Inductive BaseKind : Type :=
| KBool | KInt | KUint64 | KFloat64 | KString
| KStruct | KSlice | KMap | KInterface | KFunc.

Global Instance BaseKind_eq_dec : EqDecision BaseKind.
Proof. solve_decision. Defined.

Inductive Kind : Type :=
| KOf (k : BaseKind)
| KPtr.

Global Instance Kind_eq_dec : EqDecision Kind.
Proof. solve_decision. Defined.

(** What [addHandler] observes of a [reflect.Type]: [Kind()], [Name()],
    [PkgPath()], [String()] and, for a type of kind [Ptr], [Elem()].  A
    defined type has a name, the import path of its package and the name of
    that package (both empty for a predeclared type such as [int] or
    [error]); a type literal has no name and no package path, and [str] is
    how it prints.  A pointer type is a literal [*T] ([TPtr]) or a defined
    type [type P *T] ([TNamedPtr]); both have kind [Ptr] and element [T]. *)
Inductive gotype : Type :=
| TNamed (pkgPath pkg name : string) (k : BaseKind)
| TUnnamed (str : string) (k : BaseKind)
| TPtr (elem : gotype)
| TNamedPtr (pkgPath pkg name : string) (elem : gotype).

Global Instance gotype_eq_dec : EqDecision gotype.
Proof. solve_decision. Defined.

Definition type_Kind (t : gotype) : Kind :=
  match t with
  | TNamed _ _ _ k => KOf k
  | TUnnamed _ k => KOf k
  | TPtr _ => KPtr
  | TNamedPtr _ _ _ _ => KPtr
  end.

Definition type_Name (t : gotype) : string :=
  match t with
  | TNamed _ _ n _ => n
  | TNamedPtr _ _ n _ => n
  | _ => ""
  end.

Definition type_PkgPath (t : gotype) : string :=
  match t with
  | TNamed p _ _ _ => p
  | TNamedPtr p _ _ _ => p
  | _ => ""
  end.

(** [Elem()] of a type of kind [Ptr]. *)
Definition type_Elem (t : gotype) : option gotype :=
  match t with
  | TPtr e => Some e
  | TNamedPtr _ _ _ e => Some e
  | _ => None
  end.

(** [String()]: a defined type prints as its name, qualified by the name of
    its package if it has one; [*T] prints as a star and [T]. *)
Definition qualified (pkg name : string) : string :=
  if bool_decide (pkg = "") then name else pkg ++ "." ++ name.

Fixpoint type_String (t : gotype) : string :=
  match t with
  | TNamed _ pkg n _ => qualified pkg n
  | TUnnamed str _ => str
  | TPtr e => "*" ++ type_String e
  | TNamedPtr _ pkg n _ => qualified pkg n
  end.

Definition typeOfError : gotype := TNamed "" "" "error" KInterface.
Definition typeOfCtx : gotype := TNamed "context" "context" "Context" KInterface.

(** *** Exported names *)

(** [utf8.DecodeRuneInString], without the width: the first rune of a
    string of bytes.  The result is [RuneError] for the empty string and
    for a first sequence that is not a valid UTF-8 encoding (a stray
    continuation byte, a sequence cut short, an encoding longer than
    needed, a surrogate half, a value above U+10FFFF). *)
Definition RuneError : Z := 65533.

Definition byte_of (a : ascii) : Z := Z.of_N (N_of_ascii a).

Definition between (lo hi b : Z) : bool := (lo <=? b) && (b <=? hi).

Definition DecodeRuneInString (s : string) : Z :=
  match s with
  | EmptyString => RuneError
  | String a0 rest =>
      let b0 := byte_of a0 in
      if b0 <? 128 then b0
      else if between 194 223 b0 then
        match rest with
        | String a1 _ =>
            let b1 := byte_of a1 in
            if between 128 191 b1 then
              Z.lor (Z.shiftl (Z.land b0 31) 6) (Z.land b1 63)
            else RuneError
        | _ => RuneError
        end
      else if between 224 239 b0 then
        match rest with
        | String a1 (String a2 _) =>
            let b1 := byte_of a1 in
            let b2 := byte_of a2 in
            if between (if b0 =? 224 then 160 else 128) (if b0 =? 237 then 159 else 191) b1
               && between 128 191 b2 then
              Z.lor (Z.shiftl (Z.land b0 15) 12)
                (Z.lor (Z.shiftl (Z.land b1 63) 6) (Z.land b2 63))
            else RuneError
        | _ => RuneError
        end
      else if between 240 244 b0 then
        match rest with
        | String a1 (String a2 (String a3 _)) =>
            let b1 := byte_of a1 in
            let b2 := byte_of a2 in
            let b3 := byte_of a3 in
            if between (if b0 =? 240 then 144 else 128) (if b0 =? 244 then 143 else 191) b1
               && between 128 191 b2 && between 128 191 b3 then
              Z.lor (Z.shiftl (Z.land b0 7) 18)
                (Z.lor (Z.shiftl (Z.land b1 63) 12)
                   (Z.lor (Z.shiftl (Z.land b2 63) 6) (Z.land b3 63)))
            else RuneError
        | _ => RuneError
        end
      else RuneError
  end.

(** The range table [unicode.Upper]: the code points of category Lu, as of
    Unicode 14.0 (the same in Unicode 15.0, the version of package [unicode]
    in Go 1.21).  Each entry is a first code point, a last code point and a
    stride. *)
Definition Upper : list (Z * Z * Z) :=
  [(65, 90, 1); (192, 214, 1); (216, 222, 1); (256, 310, 2); (313, 327, 2);
   (330, 376, 2); (377, 381, 2); (385, 386, 1); (388, 388, 1); (390, 391, 1);
   (393, 395, 1); (398, 401, 1); (403, 404, 1); (406, 408, 1); (412, 413, 1);
   (415, 416, 1); (418, 422, 2); (423, 423, 1); (425, 425, 1); (428, 428, 1);
   (430, 431, 1); (433, 435, 1); (437, 437, 1); (439, 440, 1); (444, 444, 1);
   (452, 461, 3); (463, 475, 2); (478, 494, 2); (497, 497, 1); (500, 500, 1);
   (502, 504, 1); (506, 562, 2); (570, 571, 1); (573, 574, 1); (577, 577, 1);
   (579, 582, 1); (584, 590, 2); (880, 880, 1); (882, 882, 1); (886, 886, 1);
   (895, 895, 1); (902, 902, 1); (904, 906, 1); (908, 908, 1); (910, 911, 1);
   (913, 929, 1); (931, 939, 1); (975, 975, 1); (978, 980, 1); (984, 1006, 2);
   (1012, 1012, 1); (1015, 1015, 1); (1017, 1018, 1); (1021, 1071, 1);
   (1120, 1152, 2); (1162, 1216, 2); (1217, 1229, 2); (1232, 1326, 2);
   (1329, 1366, 1); (4256, 4293, 1); (4295, 4295, 1); (4301, 4301, 1);
   (5024, 5109, 1); (7312, 7354, 1); (7357, 7359, 1); (7680, 7828, 2);
   (7838, 7934, 2); (7944, 7951, 1); (7960, 7965, 1); (7976, 7983, 1);
   (7992, 7999, 1); (8008, 8013, 1); (8025, 8031, 2); (8040, 8047, 1);
   (8120, 8123, 1); (8136, 8139, 1); (8152, 8155, 1); (8168, 8172, 1);
   (8184, 8187, 1); (8450, 8450, 1); (8455, 8455, 1); (8459, 8461, 1);
   (8464, 8466, 1); (8469, 8469, 1); (8473, 8477, 1); (8484, 8490, 2);
   (8491, 8493, 1); (8496, 8499, 1); (8510, 8511, 1); (8517, 8517, 1);
   (8579, 8579, 1); (11264, 11311, 1); (11360, 11360, 1); (11362, 11364, 1);
   (11367, 11373, 2); (11374, 11376, 1); (11378, 11378, 1); (11381, 11381, 1);
   (11390, 11392, 1); (11394, 11490, 2); (11499, 11499, 1); (11501, 11501, 1);
   (11506, 11506, 1); (42560, 42604, 2); (42624, 42650, 2); (42786, 42798, 2);
   (42802, 42862, 2); (42873, 42877, 2); (42878, 42886, 2); (42891, 42891, 1);
   (42893, 42893, 1); (42896, 42896, 1); (42898, 42898, 1); (42902, 42922, 2);
   (42923, 42926, 1); (42928, 42932, 1); (42934, 42948, 2); (42949, 42951, 1);
   (42953, 42953, 1); (42960, 42960, 1); (42966, 42966, 1); (42968, 42968, 1);
   (42997, 42997, 1); (65313, 65338, 1); (66560, 66599, 1); (66736, 66771, 1);
   (66928, 66938, 1); (66940, 66954, 1); (66956, 66962, 1); (66964, 66965, 1);
   (68736, 68786, 1); (71840, 71871, 1); (93760, 93791, 1); (119808, 119833, 1);
   (119860, 119885, 1); (119912, 119937, 1); (119964, 119964, 1);
   (119966, 119967, 1); (119970, 119970, 1); (119973, 119974, 1);
   (119977, 119980, 1); (119982, 119989, 1); (120016, 120041, 1);
   (120068, 120069, 1); (120071, 120074, 1); (120077, 120084, 1);
   (120086, 120092, 1); (120120, 120121, 1); (120123, 120126, 1);
   (120128, 120132, 1); (120134, 120134, 1); (120138, 120144, 1);
   (120172, 120197, 1); (120224, 120249, 1); (120276, 120301, 1);
   (120328, 120353, 1); (120380, 120405, 1); (120432, 120457, 1);
   (120488, 120512, 1); (120546, 120570, 1); (120604, 120628, 1);
   (120662, 120686, 1); (120720, 120744, 1); (120778, 120778, 1); (125184, 125217, 1)].

(** [unicode.IsUpper]. *)
Definition IsUpper (r : Z) : bool :=
  existsb (fun '(lo, hi, stride) => between lo hi r && ((r - lo) mod stride =? 0)) Upper.

(** Is this an exported - upper case - name? *)
Definition isExported (name : string) : bool :=
  IsUpper (DecodeRuneInString name).

(** Is this type exported or a builtin?  The source follows [Elem()] while
    the kind is [Ptr]; here that loop is the recursion on the element of a
    pointer type. *)
Fixpoint isExportedOrBuiltinType (t : gotype) : bool :=
  match t with
  | TPtr e => isExportedOrBuiltinType e
  | TNamedPtr _ _ _ e => isExportedOrBuiltinType e
  | _ =>
      (* PkgPath will be non-empty even for an exported type,
         so we need to check the type name as well. *)
      isExported (type_Name t) || bool_decide (type_PkgPath t = "")
  end.

(** A function value as [reflect.ValueOf] sees it: the types of its inputs
    and of its outputs. *)
Record func_value : Type := mkFunc {
  fn_name : string;
  fn_ins : list gotype;
  fn_outs : list gotype
}.

Global Instance func_value_eq_dec : EqDecision func_value.
Proof. solve_decision. Defined.

(** The [interface{}] argument of [Handle]: a function, or anything else. *)
Inductive iface : Type :=
| IFunc (f : func_value)
| IValue (v : value).

(** The dynamic type of a value; the [nil] interface has none. *)
Definition value_type (v : value) : option gotype :=
  match v with
  | VNil => None
  | VInt _ => Some (TNamed "" "" "int" KInt)
  | VStr _ => Some (TNamed "" "" "string" KString)
  | VResponse _ =>
      Some (TPtr (TNamed "github.com/cgrates/birpc" "birpc" "Response" KStruct))
  | VCancelArgs _ =>
      Some (TPtr (TNamed "github.com/cgrates/birpc/internal/svc" "svc" "CancelArgs" KStruct))
  end.

Record handler : Type := mkHandler {
  fn : func_value;
  argType : gotype;
  replyType : gotype
}.

Global Instance handler_eq_dec : EqDecision handler.
Proof. solve_decision. Defined.

(** ** Calls, channels and the engine record *)

(** A [Call]; [call_Done] is the address of its completion channel.
    [call_Reply] is [VNil] for a [nil] reply; any other value is the content
    of the slot the reply points to. *)
Record Call : Type := mkCall {
  call_Method : string;
  call_Args : value;
  call_Reply : value;
  call_Error : option error;
  call_Done : nat;
  call_seq : Z
}.

(** A buffered channel of [*Call]: its capacity and the addresses queued. *)
Record Chan : Type := mkChan { chan_cap : nat; chan_buf : list nat }.

(** The [Client] struct.  A mutex is [true] while it is held; [disconnect]
    is [true] once the channel has been closed; [handlers] is the address of
    a registry (a Go map is a reference, and a server shares its registry
    with the peers it serves). *)
Record Client : Type := mkClient {
  mutex : bool;
  sending : bool;
  request : Request;
  seq : Z;
  pending : gmap Z nat;
  closing : bool;
  shutdown : bool;
  server : bool;
  codec : nat;
  handlers : nat;
  disconnect : bool;
  State : option nat;
  blocking : bool
}.

Inductive Mutex : Type := MuMutex | MuSending.

Global Instance Mutex_eq_dec : EqDecision Mutex.
Proof. solve_decision. Defined.

(** Observable events, logged in the order in which they happen: mutex
    operations, codec calls, completions ([EvDone], with whether the call was
    delivered on its channel), handler invocations and spawns, and
    [EvRegister s call] for the moment [send] gives [call] the sequence
    number [s] and enters it in the pending table; [EvDebug] is a line of
    [debugln], [EvLog] a line [log.Panicln] prints on the standard logger. *)
Inductive Event : Type :=
| EvLock (m : Mutex)
| EvUnlock (m : Mutex)
| EvReadHeader
| EvReadRequestBody
| EvReadResponseBody (discard : bool)
| EvRegister (s : Z) (call : nat)
| EvWriteRequest (r : Request) (args : value)
| EvWriteResponse (r : Response) (body : value)
| EvCodecClose
| EvDone (call : nat) (delivered : bool)
| EvCloseDisconnect
| EvInvoke (h : handler) (req : Request) (argv : value)
| EvGo (req : Request) (argv : value)
| EvPublish (connected : bool)
| EvDebug (msg : string)
| EvLog (line : string).

Global Instance Event_eq_dec : EqDecision Event.
Proof. solve_decision. Defined.

(** ** The world and the monad *)

(** [calls] is the heap of [Call] objects, [chans] the heap of completion
    channels, [registries] the heap of handler maps; [cl] is the engine. *)
Record World : Type := mkWorld {
  calls : gmap nat Call;
  chans : gmap nat Chan;
  registries : gmap nat (gmap string handler);
  inbound : gset Z;
  cl : Client;
  log : list Event
}.

Inductive Res (A : Type) : Type :=
| Ok (a : A) (w : World)
| Panic (msg : string) (w : World)
| Block (w : World).

Arguments Ok {A} a w.
Arguments Panic {A} msg w.
Arguments Block {A} w.

Definition M (A : Type) : Type := World -> Res A.

Definition ret {A} (a : A) : M A := fun w => Ok a w.

Definition bind {A B} (m : M A) (k : A -> M B) : M B :=
  fun w =>
    match m w with
    | Ok a w' => k a w'
    | Panic msg w' => Panic msg w'
    | Block w' => Block w'
    end.

Declare Scope go_scope.
Delimit Scope go_scope with go.
Notation "'let*' x ':=' m 'in' k" := (bind m (fun x => k))
  (at level 10, x name, m at level 100, k at level 200) : go_scope.
Notation "m '>>' k" := (bind m (fun _ => k))
  (at level 90, right associativity) : go_scope.
Local Open Scope go_scope.

Definition panic {A} (msg : string) : M A := fun w => Panic msg w.

(** [defer d] around [body]: [d] runs when [body] returns and also when it
    panics. *)
Definition defer {A} (d : M unit) (body : M A) : M A :=
  fun w =>
    match body w with
    | Ok a w' => (d >> ret a) w'
    | Panic msg w' => (d >> panic msg) w'
    | Block w' => Block w'
    end.

Definition get_cl : M Client := fun w => Ok (cl w) w.

Definition set_log (l : list Event) (w : World) : World :=
  mkWorld (calls w) (chans w) (registries w) (inbound w) (cl w) l.
Definition set_cl (c : Client) (w : World) : World :=
  mkWorld (calls w) (chans w) (registries w) (inbound w) c (log w).
Definition set_calls (m : gmap nat Call) (w : World) : World :=
  mkWorld m (chans w) (registries w) (inbound w) (cl w) (log w).
Definition set_chans (m : gmap nat Chan) (w : World) : World :=
  mkWorld (calls w) m (registries w) (inbound w) (cl w) (log w).
Definition set_registries (m : gmap nat (gmap string handler)) (w : World) : World :=
  mkWorld (calls w) (chans w) m (inbound w) (cl w) (log w).
Definition set_inbound (s : gset Z) (w : World) : World :=
  mkWorld (calls w) (chans w) (registries w) s (cl w) (log w).

Definition emit (e : Event) : M unit :=
  fun w => Ok tt (set_log (log w ++ [e]) w).

Definition modify_cl (f : Client -> Client) : M unit :=
  fun w => Ok tt (set_cl (f (cl w)) w).

(** Field assignments on the engine record. *)
Definition with_mutex (b : bool) (c : Client) : Client :=
  mkClient b (sending c) (request c) (seq c) (pending c) (closing c)
    (shutdown c) (server c) (codec c) (handlers c) (disconnect c) (State c)
    (blocking c).
Definition with_sending (b : bool) (c : Client) : Client :=
  mkClient (mutex c) b (request c) (seq c) (pending c) (closing c)
    (shutdown c) (server c) (codec c) (handlers c) (disconnect c) (State c)
    (blocking c).
Definition with_request (r : Request) (c : Client) : Client :=
  mkClient (mutex c) (sending c) r (seq c) (pending c) (closing c)
    (shutdown c) (server c) (codec c) (handlers c) (disconnect c) (State c)
    (blocking c).
Definition with_seq (n : Z) (c : Client) : Client :=
  mkClient (mutex c) (sending c) (request c) n (pending c) (closing c)
    (shutdown c) (server c) (codec c) (handlers c) (disconnect c) (State c)
    (blocking c).
Definition with_pending (p : gmap Z nat) (c : Client) : Client :=
  mkClient (mutex c) (sending c) (request c) (seq c) p (closing c)
    (shutdown c) (server c) (codec c) (handlers c) (disconnect c) (State c)
    (blocking c).
Definition with_closing (b : bool) (c : Client) : Client :=
  mkClient (mutex c) (sending c) (request c) (seq c) (pending c) b
    (shutdown c) (server c) (codec c) (handlers c) (disconnect c) (State c)
    (blocking c).
Definition with_shutdown (b : bool) (c : Client) : Client :=
  mkClient (mutex c) (sending c) (request c) (seq c) (pending c) (closing c)
    b (server c) (codec c) (handlers c) (disconnect c) (State c)
    (blocking c).
Definition with_server (b : bool) (c : Client) : Client :=
  mkClient (mutex c) (sending c) (request c) (seq c) (pending c) (closing c)
    (shutdown c) b (codec c) (handlers c) (disconnect c) (State c)
    (blocking c).
Definition with_handlers (h : nat) (c : Client) : Client :=
  mkClient (mutex c) (sending c) (request c) (seq c) (pending c) (closing c)
    (shutdown c) (server c) (codec c) h (disconnect c) (State c)
    (blocking c).
Definition with_disconnect (b : bool) (c : Client) : Client :=
  mkClient (mutex c) (sending c) (request c) (seq c) (pending c) (closing c)
    (shutdown c) (server c) (codec c) (handlers c) b (State c)
    (blocking c).
Definition with_State (s : option nat) (c : Client) : Client :=
  mkClient (mutex c) (sending c) (request c) (seq c) (pending c) (closing c)
    (shutdown c) (server c) (codec c) (handlers c) (disconnect c) s
    (blocking c).
Definition with_blocking (b : bool) (c : Client) : Client :=
  mkClient (mutex c) (sending c) (request c) (seq c) (pending c) (closing c)
    (shutdown c) (server c) (codec c) (handlers c) (disconnect c) (State c)
    b.

(** *** Mutexes *)

Definition held (m : Mutex) (c : Client) : bool :=
  match m with MuMutex => mutex c | MuSending => sending c end.

Definition with_held (m : Mutex) (b : bool) (c : Client) : Client :=
  match m with MuMutex => with_mutex b c | MuSending => with_sending b c end.

(** [Lock] does not return while the mutex is held by someone else. *)
Definition Lock (m : Mutex) : M unit :=
  fun w =>
    if held m (cl w) then Block w
    else Ok tt (set_log (log w ++ [EvLock m]) (set_cl (with_held m true (cl w)) w)).

Definition Unlock (m : Mutex) : M unit :=
  fun w =>
    if held m (cl w)
    then Ok tt (set_log (log w ++ [EvUnlock m]) (set_cl (with_held m false (cl w)) w))
    else Panic "sync: unlock of unlocked mutex" w.

(** *** Calls and channels on the heap *)

Definition get_call (p : nat) : M Call :=
  fun w =>
    match calls w !! p with
    | Some c => Ok c w
    | None => Panic "invalid memory address or nil pointer dereference" w
    end.

Definition put_call (p : nat) (c : Call) : M unit :=
  fun w => Ok tt (set_calls (<[p := c]> (calls w)) w).

Definition with_call_Error (e : option error) (c : Call) : Call :=
  mkCall (call_Method c) (call_Args c) (call_Reply c) e (call_Done c) (call_seq c).
Definition with_call_seq (n : Z) (c : Call) : Call :=
  mkCall (call_Method c) (call_Args c) (call_Reply c) (call_Error c) (call_Done c) n.
Definition with_call_Reply (v : value) (c : Call) : Call :=
  mkCall (call_Method c) (call_Args c) v (call_Error c) (call_Done c) (call_seq c).

Definition set_call_Error (p : nat) (e : option error) : M unit :=
  let* c := get_call p in put_call p (with_call_Error e c).
Definition set_call_seq (p : nat) (n : Z) : M unit :=
  let* c := get_call p in put_call p (with_call_seq n c).
Definition set_call_Reply (p : nat) (v : value) : M unit :=
  let* c := get_call p in put_call p (with_call_Reply v c).

(** Is a send on the channel ready without blocking?  A [nil] channel (no
    such address) is never ready; receivers waiting on an empty channel are
    not represented, so a channel without buffer is never ready either. *)
Definition chan_ready (ch : option Chan) : bool :=
  match ch with
  | Some c => (length (chan_buf c) <? chan_cap c)%nat
  | None => false
  end.

Definition discard_msg : string :=
  "birpc: discarding Call reply due to insufficient Done chan capacity".

(** The two branches of the select of [call.done()]: what is logged, and
    what becomes of the channels. *)
Definition done_events (p : nat) (ready : bool) : list Event :=
  if ready then [EvDone p true] else [EvDone p false; EvDebug discard_msg].

Definition push_chan (p d : nat) (chs : gmap nat Chan) : gmap nat Chan :=
  match chs !! d with
  | Some ch =>
      if chan_ready (Some ch) then <[d := mkChan (chan_cap ch) (chan_buf ch ++ [p])]> chs
      else chs
  | None => chs
  end.

(** The select of [call.done()] on channel [d]: the call is queued when the
    send is ready, otherwise the default branch logs that it is dropped. *)
Definition deliver (p d : nat) (w : World) : World :=
  set_log (log w ++ done_events p (chan_ready (chans w !! d)))
    (set_chans (push_chan p d (chans w)) w).

(** [call.done()]: a non-blocking send of the call on its own channel; when
    the channel has no room the reply is discarded. *)
Definition done (p : nat) : M unit :=
  let* c := get_call p in
  fun w => Ok tt (deliver p (call_Done c) w).

(** ** Handler registration ([server.go]) *)

Definition cant_find_method : string := "birpc: can't find method ".

(** [fmt.Sprintln] on operands given as they print: a space between the
    operands and a newline at the end. *)
Definition newline : string := String "010" EmptyString.

Definition Sprintln (operands : list string) : string :=
  String.concat " " operands ++ newline.

(** [log.Panicln]: the line is printed on the standard logger, and the
    panic carries it. *)
Definition log_Panicln {A} (operands : list string) : M A :=
  emit (EvLog (Sprintln operands)) >> panic (Sprintln operands).

(** The map at address [reg]: a [nil] map (no such address) reads as the
    empty map, and a write to it panics. *)
Definition get_registry (reg : nat) : M (gmap string handler) :=
  fun w => Ok (default ∅ (registries w !! reg)) w.

Definition put_handler (reg : nat) (mname : string) (h : handler) : M unit :=
  fun w =>
    match registries w !! reg with
    | None => Panic "assignment to entry in nil map" w
    | Some hs => Ok tt (set_registries (<[reg := <[mname := h]> hs]> (registries w)) w)
    end.

(** [reflect.ValueOf(handlerFunc)] and its [Type()], up to the first call
    of [NumIn]: [Type()] panics on the value of a [nil] interface, and
    [NumIn] panics on a type that is not a function type. *)
Definition reflect_func (handlerFunc : iface) : M func_value :=
  match handlerFunc with
  | IFunc method => ret method
  | IValue v =>
      match value_type v with
      | None => panic "reflect: call of reflect.Value.Type on zero Value"
      | Some t => panic ("reflect: NumIn of non-func type " ++ type_String t)
      end
  end.

(** [addHandler]: panics on a duplicate name and on a handler of the wrong
    shape; otherwise stores the descriptor in the registry at address
    [reg]. *)
Definition addHandler (reg : nat) (mname : string) (handlerFunc : iface) : M unit :=
  let* handlers := get_registry reg in
  if bool_decide (is_Some (handlers !! mname)) then
    panic ("birpc: multiple registrations for " ++ mname)
  else
    let* method := reflect_func handlerFunc in
    (* Method needs three ins: *client, *args, *reply. *)
    match fn_ins method with
    | [ctxType; argType; replyType] =>
        if negb (bool_decide (ctxType = typeOfCtx)) then
          log_Panicln ["method"; mname; "first argument"; type_String ctxType;
                       "not context.Context"]
        else if negb (isExportedOrBuiltinType argType) then
          log_Panicln [mname; "argument type not exported:"; type_String argType]
        else if negb (bool_decide (type_Kind replyType = KPtr)) then
          log_Panicln ["method"; mname; "reply type not a pointer:"; type_String replyType]
        else if negb (isExportedOrBuiltinType replyType) then
          log_Panicln ["method"; mname; "reply type not exported:"; type_String replyType]
        else
          (* Method needs one out. *)
          match fn_outs method with
          | [returnType] =>
              if negb (bool_decide (returnType = typeOfError)) then
                log_Panicln ["method"; mname; "returns"; type_String returnType; "not error"]
              else put_handler reg mname (mkHandler method argType replyType)
          | outs =>
              log_Panicln ["method"; mname; "has wrong number of outs:";
                           pretty (length outs)]
          end
    | ins =>
        log_Panicln ["method"; mname; "has wrong number of ins:"; pretty (length ins)]
    end.

(** [make(map[string]*handler)]. *)
Definition new_registry : M nat :=
  fun w =>
    let r := fresh (dom (registries w)) in
    Ok r (set_registries (<[r := ∅]> (registries w)) w).

(** Modelled from the spec: the method [Cancel] of the built-in cancel
    service of package [internal/svc], whose source is not part of the
    repository files at hand.  It has the handler shape of the data model:
    a context, a pointer to the argument [{seq}], a pointer to the reply,
    and one output, an error. *)
Definition GoRPC_Cancel : func_value :=
  mkFunc "svc.(*GoRPC).Cancel"
    [typeOfCtx;
     TPtr (TNamed "github.com/cgrates/birpc/internal/svc" "svc" "CancelArgs" KStruct);
     TPtr (TNamed "" "" "bool" KBool)]
    [typeOfError].

Definition cancel_method : string := "_goRPC_.Cancel".

(** ** The engine ([client.go]) *)

(** [Client.Handle]. *)
Definition Handle (method : string) (handlerFunc : iface) : M unit :=
  let* c := get_cl in addHandler (handlers c) method handlerFunc.

(** [NewClientWithCodec]: the new engine becomes [cl]. *)
Definition NewClientWithCodec (cdc : nat) : M unit :=
  let* reg := new_registry in
  modify_cl (fun _ =>
    mkClient false false (mkRequest 0 "") 1 (* 0 means notification *)
      ∅ false false false cdc reg false None false) >>
  Handle cancel_method (IFunc GoRPC_Cancel).

(** [NewClient]: the codec is the gob codec on the connection [conn]. *)
Definition NewClient (conn : nat) : M unit := NewClientWithCodec conn.

(** [SetBlocking]. *)
Definition SetBlocking (b : bool) : M unit := modify_cl (with_blocking b).

(** The registry the engine dispatches on: [c.handlers]. *)
Definition client_handlers (w : World) : gmap string handler :=
  default ∅ (registries w !! handlers (cl w)).

(** *** Sending *)

(** The first critical section of [send]: either the call is refused (and
    completed with an error), or it gets the next sequence number and enters
    the pending table.  Returns the sequence number when a request is to be
    written. *)
Definition send_register (call : nat) : M (option Z) :=
  Lock MuMutex >>
  let* c := get_cl in
  if shutdown c || closing c then
    set_call_Error call (Some ErrShutdown) >>
    Unlock MuMutex >>
    done call >>
    ret None
  else
    let* k := get_call call in
    if negb (call_seq k =? 0) then
      (* It has already been canceled, don't bother sending *)
      set_call_Error call (Some Canceled) >>
      Unlock MuMutex >>
      done call >>
      ret None
    else
      let s := seq c in
      modify_cl (with_seq (wrap64 (s + 1))) >>
      set_call_seq call s >>
      modify_cl (fun c => with_pending (<[s := call]> (pending c)) c) >>
      emit (EvRegister s call) >>
      Unlock MuMutex >>
      ret (Some s).

(** Encode and send the request: [c.request] is filled in and handed to
    [WriteRequest] together with the arguments of the call. *)
Definition send_write (s : Z) (call : nat) : M unit :=
  let* k := get_call call in
  modify_cl (fun c => with_request (mkRequest s (call_Method k)) c) >>
  let* c := get_cl in
  emit (EvWriteRequest (request c) (call_Args k)).

(** What [send] does when [WriteRequest] returned [err]. *)
Definition send_failed (s : Z) (err : error) : M unit :=
  Lock MuMutex >>
  let* c := get_cl in
  let call := pending c !! s in
  modify_cl (fun c => with_pending (delete s (pending c)) c) >>
  Unlock MuMutex >>
  match call with
  | Some q => set_call_Error q (Some err) >> done q
  | None => ret tt
  end.

(** [send]; [wres] is what [WriteRequest] returns if it is called. *)
Definition send (call : nat) (wres : option error) : M unit :=
  Lock MuSending >>
  defer (Unlock MuSending)
    (let* r := send_register call in
     match r with
     | None => ret tt
     | Some s =>
         send_write s call >>
         match wres with
         | Some err => send_failed s err
         | None => ret tt
         end
     end).

(** [Notify]: returns the error of the operation, [None] for [nil]. *)
Definition Notify (method : string) (args : value) (wres : option error)
  : M (option error) :=
  Lock MuSending >>
  defer (Unlock MuSending)
    (let* c := get_cl in
     if shutdown c || closing c then ret (Some ErrShutdown)
     else
       modify_cl (fun c => with_request (mkRequest 0 method) c) >>
       let* c := get_cl in
       emit (EvWriteRequest (request c) args) >>
       ret wres).

(** [new(Call)] and [make(chan *Call, n)]. *)
Definition new_call (k : Call) : M nat :=
  fun w =>
    let p := fresh (dom (calls w)) in
    Ok p (set_calls (<[p := k]> (calls w)) w).

Definition make_chan (n : nat) : M nat :=
  fun w =>
    let a := fresh (dom (chans w)) in
    Ok a (set_chans (<[a := mkChan n []]> (chans w)) w).

Definition chan_capacity (a : nat) : M nat :=
  fun w => Ok (match chans w !! a with Some ch => chan_cap ch | None => O end) w.

(** [Go]; [done_ch] is [None] for a [nil] channel.  Returns the address of
    the new call. *)
Definition Go (method : string) (args reply : value) (done_ch : option nat)
    (wres : option error) : M nat :=
  let* call := new_call (mkCall method args reply None O 0) in
  let* d :=
    match done_ch with
    | None => make_chan 10 (* buffered. *)
    | Some d =>
        let* n := chan_capacity d in
        if (n =? 0)%nat then panic "birpc: done channel is unbuffered"
        else ret d
    end in
  let* k := get_call call in
  put_call call (mkCall (call_Method k) (call_Args k) (call_Reply k)
                   (call_Error k) d (call_seq k)) >>
  send call wres >>
  ret call.

(** *** Call *)

(** The context handed to [Call]: still live, or done with [ctx.Err()]. *)
Inductive ctx_state : Type :=
| CtxLive
| CtxDone (err : error).

(** The branch of [Call] taken when [ctx.Done()] wins the select; [wres]
    is the result of writing the cancel request, should one be written. *)
Definition Call_cancel (call : nat) (ctx_err : error) (wres : option error)
  : M (option error) :=
  (* Cancel the pending request on the client *)
  Lock MuMutex >>
  let* k := get_call call in
  let s := call_seq k in
  let* c := get_cl in
  let ok := bool_decide (is_Some (pending c !! s)) in
  modify_cl (fun c => with_pending (delete s (pending c)) c) >>
  (if s =? 0 then
     (* hasn't been sent yet, non-zero will prevent send *)
     set_call_seq call 1
   else ret tt) >>
  Unlock MuMutex >>
  (* Cancel running request on the server *)
  (if negb (s =? 0) && ok then
     Go cancel_method (VCancelArgs s) VNil (Some (call_Done k)) wres >> ret tt
   else ret tt) >>
  ret (Some ctx_err).

(** The select of [Call].  When both the completion channel and the context
    are ready Go picks one of them; [prefer_ctx] is that choice.  When
    neither is ready the caller stays blocked. *)
Definition Call_wait (call : nat) (ctx : ctx_state) (prefer_ctx : bool)
    (wres : option error) : M (option error) :=
  let* k := get_call call in
  fun w =>
    let ch := chans w !! call_Done k in
    let buf := match ch with Some c => chan_buf c | None => [] end in
    match buf, ctx with
    | [], CtxLive => Block w
    | [], CtxDone e => Call_cancel call e wres w
    | _ :: rest, CtxDone e =>
        if prefer_ctx then Call_cancel call e wres w
        else
          (let* k' := get_call call in ret (call_Error k'))
            (set_chans (<[call_Done k :=
                           mkChan (match ch with Some c => chan_cap c | None => O end) rest]>
                          (chans w)) w)
    | _ :: rest, CtxLive =>
        (let* k' := get_call call in ret (call_Error k'))
          (set_chans (<[call_Done k :=
                         mkChan (match ch with Some c => chan_cap c | None => O end) rest]>
                        (chans w)) w)
    end.

(** [Call] up to its select: a channel with room for this call and for the
    cancel call, then [Go]. *)
Definition Call_start (serviceMethod : string) (args reply : value)
    (wres : option error) : M nat :=
  let* ch := make_chan 2 in (* 2 for this call and cancel *)
  Go serviceMethod args reply (Some ch) wres.

(** [Call] run without interference between [Go] and the select. *)
Definition Client_Call (ctx : ctx_state) (prefer_ctx : bool) (serviceMethod : string)
    (args reply : value) (wres wres_cancel : option error) : M (option error) :=
  let* call := Call_start serviceMethod args reply wres in
  Call_wait call ctx prefer_ctx wres_cancel.

(** *** Reading *)

(** [readResponse]; [bres] is the result of [ReadResponseBody] and [body]
    the value it decodes into the reply slot when it succeeds.  The codec is
    handed [call.Reply] as it is: when that is [nil] the body is read and
    dropped, as in the two branches that pass [nil] themselves. *)
Definition readResponse (resp : Response) (bres : option error) (body : value)
  : M (option error) :=
  let s := resp_Seq resp in
  Lock MuMutex >>
  let* c := get_cl in
  let call := pending c !! s in
  modify_cl (fun c => with_pending (delete s (pending c)) c) >>
  Unlock MuMutex >>
  match call with
  | None =>
      (* We've got no pending call. *)
      emit (EvReadResponseBody true) >>
      ret (match bres with
           | Some e => Some (ErrorsNew ("reading error body: " ++ error_string e))
           | None => None
           end)
  | Some p =>
      if negb (bool_decide (resp_Error resp = "")) then
        (* We've got an error response. Give this to the request. *)
        set_call_Error p (Some (ServerError (resp_Error resp))) >>
        emit (EvReadResponseBody true) >>
        done p >>
        ret (match bres with
             | Some e => Some (ErrorsNew ("reading error body: " ++ error_string e))
             | None => None
             end)
      else
        let* k := get_call p in
        let no_reply := bool_decide (call_Reply k = VNil) in
        emit (EvReadResponseBody no_reply) >>
        (match bres with
         | Some e => set_call_Error p (Some (ErrorsNew ("reading body " ++ error_string e)))
         | None => if no_reply then ret tt else set_call_Reply p body
         end) >>
        done p >>
        ret bres
  end.

(** Modelled from the spec: the pending-dispatch table of package
    [internal/svc], whose source is not part of the repository files at
    hand.  A token is registered for the sequence number before the handler
    is invoked (not for a notification) and removed when it completes. *)
Definition pending_Start (s : Z) : M unit :=
  fun w => Ok tt (if s =? 0 then w else set_inbound ({[s]} ∪ inbound w) w).

Definition pending_Cancel (s : Z) : M unit :=
  fun w => Ok tt (set_inbound (inbound w ∖ {[s]}) w).

(** [handleRequest].  The handler is user code: [hreply] and [herr] are the
    reply it stores and the error it returns, [wres] is the result of
    [WriteResponse].  (For a [_goRPC_] method the source first hands the
    dispatch table to the argument; this has no effect on the engine.) *)
Definition handleRequest (req : Request) (method : handler) (argv : value)
    (hreply : value) (herr : option error) (wres : option error) : M unit :=
  pending_Start (req_Seq req) >>
  defer (pending_Cancel (req_Seq req))
    ((* Invoke the method, providing a new value for the reply. *)
     emit (EvInvoke method req argv) >>
     (* Do not send response if request is a notification. *)
     if req_Seq req =? 0 then ret tt
     else
       (* The return value for the method is an error. *)
       let errmsg := match herr with Some e => error_string e | None => "" end in
       let resp := mkResponse (req_Seq req) errmsg in
       emit (EvWriteResponse resp hreply) >>
       match wres with
       | Some e => emit (EvDebug ("birpc: error writing response: " ++ error_string e))
       | None => ret tt
       end).

(** What the codec and the handler answer while one frame is processed. *)
Record Oracle : Type := mkOracle {
  o_body_err : option error;   (* ReadRequestBody / ReadResponseBody *)
  o_body : value;              (* the value decoded from the body *)
  o_reply : value;             (* the reply stored by the handler *)
  o_handler_err : option error;
  o_write_err : option error   (* WriteResponse *)
}.

(** [readRequest]. *)
Definition readRequest (req : Request) (o : Oracle) : M (option error) :=
  fun w =>
    match client_handlers w !! req_Method req with
    | None =>
        let resp := mkResponse (req_Seq req) (cant_find_method ++ req_Method req) in
        (emit (EvWriteResponse resp (VResponse resp)) >> ret (o_write_err o)) w
    | Some method =>
        (* Decode the argument value. *)
        (emit EvReadRequestBody >>
         match o_body_err o with
         | Some e => ret (Some e)
         | None =>
             let argv := o_body o in
             let* c := get_cl in
             (if blocking c then
                handleRequest req method argv (o_reply o) (o_handler_err o) (o_write_err o)
              else
                emit (EvGo req argv)) >>
             ret None
         end) w
    end.

(** One frame as [ReadHeader] delivers it, with the answers needed to
    process it. *)
Record Frame : Type := mkFrame {
  f_req : Request;
  f_resp : Response;
  f_oracle : Oracle
}.

(** The body of the loop of [readLoop], after [ReadHeader] has filled in the
    request and the response of [f]. *)
Definition read_frame (f : Frame) : M (option error) :=
  if negb (bool_decide (req_Method (f_req f) = "")) then
    (* request comes to server *)
    let* r := readRequest (f_req f) (f_oracle f) in
    match r with
    | Some e => emit (EvDebug ("birpc: error reading request: " ++ error_string e)) >> ret r
    | None => ret r
    end
  else
    (* response comes to client *)
    let* r := readResponse (f_resp f) (o_body_err (f_oracle f)) (o_body (f_oracle f)) in
    match r with
    | Some e => emit (EvDebug ("birpc: error reading response: " ++ error_string e)) >> ret r
    | None => ret r
    end.

(** The loop of [readLoop]: frames are read until the codec or one of
    [readRequest] and [readResponse] returns an error; [final] is the error
    [ReadHeader] returns after the last frame.  The result is the value of
    [err] when the loop is left. *)
Fixpoint read_frames (frames : list Frame) (final : error) : M error :=
  emit EvReadHeader >>
  match frames with
  | [] => ret final
  | f :: rest =>
      let* r := read_frame f in
      match r with
      | Some e => ret e
      | None => read_frames rest final
      end
  end.

(** Running [body] on every element of a list, in order. *)
Fixpoint for_each {A} (body : A -> M unit) (l : list A) : M unit :=
  match l with
  | [] => ret tt
  | x :: l => body x >> for_each body l
  end.

(** The error the pending calls are terminated with. *)
Definition translate_eof (err : error) (closing : bool) : error :=
  if bool_decide (err = EOF) then
    if closing then ErrShutdown else ErrUnexpectedEOF
  else err.

(** The loop over the pending table at the end of [readLoop]: every call is
    given the error and completed. *)
Definition terminate_calls (err : error) (entries : list (Z * nat)) : M unit :=
  for_each (fun '(_, call) => set_call_Error call (Some err) >> done call) entries.

(** The last steps of [readLoop], after the mutexes are released: the
    protocol error is reported, the disconnect channel is closed (closing a
    channel that is closed already panics), and the codec is closed unless
    the local side was closing. *)
Definition close_disconnect : M unit :=
  let* c := get_cl in
  if disconnect c then panic "close of closed channel"
  else modify_cl (with_disconnect true) >> emit EvCloseDisconnect.

Definition readLoop_finish (err : error) (closing : bool) : M unit :=
  (let* c := get_cl in
   if negb (bool_decide (err = EOF)) && negb closing && negb (server c) then
     emit (EvDebug ("birpc: client protocol error: " ++ error_string err))
   else ret tt) >>
  close_disconnect >>
  (if negb closing then emit EvCodecClose else ret tt).

(** The part of [readLoop] after the loop; [err] is the error that ended
    the loop. *)
Definition readLoop_exit (err : error) : M unit :=
  (* Terminate pending calls. *)
  Lock MuSending >>
  Lock MuMutex >>
  modify_cl (with_shutdown true) >>
  let* c := get_cl in
  let closing := closing c in
  let err := translate_eof err closing in
  terminate_calls err (map_to_list (pending c)) >>
  Unlock MuMutex >>
  Unlock MuSending >>
  readLoop_finish err closing.

(** [readLoop], and [Run]. *)
Definition readLoop (frames : list Frame) (final : error) : M unit :=
  let* err := read_frames frames final in
  readLoop_exit err.

Definition Run (frames : list Frame) (final : error) : M unit :=
  readLoop frames final.

(** [Close]; [cres] is the result of closing the codec. *)
Definition Close (cres : option error) : M (option error) :=
  Lock MuMutex >>
  let* c := get_cl in
  if shutdown c || closing c then
    Unlock MuMutex >> ret (Some ErrShutdown)
  else
    modify_cl (with_closing true) >>
    Unlock MuMutex >>
    emit EvCodecClose >>
    ret cres.

(** ** The server ([server.go]) *)

Record Server : Type := mkServer { srv_handlers : nat }.

(** [NewServer]. *)
Definition NewServer : M Server :=
  let* reg := new_registry in ret (mkServer reg).

(** [Server.Handle]. *)
Definition Server_Handle (s : Server) (method : string) (handlerFunc : iface) : M unit :=
  addHandler (srv_handlers s) method handlerFunc.

(** The engine [ServeCodecWithState] builds for an accepted connection. *)
Definition serve_peer (s : Server) (cdc : nat) (state : option nat) : M unit :=
  (* Client also handles the incoming connections. *)
  NewClientWithCodec cdc >>
  modify_cl (with_server true) >>
  modify_cl (with_handlers (srv_handlers s)) >>
  modify_cl (with_State state).

(** [ServeCodecWithState]. *)
Definition ServeCodecWithState (s : Server) (cdc : nat) (state : option nat)
    (frames : list Frame) (final : error) : M unit :=
  defer (emit EvCodecClose)
    (serve_peer s cdc state >>
     emit (EvPublish true) >>
     Run frames final >>
     emit (EvPublish false)).

(** The world before anything is allocated. *)
Definition empty_world : World :=
  mkWorld ∅ ∅ ∅ ∅
    (mkClient false false (mkRequest 0 "") 0 ∅ false false false O O false None false)
    [].

Definition world_of {A} (r : Res A) : World :=
  match r with Ok _ w => w | Panic _ w => w | Block w => w end.

(** The world of a freshly created client. *)
Definition new_client_world : World := world_of (NewClientWithCodec O empty_world).

(** ** Executions *)

(** The operations the tasks of a program perform on one engine.  An
    operation is one function of the engine, run from its first to its last
    lock operation without another operation in between.  The reader task
    is represented by the iterations of its loop and by the exit of the
    loop (left because [ReadHeader] failed, [from_header], or because the
    last iteration returned an error); the handlers it spawns are
    represented by [OpHandleRequest]; [Call] is split at its select into
    [OpCallStart] and [OpCallWait], so that responses can arrive in between;
    [OpMakeChan] and [OpRecv] are the caller making a completion channel and
    receiving from one. *)
Inductive Op : Type :=
| OpHandle (method : string) (handlerFunc : iface)
| OpSetBlocking (b : bool)
| OpGo (method : string) (args reply : value) (done_ch : option nat) (wres : option error)
| OpCallStart (method : string) (args reply : value) (wres : option error)
| OpCallWait (call : nat) (ctx : ctx_state) (prefer_ctx : bool) (wres : option error)
| OpNotify (method : string) (args : value) (wres : option error)
| OpClose (cres : option error)
| OpReadFrame (f : Frame)
| OpReadExit (from_header : bool) (err : error)
| OpHandleRequest (req : Request) (method : handler) (argv hreply : value)
    (herr wres : option error)
| OpMakeChan (n : nat)
| OpRecv (ch : nat).

(** A receive that does not wait: the first call queued on the channel, if
    any, is taken off. *)
Definition recv (ch : nat) : M (option nat) :=
  fun w =>
    match chans w !! ch with
    | Some (mkChan n (p :: rest)) => Ok (Some p) (set_chans (<[ch := mkChan n rest]> (chans w)) w)
    | _ => Ok None w
    end.

Definition exec_op (o : Op) : M unit :=
  match o with
  | OpHandle method handlerFunc => Handle method handlerFunc
  | OpSetBlocking b => SetBlocking b
  | OpGo method args reply done_ch wres => Go method args reply done_ch wres >> ret tt
  | OpCallStart method args reply wres => Call_start method args reply wres >> ret tt
  | OpCallWait call ctx prefer_ctx wres => Call_wait call ctx prefer_ctx wres >> ret tt
  | OpNotify method args wres => Notify method args wres >> ret tt
  | OpClose cres => Close cres >> ret tt
  | OpReadFrame f => emit EvReadHeader >> read_frame f >> ret tt
  | OpReadExit from_header err =>
      (if from_header then emit EvReadHeader else ret tt) >> readLoop_exit err
  | OpHandleRequest req method argv hreply herr wres =>
      handleRequest req method argv hreply herr wres
  | OpMakeChan n => make_chan n >> ret tt
  | OpRecv ch => recv ch >> ret tt
  end.

(** An execution: operations one after the other, up to the first that
    panics or cannot proceed. *)
Definition exec (ops : list Op) : M unit := for_each exec_op ops.

(** ** Observations on the log *)

(** The sequence numbers [send] handed out, in order. *)
Definition assigned (l : list Event) : list Z :=
  omap (fun e => match e with EvRegister s _ => Some s | _ => None end) l.

(** The requests written to the codec, each with its arguments, in order. *)
Definition written_requests (l : list Event) : list (Request * value) :=
  omap (fun e => match e with EvWriteRequest r a => Some (r, a) | _ => None end) l.

(** The responses written to the codec, each with its body, in order. *)
Definition written_responses (l : list Event) : list (Response * value) :=
  omap (fun e => match e with EvWriteResponse r b => Some (r, b) | _ => None end) l.

(** How many times [ReadRequestBody] was called. *)
Definition request_body_reads (l : list Event) : nat :=
  length (List.filter (fun e => bool_decide (e = EvReadRequestBody)) l).

(** How many times [done] ran on the call at [p], and how many times it
    delivered the call on its channel. *)
Definition is_done (p : nat) (e : Event) : bool :=
  match e with EvDone q _ => bool_decide (q = p) | _ => false end.
Definition is_delivery (p : nat) (e : Event) : bool :=
  match e with EvDone q true => bool_decide (q = p) | _ => false end.
Definition done_count (p : nat) (l : list Event) : nat :=
  length (List.filter (is_done p) l).
Definition delivery_count (p : nat) (l : list Event) : nat :=
  length (List.filter (is_delivery p) l).

(** The events [done] logs. *)
Definition is_done_event (e : Event) : bool :=
  match e with EvDone _ _ | EvDebug _ => true | _ => false end.

(** Whether mutex [m] is held after the events of [l], when it was held
    ([init = true]) or free before them. *)
Fixpoint held_after (m : Mutex) (init : bool) (l : list Event) : bool :=
  match l with
  | [] => init
  | EvLock m' :: l => held_after m (if bool_decide (m' = m) then true else init) l
  | EvUnlock m' :: l => held_after m (if bool_decide (m' = m) then false else init) l
  | _ :: l => held_after m init l
  end.

Definition is_codec_write (e : Event) : bool :=
  match e with
  | EvWriteRequest _ _ | EvWriteResponse _ _ => true
  | _ => false
  end.

(** Every write to the codec among the events of [l] happens while the send
    serializer is held. *)
Fixpoint writes_serialized (init : bool) (l : list Event) : bool :=
  match l with
  | [] => true
  | e :: l' =>
      (if is_codec_write e then init else true)
      && writes_serialized (held_after MuSending init [e]) l'
  end.

(** The sequence numbers 1, 2, ..., n as [uint64] values. *)
Definition seqs_upto (n : nat) : list Z :=
  List.map (fun i => wrap64 (Z.of_nat i)) (List.seq 1 n).

(** The descriptor [addHandler] stores for the cancel service. *)
Definition cancel_handler : handler :=
  mkHandler GoRPC_Cancel
    (TPtr (TNamed "github.com/cgrates/birpc/internal/svc" "svc" "CancelArgs" KStruct))
    (TPtr (TNamed "" "" "bool" KBool)).

(** What a response does to the call it belongs to. *)
Definition response_outcome (resp : Response) (bres : option error) (body : value)
    (k : Call) : Call :=
  if negb (bool_decide (resp_Error resp = "")) then
    with_call_Error (Some (ServerError (resp_Error resp))) k
  else
    match bres with
    | Some e => with_call_Error (Some (ErrorsNew ("reading body " ++ error_string e))) k
    | None => if bool_decide (call_Reply k = VNil) then k else with_call_Reply body k
    end.

(** Whether [readResponse] hands [nil] to [ReadResponseBody] for the call
    [k]: it does for an error response and for a call without reply. *)
Definition body_dropped (resp : Response) (k : Call) : bool :=
  negb (bool_decide (resp_Error resp = "")) || bool_decide (call_Reply k = VNil).

(** ** Invariants of executions *)

(** [m] keeps [I], whatever its outcome. *)
Definition preserves {A} (I : World -> Prop) (m : M A) : Prop :=
  forall w, I w -> I (world_of (m w)).

(** [m] works on the heap only: the engine record and the log are as
    before, and no call is freed. *)
Definition heap_only {A} (m : M A) : Prop :=
  forall w,
    cl (world_of (m w)) = cl w
    /\ log (world_of (m w)) = log w
    /\ dom (calls w) ⊆ dom (calls (world_of (m w))).

(** The counter is one more than the number of sequence numbers handed out
    so far, and these are 1, 2, 3, ... in [uint64] arithmetic. *)
Definition counter_inv (w : World) : Prop :=
  exists n : nat,
    assigned (log w) = seqs_upto n /\ seq (cl w) = wrap64 (Z.of_nat (S n)).

(** The disconnect channel was closed once if it is closed, and never if
    it is open. *)
Definition close_count (l : list Event) : nat :=
  length (List.filter (fun e => bool_decide (e = EvCloseDisconnect)) l).

Definition close_inv (w : World) : Prop :=
  close_count (log w) = if disconnect (cl w) then 1%nat else 0%nat.

(** The operations [Run] performs on frames [frames]: [n] iterations of the
    loop and its exit. *)
Definition reader_ops (frames : list Frame) (n : nat) (from_header : bool) (err : error)
  : list Op :=
  (List.map OpReadFrame (firstn n frames) ++ [OpReadExit from_header err])%list.

(** The shutdown flag has the value [b]. *)
Definition shutdown_is (b : bool) (w : World) : Prop := shutdown (cl w) = b.

(** The operations of the reader task. *)
Definition is_reader_op (o : Op) : bool :=
  match o with
  | OpReadFrame _ | OpReadExit _ _ => true
  | _ => false
  end.

(** One reader task per engine: once the loop has been left, the reader
    does nothing more. *)
Fixpoint single_reader (ops : list Op) : bool :=
  match ops with
  | [] => true
  | OpReadExit _ _ :: rest => forallb (fun o => negb (is_reader_op o)) rest
  | _ :: rest => single_reader rest
  end.

(** What holds of the calls between two operations: a call that is not
    allocated was never completed; no call was completed twice; the pending
    table points to allocated calls, to each of them once, and, as long as
    the read loop has not ended, to calls that were not completed; both
    mutexes are free. *)
Record calls_inv (w : World) : Prop := mk_calls_inv {
  inv_unallocated : forall p, calls w !! p = None -> done_count p (log w) = O;
  inv_once : forall p, (done_count p (log w) <= 1)%nat;
  inv_pending : forall s p, pending (cl w) !! s = Some p ->
      is_Some (calls w !! p) /\ (shutdown (cl w) = false -> done_count p (log w) = O);
  inv_injective : forall s1 s2 p,
      pending (cl w) !! s1 = Some p -> pending (cl w) !! s2 = Some p -> s1 = s2;
  inv_mutex : mutex (cl w) = false;
  inv_sending : sending (cl w) = false
}.

(** An operation that leaves the calls allocated, the pending table, the
    shutdown flag and the mutexes as they are, and completes no call. *)
Definition quiet_rel (w w' : World) : Prop :=
  dom (calls w) ⊆ dom (calls w')
  /\ pending (cl w') = pending (cl w)
  /\ shutdown (cl w') = shutdown (cl w)
  /\ mutex (cl w') = mutex (cl w)
  /\ sending (cl w') = sending (cl w)
  /\ forall q, done_count q (log w') = done_count q (log w).

(** ** Sample worlds and executions *)

(** A fresh client together with one call that has not been sent, on a
    channel of capacity 10. *)
Definition sample_call : Call := mkCall "add" (VInt 1) VNil None O 0.

Definition ready_world : World :=
  world_of ((make_chan 10 >> new_call sample_call) new_client_world).

(** A client whose read loop has ended on [EOF], together with a call whose
    sequence field is non-zero already. *)
Definition stamped_call : Call := mkCall "add" (VInt 1) VNil None O 1.

Definition shut_world : World :=
  world_of ((make_chan 10 >> new_call stamped_call >> readLoop_exit EOF)
              new_client_world).

(** A client that has sent one call through [Call] and is waiting in the
    select, and one whose request could not be written. *)
Definition sent_world : World :=
  world_of (Call_start "add" (VInt 1) VNil None new_client_world).

Definition failed_world : World :=
  world_of (Call_start "add" (VInt 1) VNil (Some (CodecError "broken pipe"))
              new_client_world).


(** A client in blocking mode that serves the method [add] of the test
    suite. *)
Definition Args_type : gotype := TNamed "github.com/cgrates/birpc" "birpc" "Args" KStruct.
Definition Reply_type : gotype := TNamed "github.com/cgrates/birpc" "birpc" "Reply" KInt.

Definition add_fn : func_value :=
  mkFunc "add" [typeOfCtx; TPtr Args_type; TPtr Reply_type] [typeOfError].

Definition add_handler : handler := mkHandler add_fn (TPtr Args_type) (TPtr Reply_type).

Definition serving_world : World :=
  world_of ((Handle "add" (IFunc add_fn) >> SetBlocking true) new_client_world).

(** A request frame as [ReadHeader] delivers it (a notification when [s] is
    0), for a handler that replies [reply] without error; and a response
    frame whose body decodes to [body]. *)
Definition request_frame (s : Z) (method : string) (arg reply : value) : Frame :=
  mkFrame (mkRequest s method) (mkResponse 0 "") (mkOracle None arg reply None None).

Definition response_frame (s : Z) (body : value) : Frame :=
  mkFrame (mkRequest 0 "") (mkResponse s "") (mkOracle None body VNil None None).

(** Two calls with a notification in between. *)
Definition two_calls_and_a_notification : list Op :=
  [OpGo "add" (VInt 1) VNil None None;
   OpNotify "set" (VInt 6) None;
   OpGo "add" (VInt 2) VNil None None].

(** Two calls started with [Go] on one channel of capacity 1, each with a
    reply that holds 0, both answered before the caller receives anything. *)
Definition two_calls_one_slot : list Op :=
  [OpMakeChan 1;
   OpGo "add" (VInt 1) (VInt 0) (Some O) None;
   OpGo "add" (VInt 2) (VInt 0) (Some O) None;
   OpReadFrame (response_frame 1 (VInt 3));
   OpReadFrame (response_frame 2 (VInt 5))].


(** Method [m] is served by handler [h]. *)
Definition serves (m : string) (h : handler) (w : World) : Prop :=
  client_handlers w !! m = Some h.

(** [m], started with the mutexes in state [(a, b)] ([mutex], [sending]),
    does not wait for a mutex, and when it returns the mutexes are in state
    [(a', b')]. *)
Definition locks {A} (a b a' b' : bool) (m : M A) : Prop :=
  forall w,
    mutex (cl w) = a -> sending (cl w) = b ->
    match m w with
    | Ok _ w' => mutex (cl w') = a' /\ sending (cl w') = b'
    | Panic _ _ => True
    | Block _ => False
    end.

(** [m] never waits, whatever the state of the mutexes. *)
Definition never_waits {A} (m : M A) : Prop :=
  forall w, match m w with Block _ => False | _ => True end.

(** The select of [Call] on a live context, the one place where an
    operation waits. *)
Definition is_live_wait (o : Op) : bool :=
  match o with OpCallWait _ CtxLive _ _ => true | _ => false end.

(** The engine is closing or shut down, the requests written so far are
    [reqs] and the sequence numbers handed out so far are [seqs]. *)
Definition closed_with (reqs : list (Request * value)) (seqs : list Z) (w : World) : Prop :=
  shutdown (cl w) || closing (cl w) = true
  /\ written_requests (log w) = reqs
  /\ assigned (log w) = seqs.

(** How many times the codec was closed. *)
Definition codec_closes (l : list Event) : nat :=
  length (List.filter (fun e => bool_decide (e = EvCodecClose)) l).

(** The three flags of the engine have the given values and the codec was
    closed [n] times. *)
Definition flags_are (c d s : bool) (n : nat) (w : World) : Prop :=
  closing (cl w) = c /\ disconnect (cl w) = d /\ shutdown (cl w) = s
  /\ codec_closes (log w) = n.

(** The codec was closed once if the client is closing or disconnected, and
    never otherwise; and the disconnect channel is closed on a client that
    is shut down only. *)
Definition codec_inv (w : World) : Prop :=
  (disconnect (cl w) = true -> shutdown (cl w) = true)
  /\ codec_closes (log w) = if closing (cl w) || disconnect (cl w) then 1%nat else 0%nat.

(** Every entry of the pending table points to a call whose sequence field
    is the key of the entry. *)
Definition pending_keyed (w : World) : Prop :=
  forall s p, pending (cl w) !! s = Some p ->
    exists k, calls w !! p = Some k /\ call_seq k = s.

(** From [w0] to [w] no entry was added to the pending table and no call
    changed its sequence field. *)
Definition keeps_seq (w0 w : World) : Prop :=
  pending (cl w) ⊆ pending (cl w0)
  /\ forall p k, calls w0 !! p = Some k ->
       exists k', calls w !! p = Some k' /\ call_seq k' = call_seq k.

(** The pending table points to allocated calls. *)
Definition pending_allocated (w : World) : Prop :=
  map_Forall (fun _ p => is_Some (calls w !! p)) (pending (cl w)).

(** How many times [ReadHeader] was called. *)
Definition header_reads (l : list Event) : nat :=
  length (List.filter (fun e => match e with EvReadHeader => true | _ => false end) l).

(** The handlers that were run, and those that were handed to a new
    goroutine, in order. *)
Definition invoked (l : list Event) : list (handler * Request * value) :=
  omap (fun e => match e with EvInvoke h r a => Some (h, r, a) | _ => None end) l.

Definition spawned (l : list Event) : list (Request * value) :=
  omap (fun e => match e with EvGo r a => Some (r, a) | _ => None end) l.

(** The events that open and end the service of a connection. *)
Definition is_session_event (e : Event) : bool :=
  match e with
  | EvPublish _ | EvCodecClose | EvCloseDisconnect => true
  | _ => false
  end.

(** A frame on which the codec does not fail: its body is decoded, and if
    it is a request for a method that registry [hs] does not hold, the
    response that says so is written. *)
Definition codec_serves (hs : gmap string handler) (f : Frame) : Prop :=
  o_body_err (f_oracle f) = None
  /\ (req_Method (f_req f) <> "" -> hs !! req_Method (f_req f) = None ->
      o_write_err (f_oracle f) = None).

(** The handler registry [hs] holds for the request of a frame, if the
    frame is a request and the method is served. *)
Definition dispatch (hs : gmap string handler) (f : Frame) : option handler :=
  if bool_decide (req_Method (f_req f) = "") then None
  else hs !! req_Method (f_req f).

(** What [readResponse] returns for a response whose call is pending. *)
Definition response_result (resp : Response) (bres : option error) : option error :=
  if bool_decide (resp_Error resp = "") then bres
  else match bres with
       | Some e => Some (ErrorsNew ("reading error body: " ++ error_string e))
       | None => None
       end.

(** The events of one iteration of the loop: none opens or ends a session,
    none reads a header; a handler is run only in blocking mode and handed
    to a goroutine only otherwise. *)
Definition frame_events (blocking : bool) (h : option handler) (f : Frame)
    (l : list Event) : Prop :=
  forallb (fun e => negb (is_session_event e)) l = true
  /\ header_reads l = O
  /\ (o_body_err (f_oracle f) = None ->
      invoked l = match h with
                  | Some h => if blocking then [(h, f_req f, o_body (f_oracle f))] else []
                  | None => []
                  end
      /\ spawned l = match h with
                     | Some h => if blocking then [] else [(f_req f, o_body (f_oracle f))]
                     | None => []
                     end).

(** The requests among the frames whose method registry [hs] holds, each
    with its handler and its decoded argument, in order. *)
Definition requests_served (hs : gmap string handler) (frames : list Frame)
  : list (handler * Request * value) :=
  omap (fun f => match dispatch hs f with
                 | Some h => Some (h, f_req f, o_body (f_oracle f))
                 | None => None
                 end) frames.

(** ** Contexts ([server.go]) *)

(** What the engine uses of [context.Context]: a context is the background
    context or is derived from a parent, by [context.WithCancel] (or a
    deadline), which adds no value, or by [context.WithValue].  The key
    [clientContextKey{}] is a type of its own, so no other key equals it;
    the value under a key is a [*Client] ([None] for [nil]) or anything
    else. *)
Inductive ctx_key : Type :=
| clientContextKey
| OtherKey (name : string).

Global Instance ctx_key_eq_dec : EqDecision ctx_key.
Proof. solve_decision. Defined.

Inductive ctx_value : Type :=
| ClientPtr (c : option nat)
| OtherValue (v : value).

Inductive Context : Type :=
| Background
| WithCancel (parent : Context)
| WithValue (parent : Context) (key : ctx_key) (val : ctx_value).

(** [ctx.Value(key)]: the value of the innermost [WithValue] with that
    key. *)
Fixpoint Context_Value (ctx : Context) (key : ctx_key) : option ctx_value :=
  match ctx with
  | Background => None
  | WithCancel parent => Context_Value parent key
  | WithValue parent k v =>
      if bool_decide (k = key) then Some v else Context_Value parent key
  end.

(** [WithClient] returns a new context based on the provided parent. *)
Definition WithClient (ctx : Context) (c : option nat) : Context :=
  WithValue ctx clientContextKey (ClientPtr c).

(** [ClientValueFromContext]: the type assertion to [*Client] yields [nil]
    when there is no value or when it is not a [*Client]. *)
Definition ClientValueFromContext (ctx : Context) : option nat :=
  match Context_Value ctx clientContextKey with
  | Some (ClientPtr c) => c
  | _ => None
  end.

(** Contexts derived from [ctx] without [WithClient]: by cancellation
    ([None]) or by a value under another key. *)
Fixpoint derive (steps : list (option (string * ctx_value))) (ctx : Context) : Context :=
  match steps with
  | [] => ctx
  | None :: steps => WithCancel (derive steps ctx)
  | Some (name, v) :: steps => WithValue (derive steps ctx) (OtherKey name) v
  end.

(** The sequence numbers of the requests handed to [WriteRequest], in
    order, without the zeros of the notifications. *)
Definition call_seqs (l : list Event) : list Z :=
  List.filter (fun s => negb (s =? 0))
    (List.map (fun ra => req_Seq (fst ra)) (written_requests l)).

Definition nonzero (l : list Z) : list Z := List.filter (fun s => negb (s =? 0)) l.

(** The requests written for calls carry the sequence numbers handed out. *)
Definition wire_inv (w : World) : Prop :=
  call_seqs (log w) = nonzero (assigned (log w)).



(** * Properties *)

(** Unfolding of the monad and of the record updates; lookups in the heaps
    are left for rewriting. *)
Ltac unfold_m :=
  cbv beta iota zeta delta
    [bind ret defer panic emit modify_cl get_cl Lock Unlock get_call put_call
     set_call_Error set_call_seq set_call_Reply world_of
     set_cl set_log set_calls set_chans set_registries set_inbound
     with_mutex with_sending with_request with_seq with_pending with_closing
     with_shutdown with_server with_handlers with_disconnect with_State
     with_blocking with_held held
     with_call_Error with_call_seq with_call_Reply
     cl log calls chans registries inbound
     mutex sending request seq pending closing shutdown server codec handlers
     disconnect State blocking
     call_Method call_Args call_Reply call_Error call_Done call_seq
     req_Seq req_Method resp_Seq resp_Error
     chan_cap chan_buf client_handlers new_registry new_call make_chan
     chan_capacity pending_Start pending_Cancel deliver done
     get_registry put_handler reflect_func log_Panicln
     from_option id].

Ltac destruct_world w :=
  let c := fresh "c" in
  destruct w as [? ? ? ? c ?]; destruct c; cbn [cl log calls chans registries
    inbound mutex sending request seq pending closing shutdown server codec
    handlers disconnect State blocking] in *; subst.

(** Projections of updated worlds. *)
Ltac world_simpl :=
  cbn [calls chans registries inbound cl log
       mutex sending request seq pending closing shutdown server codec handlers
       disconnect State blocking
       set_cl set_log set_calls set_chans set_registries set_inbound
       with_mutex with_sending with_request with_seq with_pending with_closing
       with_shutdown with_server with_handlers with_disconnect with_State
       with_blocking with_held held world_of].

(** ** The cancel service and the registry *)

(** How [addHandler] ends: it returns with one entry added to the
    registry, or it panics, either at once or on [log.Panicln], which has
    printed the text of the panic. *)
Lemma addHandler_cases (reg : nat) (mname : string) (g : iface) (w : World) :
  match addHandler reg mname g w with
  | Ok _ w' =>
      exists hs h,
        registries w !! reg = Some hs /\ hs !! mname = None
        /\ w' = set_registries (<[reg := <[mname := h]> hs]> (registries w)) w
  | Panic msg w' => w' = w \/ w' = set_log (log w ++ [EvLog msg]) w
  | Block _ => False
  end.
Proof.
  unfold addHandler, bind, get_registry.
  destruct (bool_decide (is_Some (default ∅ (registries w !! reg) !! mname))) eqn:Hdup;
    [left; reflexivity|].
  apply bool_decide_eq_false in Hdup. apply eq_None_not_Some in Hdup.
  destruct g as [f|v]; cbn [reflect_func ret].
  2: { destruct (value_type v); left; reflexivity. }
  assert (Hlog : forall l, match @log_Panicln unit l w with
                           | Panic msg w' => w' = w \/ w' = set_log (log w ++ [EvLog msg]) w
                           | _ => False
                           end) by (intros l; right; reflexivity).
  destruct (fn_ins f) as [|c [|a [|r [|? ?]]]]; try apply Hlog.
  destruct (negb (bool_decide (c = typeOfCtx))); [apply Hlog|].
  destruct (negb (isExportedOrBuiltinType a)); [apply Hlog|].
  destruct (negb (bool_decide (type_Kind r = KPtr))); [apply Hlog|].
  destruct (negb (isExportedOrBuiltinType r)); [apply Hlog|].
  destruct (fn_outs f) as [|o [|? ?]]; try apply Hlog.
  destruct (negb (bool_decide (o = typeOfError))); [apply Hlog|].
  unfold put_handler. destruct (registries w !! reg) as [hs|] eqn:Hreg; [|left; reflexivity].
  exists hs, (mkHandler f a r). auto.
Qed.

(** A function of the right shape under a name that is free. *)
Lemma addHandler_ok (reg : nat) (mname : string) (f : func_value) (w : World)
    (hs : gmap string handler) (argType replyType : gotype) :
  registries w !! reg = Some hs ->
  hs !! mname = None ->
  fn_ins f = [typeOfCtx; argType; replyType] ->
  isExportedOrBuiltinType argType = true ->
  type_Kind replyType = KPtr ->
  isExportedOrBuiltinType replyType = true ->
  fn_outs f = [typeOfError] ->
  addHandler reg mname (IFunc f) w =
  Ok tt (set_registries
           (<[reg := <[mname := mkHandler f argType replyType]> hs]> (registries w)) w).
Proof.
  intros Hreg Hname Hins Harg Hptr Hrep Houts.
  unfold addHandler, bind, get_registry, reflect_func, ret.
  rewrite Hreg, Hins, Houts, Harg, Hrep. cbn [default from_option id negb].
  rewrite Hname.
  rewrite bool_decide_eq_false_2 by (intros [? ?]; discriminate).
  rewrite !bool_decide_eq_true_2 by auto. cbn [negb].
  unfold put_handler. rewrite Hreg. reflexivity.
Qed.


(** What [NewClientWithCodec] computes: a new registry holding the cancel
    service, and an engine with sequence counter 1, no pending call and that
    registry. *)
Lemma NewClientWithCodec_eq (cdc : nat) (w : World) :
  NewClientWithCodec cdc w =
  Ok tt (set_registries
           (<[fresh (dom (registries w)) := <[cancel_method := cancel_handler]> ∅]>
              (<[fresh (dom (registries w)) := ∅]> (registries w)))
           (set_cl (mkClient false false (mkRequest 0 "") 1 ∅ false false false cdc
                      (fresh (dom (registries w))) false None false) w)).
Proof.
  destruct_world w.
  unfold NewClientWithCodec, Handle, new_registry, modify_cl, get_cl, bind.
  cbn [cl set_cl set_registries handlers registries].
  erewrite (addHandler_ok _ _ GoRPC_Cancel _ ∅);
    [reflexivity | apply lookup_insert_eq | apply lookup_empty | reflexivity..].
Qed.

(** A client made by [NewClientWithCodec] has the cancel service in its own,
    new registry. *)
Lemma NewClientWithCodec_registers_cancel (cdc : nat) (w : World) :
  exists w', NewClientWithCodec cdc w = Ok tt w'
    /\ client_handlers w' !! cancel_method = Some cancel_handler.
Proof.
  rewrite NewClientWithCodec_eq. eexists; split; [reflexivity|].
  destruct_world w. unfold_m.
  rewrite lookup_insert_eq. cbn [from_option id].
  apply lookup_insert_eq.
Qed.

(** The engine a server builds for a connection dispatches on the registry
    of the server: whatever the server has registered, and nothing else. *)
Lemma serve_peer_shares_registry (s : Server) (cdc : nat) (state : option nat)
    (w : World) (hs : gmap string handler) :
  registries w !! srv_handlers s = Some hs ->
  exists w', serve_peer s cdc state w = Ok tt w'
    /\ handlers (cl w') = srv_handlers s
    /\ server (cl w') = true
    /\ client_handlers w' = hs.
Proof.
  intros Hs. unfold serve_peer, bind at 1.
  rewrite NewClientWithCodec_eq.
  assert (Hne : fresh (dom (registries w)) <> srv_handlers s).
  { intros Heq. apply (is_fresh (dom (registries w))).
    rewrite Heq. apply elem_of_dom. eauto. }
  destruct_world w. unfold_m.
  eexists; split; [reflexivity|]. unfold_m.
  rewrite !lookup_insert_ne by exact Hne.
  rewrite Hs. auto.
Qed.

(** C1, at the input where the code departs from it.  A server without
    registrations serves a connection: the engine it builds looks handlers
    up in the registry of the server, and the name [_goRPC_.Cancel] is not
    found there.  (The registry [NewClientWithCodec] filled for that engine
    is no longer the one it uses.) *)
Theorem served_peer_lacks_cancel :
  exists s w,
    (let* s := NewServer in serve_peer s O None >> ret s) empty_world = Ok s w
    /\ handlers (cl w) = srv_handlers s
    /\ client_handlers w !! cancel_method = None.
Proof.
  unfold NewServer. unfold bind at 1. unfold bind at 1.
  unfold new_registry at 1. unfold ret at 1.
  set (w1 := set_registries _ _).
  destruct (serve_peer_shares_registry (mkServer (fresh (dom (registries empty_world)))) O None w1 ∅)
    as (w2 & Hrun & Hh & _ & Hc).
  { subst w1. unfold_m. apply lookup_insert_eq. }
  exists (mkServer (fresh (dom (registries empty_world)))), w2.
  unfold bind at 1. cbn [srv_handlers] in *. rewrite Hrun. unfold ret.
  split; [reflexivity|]. split; [exact Hh|].
  rewrite Hc. apply lookup_empty.
Qed.

(** ** [send] *)

Section Send.

Variables (w : World) (p : nat) (k : Call).
Hypothesis mutex_free : mutex (cl w) = false.
Hypothesis sending_free : sending (cl w) = false.
Hypothesis call_at_p : calls w !! p = Some k.

(** The engine is shut down or closing: the call is completed with
    [ErrShutdown]. *)
Lemma send_refused (wres : option error) :
  shutdown (cl w) || closing (cl w) = true ->
  send p wres w =
  Ok tt (set_log (log w ++ [EvLock MuSending; EvLock MuMutex; EvUnlock MuMutex]
                    ++ done_events p (chan_ready (chans w !! call_Done k))
                    ++ [EvUnlock MuSending])
           (set_chans (push_chan p (call_Done k) (chans w))
              (set_calls (<[p := with_call_Error (Some ErrShutdown) k]> (calls w)) w))).
Proof.
  intros Hc. destruct_world w. destruct k.
  unfold send, send_register. unfold_m.
  rewrite Hc, call_at_p, lookup_insert_eq.
  rewrite <- !app_assoc. reflexivity.
Qed.

(** The call carries a sequence number already: it is completed with
    [Canceled]. *)
Lemma send_canceled (wres : option error) :
  shutdown (cl w) || closing (cl w) = false ->
  call_seq k <> 0 ->
  send p wres w =
  Ok tt (set_log (log w ++ [EvLock MuSending; EvLock MuMutex; EvUnlock MuMutex]
                    ++ done_events p (chan_ready (chans w !! call_Done k))
                    ++ [EvUnlock MuSending])
           (set_chans (push_chan p (call_Done k) (chans w))
              (set_calls (<[p := with_call_Error (Some Canceled) k]> (calls w)) w))).
Proof.
  intros Hc Hk. destruct_world w. destruct k.
  unfold send, send_register. unfold_m.
  apply Z.eqb_neq in Hk. cbn in Hk.
  rewrite Hc, call_at_p, Hk. cbn [negb]. rewrite call_at_p, lookup_insert_eq.
  rewrite <- !app_assoc. reflexivity.
Qed.

(** The request is registered and written. *)
Lemma send_written :
  shutdown (cl w) || closing (cl w) = false ->
  call_seq k = 0 ->
  send p None w =
  Ok tt (set_log (log w ++ [EvLock MuSending; EvLock MuMutex;
                            EvRegister (seq (cl w)) p; EvUnlock MuMutex;
                            EvWriteRequest (mkRequest (seq (cl w)) (call_Method k)) (call_Args k);
                            EvUnlock MuSending])
           (set_calls (<[p := with_call_seq (seq (cl w)) k]> (calls w))
              (set_cl (with_request (mkRequest (seq (cl w)) (call_Method k))
                         (with_pending (<[seq (cl w) := p]> (pending (cl w)))
                            (with_seq (wrap64 (seq (cl w) + 1)) (cl w)))) w))).
Proof.
  intros Hc Hk. destruct_world w. destruct k.
  unfold send, send_register, send_write. unfold_m.
  cbn in Hk. subst.
  rewrite Hc, call_at_p. cbn [Z.eqb negb]. rewrite call_at_p, lookup_insert_eq.
  rewrite <- !app_assoc. reflexivity.
Qed.

(** The request is registered, the write fails, the entry is removed. *)
Lemma send_write_failed (err : error) :
  shutdown (cl w) || closing (cl w) = false ->
  call_seq k = 0 ->
  send p (Some err) w =
  Ok tt (set_log (log w ++ [EvLock MuSending; EvLock MuMutex;
                            EvRegister (seq (cl w)) p; EvUnlock MuMutex;
                            EvWriteRequest (mkRequest (seq (cl w)) (call_Method k)) (call_Args k);
                            EvLock MuMutex; EvUnlock MuMutex]
                    ++ done_events p (chan_ready (chans w !! call_Done k))
                    ++ [EvUnlock MuSending])
           (set_chans (push_chan p (call_Done k) (chans w))
              (set_calls (<[p := with_call_Error (Some err) (with_call_seq (seq (cl w)) k)]> (calls w))
                 (set_cl (with_request (mkRequest (seq (cl w)) (call_Method k))
                            (with_pending (delete (seq (cl w)) (pending (cl w)))
                               (with_seq (wrap64 (seq (cl w) + 1)) (cl w)))) w)))).
Proof.
  intros Hc Hk. destruct_world w. destruct k.
  unfold send, send_register, send_write, send_failed. unfold_m.
  cbn in Hk. subst.
  rewrite Hc, call_at_p. cbn [Z.eqb negb]. rewrite call_at_p, !lookup_insert_eq.
  rewrite ?insert_insert_eq, ?delete_insert_eq.
  rewrite <- !app_assoc. reflexivity.
Qed.

End Send.

(** C3, as amended.  [send] on a call [k] at address [p], with both mutexes
    free.  If the engine is shut down or closing, the call is completed with
    [ErrShutdown], whatever its sequence field.  Otherwise, if the sequence
    field is non-zero on entry, the call is completed with [Canceled].  In
    both cases the pending table and the counter are unchanged and nothing
    is written.  Otherwise the call gets the next sequence number and enters
    the pending table while both mutexes are held, then the request is
    written; if the write fails the entry is removed again and the call is
    completed with the write error. *)
Theorem send_behaviour (w : World) (p : nat) (k : Call) (wres : option error) :
  mutex (cl w) = false ->
  sending (cl w) = false ->
  calls w !! p = Some k ->
  exists w', send p wres w = Ok tt w' /\
    let s := seq (cl w) in
    let completion := done_events p (chan_ready (chans w !! call_Done k)) in
    if shutdown (cl w) || closing (cl w) then
      calls w' !! p = Some (with_call_Error (Some ErrShutdown) k)
      /\ log w' = (log w ++ [EvLock MuSending; EvLock MuMutex; EvUnlock MuMutex]
                        ++ completion ++ [EvUnlock MuSending])%list
      /\ pending (cl w') = pending (cl w) /\ seq (cl w') = s
    else if negb (call_seq k =? 0) then
      calls w' !! p = Some (with_call_Error (Some Canceled) k)
      /\ log w' = (log w ++ [EvLock MuSending; EvLock MuMutex; EvUnlock MuMutex]
                        ++ completion ++ [EvUnlock MuSending])%list
      /\ pending (cl w') = pending (cl w) /\ seq (cl w') = s
    else
      seq (cl w') = wrap64 (s + 1) /\
      match wres with
      | None =>
          calls w' !! p = Some (with_call_seq s k)
          /\ log w' = (log w ++ [EvLock MuSending; EvLock MuMutex; EvRegister s p;
                                 EvUnlock MuMutex;
                                 EvWriteRequest (mkRequest s (call_Method k)) (call_Args k);
                                 EvUnlock MuSending])%list
          /\ pending (cl w') = <[s := p]> (pending (cl w))
      | Some err =>
          calls w' !! p = Some (with_call_Error (Some err) (with_call_seq s k))
          /\ log w' = (log w ++ [EvLock MuSending; EvLock MuMutex; EvRegister s p;
                                 EvUnlock MuMutex;
                                 EvWriteRequest (mkRequest s (call_Method k)) (call_Args k);
                                 EvLock MuMutex; EvUnlock MuMutex]
                            ++ completion ++ [EvUnlock MuSending])%list
          /\ pending (cl w') = delete s (pending (cl w))
      end.
Proof.
  intros Hm Hs Hp.
  destruct (shutdown (cl w) || closing (cl w)) eqn:Hc.
  - rewrite (send_refused w p k Hm Hs Hp wres Hc).
    eexists; split; [reflexivity|]. cbn.
    rewrite lookup_insert_eq. auto.
  - destruct (call_seq k =? 0) eqn:Hk; cbn [negb].
    + apply Z.eqb_eq in Hk. destruct wres as [err|].
      * rewrite (send_write_failed w p k Hm Hs Hp err Hc Hk).
        eexists; split; [reflexivity|]. cbn.
        rewrite lookup_insert_eq. auto.
      * rewrite (send_written w p k Hm Hs Hp Hc Hk).
        eexists; split; [reflexivity|]. cbn.
        rewrite lookup_insert_eq. auto.
    + apply Z.eqb_neq in Hk.
      rewrite (send_canceled w p k Hm Hs Hp wres Hc Hk).
      eexists; split; [reflexivity|]. cbn.
      rewrite lookup_insert_eq. auto.
Qed.

(** On a fresh client a call that was not sent gets sequence number 1, and
    the counter moves to 2. *)
Lemma send_behaviour_witness :
  exists w', send O None ready_world = Ok tt w'
    /\ seq (cl w') = 2
    /\ pending (cl w') = <[1 := O]> (pending (cl ready_world)).
Proof.
  destruct (send_behaviour ready_world O sample_call None) as (w' & Hrun & Hpost);
    [reflexivity | reflexivity | reflexivity |].
  exists w'. split; [exact Hrun|].
  change (shutdown (cl ready_world) || closing (cl ready_world)) with false in Hpost.
  change (negb (call_seq sample_call =? 0)) with false in Hpost.
  change (seq (cl ready_world)) with 1 in Hpost.
  cbv zeta iota in Hpost.
  destruct Hpost as (Hseq & _ & _ & Hpend).
  split; [exact Hseq | exact Hpend].
Defined.

(** C3 as stated fails when the engine is shut down: a call whose sequence
    field is non-zero on entry is then completed with [ErrShutdown], not
    with a cancellation error. *)
Lemma send_stamped_call_on_shut_engine :
  shutdown (cl shut_world) = true
  /\ call_seq <$> calls shut_world !! O = Some 1
  /\ match send O None shut_world with
     | Ok _ w' => call_Error <$> calls w' !! O = Some (Some ErrShutdown)
                  /\ call_Error <$> calls w' !! O <> Some (Some Canceled)
     | _ => False
     end.
Proof.
  split; [reflexivity|]. split; [reflexivity|].
  vm_compute. split; [reflexivity | discriminate].
Qed.

(** ** [Go] and the cancellation branch of [Call] *)

(** [Go] on a channel of the caller: a new call on that channel, then [send]. *)
Lemma Go_with_chan (m : string) (a r : value) (d : nat) (ch : Chan) (wres : option error) (w : World) :
  chans w !! d = Some ch -> chan_cap ch <> O ->
  Go m a r (Some d) wres w =
  (send (fresh (dom (calls w))) wres >> ret (fresh (dom (calls w))))
    (set_calls (<[fresh (dom (calls w)) := mkCall m a r None d 0]> (calls w)) w).
Proof.
  intros Hd Hcap. destruct_world w. destruct ch as [n buf].
  unfold Go. unfold_m. rewrite Hd. cbn in Hcap.
  destruct n; [congruence|]. cbn [Nat.eqb].
  rewrite lookup_insert_eq, insert_insert_eq. reflexivity.
Qed.

(** [Go] without a channel: a new channel of capacity 10. *)
Lemma Go_new_chan (m : string) (a r : value) (wres : option error) (w : World) :
  Go m a r None wres w =
  (send (fresh (dom (calls w))) wres >> ret (fresh (dom (calls w))))
    (set_chans (<[fresh (dom (chans w)) := mkChan 10 []]> (chans w))
       (set_calls (<[fresh (dom (calls w)) := mkCall m a r None (fresh (dom (chans w))) 0]> (calls w)) w)).
Proof.
  destruct_world w.
  unfold Go. unfold_m.
  rewrite lookup_insert_eq, insert_insert_eq. reflexivity.
Qed.

(** The cancellation branch: the table entry under the sequence number of
    the call is deleted, a call that was not sent is stamped, and a cancel
    request goes out only for a call that was sent and still in the table. *)
Lemma Call_cancel_eq (call : nat) (k : Call) (e : error) (wres : option error) (w : World) :
  mutex (cl w) = false -> calls w !! call = Some k ->
  Call_cancel call e wres w =
  let s := call_seq k in
  let w1 := set_log (log w ++ [EvLock MuMutex; EvUnlock MuMutex])
              (set_calls (if s =? 0 then <[call := with_call_seq 1 k]> (calls w) else calls w)
                 (set_cl (with_pending (delete s (pending (cl w))) (cl w)) w)) in
  if negb (s =? 0) && bool_decide (is_Some (pending (cl w) !! s)) then
    (Go cancel_method (VCancelArgs s) VNil (Some (call_Done k)) wres >> ret (Some e)) w1
  else Ok (Some e) w1.
Proof.
  intros Hm Hk. destruct_world w. destruct k as [? ? ? ? d s].
  unfold Call_cancel. unfold_m. rewrite Hk.
  destruct (s =? 0) eqn:Hs; cbn [negb andb].
  - rewrite Hk. rewrite <- !app_assoc. reflexivity.
  - destruct (bool_decide _); rewrite <- !app_assoc; cbn [app]; [|reflexivity].
    destruct (Go _ _ _ _ _ _); reflexivity.
Qed.

Lemma written_requests_app l1 l2 :
  written_requests (l1 ++ l2) = (written_requests l1 ++ written_requests l2)%list.
Proof. unfold written_requests. apply omap_app. Qed.

Lemma written_requests_done_events p b : written_requests (done_events p b) = [].
Proof. destruct b; reflexivity. Qed.

(** C4, as amended.  [Call] when the context wins the select, for a call
    [k] at address [call] whose channel has a buffer.  The entry under the
    sequence number of the call is deleted from the pending table, and the
    value returned is the error of the context.  If the sequence number is
    still zero it is set to 1 and nothing is written.  If it is non-zero and
    the call was still in the pending table, a [_goRPC_.Cancel] request
    carrying that sequence number is handed to [Go]: on an engine that is
    neither shut down nor closing it is written with the next sequence
    number, otherwise it is refused.  If it is non-zero but the call was no
    longer in the table (it has completed already), nothing is written. *)
Theorem call_cancellation (w : World) (call : nat) (k : Call) (ch : Chan)
    (e : error) (prefer_ctx : bool) (wres : option error) :
  mutex (cl w) = false ->
  sending (cl w) = false ->
  calls w !! call = Some k ->
  chans w !! call_Done k = Some ch ->
  chan_cap ch <> O ->
  prefer_ctx = true \/ chan_buf ch = [] ->
  exists w', Call_wait call (CtxDone e) prefer_ctx wres w = Ok (Some e) w' /\
    let s := call_seq k in
    pending (cl w') !! s <> Some call /\
    if s =? 0 then
      calls w' !! call = Some (with_call_seq 1 k)
      /\ pending (cl w') = delete s (pending (cl w))
      /\ written_requests (log w') = written_requests (log w)
    else if bool_decide (is_Some (pending (cl w) !! s)) then
      if shutdown (cl w) || closing (cl w) then
        pending (cl w') = delete s (pending (cl w))
        /\ written_requests (log w') = written_requests (log w)
      else
        written_requests (log w') =
          (written_requests (log w)
             ++ [(mkRequest (seq (cl w)) "_goRPC_.Cancel", VCancelArgs s)])%list
    else
      calls w' = calls w
      /\ pending (cl w') = pending (cl w)
      /\ written_requests (log w') = written_requests (log w).
Proof.
  intros Hm Hs Hk Hch Hcap Hwin.
  assert (Hsel : Call_wait call (CtxDone e) prefer_ctx wres w
                 = Call_cancel call e wres w).
  { unfold Call_wait, bind, get_call. rewrite Hk, Hch.
    destruct Hwin as [-> | ->]; [destruct (chan_buf ch)|]; reflexivity. }
  rewrite Hsel, (Call_cancel_eq call k e wres w Hm Hk). cbv zeta.
  clear Hsel Hwin. destruct k as [km ka kr ke kd ks].
  cbn [call_seq call_Done] in *.
  destruct (ks =? 0) eqn:Hz; cbn [negb andb].
  - eexists; split; [reflexivity|]. destruct_world w. unfold_m.
    rewrite lookup_delete_eq, lookup_insert_eq, written_requests_app, app_nil_r.
    repeat split; congruence.
  - destruct (bool_decide (is_Some (pending (cl w) !! ks))) eqn:Hok.
    2:{ eexists; split; [reflexivity|]. destruct_world w. unfold_m.
        apply bool_decide_eq_false in Hok.
        rewrite lookup_delete_eq, written_requests_app, app_nil_r.
        repeat split; try congruence.
        apply delete_id. destruct (pending0 !! _) eqn:E; [|reflexivity].
        exfalso; apply Hok; eauto. }
    set (w1 := set_log _ _).
    assert (Hch1 : chans w1 !! kd = Some ch) by (subst w1; destruct_world w; exact Hch).
    unfold bind at 1.
    rewrite (Go_with_chan _ _ _ _ _ wres w1 Hch1 Hcap).
    set (p' := fresh (dom (calls w1))).
    set (k' := mkCall cancel_method (VCancelArgs ks) VNil None kd 0).
    set (w2 := set_calls _ w1).
    assert (Hm2 : mutex (cl w2) = false) by (subst w2 w1; destruct_world w; reflexivity).
    assert (Hs2 : sending (cl w2) = false) by (subst w2 w1; destruct_world w; reflexivity).
    assert (Hp2 : calls w2 !! p' = Some k') by (subst w2; cbn; apply lookup_insert_eq).
    assert (Hne : p' <> call).
    { intros Heq. apply (is_fresh (dom (calls w1))). fold p'. rewrite Heq.
      apply elem_of_dom. subst w1. destruct_world w. cbn. eauto. }
    assert (Hcl2 : shutdown (cl w2) || closing (cl w2) = shutdown (cl w) || closing (cl w))
      by (subst w2 w1; destruct_world w; reflexivity).
    unfold bind at 1.
    destruct (shutdown (cl w) || closing (cl w)) eqn:Hc.
    + rewrite (send_refused w2 p' k' Hm2 Hs2 Hp2 wres Hcl2).
      eexists; split; [reflexivity|]. subst w2 w1. destruct_world w. unfold_m.
      rewrite lookup_delete_eq.
      rewrite !written_requests_app, written_requests_done_events. cbn.
      rewrite !app_nil_r. repeat split; congruence.
    + destruct wres as [err|].
      * rewrite (send_write_failed w2 p' k' Hm2 Hs2 Hp2 err Hcl2 eq_refl).
        eexists; split; [reflexivity|]. subst w2 w1. destruct_world w. unfold_m.
        rewrite !written_requests_app, written_requests_done_events. cbn.
        rewrite !app_nil_r. split; [|reflexivity].
        destruct (decide (seq0 = ks)) as [->|Hd].
        -- rewrite lookup_delete_eq. congruence.
        -- rewrite lookup_delete_ne, lookup_delete_eq by congruence. congruence.
      * rewrite (send_written w2 p' k' Hm2 Hs2 Hp2 Hcl2 eq_refl).
        eexists; split; [reflexivity|]. subst w2 w1. destruct_world w. unfold_m.
        rewrite !written_requests_app. cbn.
        rewrite !app_nil_r. split; [|reflexivity].
        destruct (decide (seq0 = ks)) as [->|Hd].
        -- rewrite lookup_insert_eq. congruence.
        -- rewrite lookup_insert_ne, lookup_delete_eq by congruence. congruence.
Qed.

(** For a call that was sent and is still pending the cancel request
    follows the request on the wire. *)
Lemma call_cancellation_witness :
  exists w', Call_wait O (CtxDone Canceled) true None sent_world = Ok (Some Canceled) w'
    /\ written_requests (log w') =
       [(mkRequest 1 "add", VInt 1); (mkRequest 2 "_goRPC_.Cancel", VCancelArgs 1)].
Proof.
  destruct (call_cancellation sent_world O (mkCall "add" (VInt 1) VNil None O 1)
              (mkChan 2 []) Canceled true None) as (w' & Hrun & _ & Hpost);
    [reflexivity | reflexivity | reflexivity | reflexivity | discriminate
    | left; reflexivity |].
  exists w'. split; [exact Hrun|].
  change (call_seq (mkCall "add" (VInt 1) VNil None O 1) =? 0) with false in Hpost.
  change (bool_decide (is_Some (pending (cl sent_world)
            !! call_seq (mkCall "add" (VInt 1) VNil None O 1)))) with true in Hpost.
  change (shutdown (cl sent_world) || closing (cl sent_world)) with false in Hpost.
  cbv iota in Hpost. exact Hpost.
Defined.

(** C4 as stated fails for a call that was sent but is no longer pending.
    The write of the request fails, so the call is completed and leaves the
    table with sequence number 1; the context then wins the select, and no
    cancel request is written. *)
Lemma no_cancel_for_completed_call :
  call_seq <$> calls failed_world !! O = Some 1
  /\ match Call_wait O (CtxDone Canceled) true None failed_world with
     | Ok r w' =>
         r = Some Canceled
         /\ written_requests (log w') = [(mkRequest 1 "add", VInt 1)]
     | _ => False
     end.
Proof. split; [reflexivity|]. vm_compute. split; reflexivity. Qed.

(** ** Inbound requests *)

(** A request for a method without handler: one response is written, with
    the response itself as body, and its result is returned to the loop. *)
Lemma readRequest_unknown (w : World) (req : Request) (o : Oracle) :
  client_handlers w !! req_Method req = None ->
  readRequest req o w =
  Ok (o_write_err o)
    (set_log (log w ++ [EvWriteResponse
                          (mkResponse (req_Seq req) ("birpc: can't find method " ++ req_Method req))
                          (VResponse
                             (mkResponse (req_Seq req) ("birpc: can't find method " ++ req_Method req)))])
       w).
Proof. intros H. unfold readRequest. rewrite H. reflexivity. Qed.

(** A request for a registered method, body read without error. *)
Lemma readRequest_known (w : World) (req : Request) (o : Oracle) (h : handler) :
  client_handlers w !! req_Method req = Some h ->
  o_body_err o = None ->
  readRequest req o w =
  ((if blocking (cl w) then
      handleRequest req h (o_body o) (o_reply o) (o_handler_err o) (o_write_err o)
    else emit (EvGo req (o_body o))) >> ret None)
    (set_log (log w ++ [EvReadRequestBody]) w).
Proof.
  intros H Hb. unfold readRequest. rewrite H. destruct_world w.
  unfold bind at 1. unfold emit at 1. rewrite Hb. reflexivity.
Qed.

(** [handleRequest] for a notification: the handler runs and nothing is
    written. *)
Lemma handleRequest_notification (w : World) (req : Request) (h : handler)
    (argv hreply : value) (herr wres : option error) :
  req_Seq req = 0 ->
  handleRequest req h argv hreply herr wres w =
  Ok tt (set_inbound (inbound w ∖ {[0]}) (set_log (log w ++ [EvInvoke h req argv]) w)).
Proof.
  intros Hz. destruct_world w. destruct req as [s m]. cbn in Hz. subst.
  unfold handleRequest. unfold_m. reflexivity.
Qed.

(** [handleRequest] for a call: the handler runs and its reply is written
    under the sequence number of the request, without any lock. *)
Lemma handleRequest_call (w : World) (req : Request) (h : handler)
    (argv hreply : value) (herr wres : option error) :
  req_Seq req <> 0 ->
  handleRequest req h argv hreply herr wres w =
  Ok tt (set_inbound (({[req_Seq req]} ∪ inbound w) ∖ {[req_Seq req]})
          (set_log (log w ++ [EvInvoke h req argv;
                             EvWriteResponse
                               (mkResponse (req_Seq req)
                                  (match herr with Some e => error_string e | None => "" end))
                               hreply]
                      ++ match wres with
                         | Some e => [EvDebug ("birpc: error writing response: " ++ error_string e)]
                         | None => []
                         end) w)).
Proof.
  intros Hz. destruct_world w. destruct req as [s m]. cbn in Hz.
  apply Z.eqb_neq in Hz.
  unfold handleRequest. unfold_m. rewrite Hz.
  destruct wres; unfold_m; rewrite <- ?app_assoc; cbn [app]; rewrite ?app_nil_r; reflexivity.
Qed.

(** C6.  For a request whose method has no handler the engine writes one
    response; its sequence number is that of the request and its error is
    the literal [birpc: can't find method] followed by the method name.
    This is the only codec operation: the body of the request is not read. *)
Theorem unknown_method_response (w : World) (req : Request) (o : Oracle) :
  client_handlers w !! req_Method req = None ->
  exists w' resp body,
    readRequest req o w = Ok (o_write_err o) w'
    /\ log w' = (log w ++ [EvWriteResponse resp body])%list
    /\ resp_Seq resp = req_Seq req
    /\ resp_Error resp = "birpc: can't find method " ++ req_Method req
    /\ request_body_reads (log w') = request_body_reads (log w).
Proof.
  intros H. rewrite (readRequest_unknown w req o H).
  do 3 eexists. split; [reflexivity|]. cbn.
  split; [reflexivity|]. split; [reflexivity|]. split; [reflexivity|].
  unfold request_body_reads. rewrite List.filter_app. cbn.
  rewrite app_nil_r. reflexivity.
Qed.

(** The request [foo] of the test suite, with sequence number 7, on a
    fresh client. *)
Lemma unknown_method_response_witness :
  exists w',
    readRequest (mkRequest 7 "foo") (mkOracle None VNil VNil None None) new_client_world
      = Ok None w'
    /\ written_responses (log w')
       = [(mkResponse 7 "birpc: can't find method foo",
           VResponse (mkResponse 7 "birpc: can't find method foo"))].
Proof.
  destruct (unknown_method_response new_client_world (mkRequest 7 "foo")
              (mkOracle None VNil VNil None None)) as (w' & resp & body & Hrun & Hlog & _);
    [reflexivity|].
  exists w'. split; [exact Hrun|].
  revert Hrun.
  rewrite (readRequest_unknown new_client_world (mkRequest 7 "foo")
             (mkOracle None VNil VNil None None) eq_refl).
  intros [= <-]. reflexivity.
Defined.

(** C10.  The response written for a request whose method has no handler
    has the response header itself as its body: [WriteResponse] is called
    with the same value twice. *)
Theorem unknown_method_body_is_header (w : World) (req : Request) (o : Oracle) :
  client_handlers w !! req_Method req = None ->
  exists w' resp,
    readRequest req o w = Ok (o_write_err o) w'
    /\ log w' = (log w ++ [EvWriteResponse resp (VResponse resp)])%list
    /\ resp = mkResponse (req_Seq req) ("birpc: can't find method " ++ req_Method req).
Proof.
  intros H. rewrite (readRequest_unknown w req o H).
  do 2 eexists. split; [reflexivity|]. split; reflexivity.
Qed.

(** The same request on a fresh client: header and body coincide. *)
Lemma unknown_method_body_is_header_witness :
  exists w' resp,
    readRequest (mkRequest 7 "foo") (mkOracle None VNil VNil None None) new_client_world
      = Ok None w'
    /\ log w' = (log new_client_world ++ [EvWriteResponse resp (VResponse resp)])%list
    /\ resp = mkResponse 7 "birpc: can't find method foo".
Proof.
  apply (unknown_method_body_is_header new_client_world (mkRequest 7 "foo")
           (mkOracle None VNil VNil None None)).
  reflexivity.
Defined.

(** ** Notifications *)

(** [Notify] on an engine that is neither shut down nor closing: one request
    with sequence number 0 is written under the send lock; the pending
    table, the counter and the heap of calls are untouched. *)
Lemma Notify_sent (w : World) (method : string) (args : value) (wres : option error) :
  sending (cl w) = false ->
  shutdown (cl w) || closing (cl w) = false ->
  Notify method args wres w =
  Ok wres (set_log (log w ++ [EvLock MuSending;
                              EvWriteRequest (mkRequest 0 method) args;
                              EvUnlock MuSending])
             (set_cl (with_request (mkRequest 0 method) (cl w)) w)).
Proof.
  intros Hs Hc. destruct_world w. unfold Notify. unfold_m. rewrite Hc.
  rewrite <- !app_assoc. reflexivity.
Qed.

Lemma Notify_refused (w : World) (method : string) (args : value) (wres : option error) :
  sending (cl w) = false ->
  shutdown (cl w) || closing (cl w) = true ->
  Notify method args wres w =
  Ok (Some ErrShutdown) (set_log (log w ++ [EvLock MuSending; EvUnlock MuSending]) w).
Proof.
  intros Hs Hc. destruct_world w. unfold Notify. unfold_m. rewrite Hc.
  rewrite <- !app_assoc. reflexivity.
Qed.

(** [Notify] never touches the pending table, the counter or the calls. *)
Lemma Notify_leaves_table (w : World) (method : string) (args : value) (wres : option error) :
  sending (cl w) = false ->
  exists r w', Notify method args wres w = Ok r w'
    /\ pending (cl w') = pending (cl w) /\ seq (cl w') = seq (cl w)
    /\ calls w' = calls w /\ chans w' = chans w
    /\ assigned (log w') = assigned (log w)
    /\ forall r' a', In (r', a') (written_requests (log w')) ->
         In (r', a') (written_requests (log w)) \/ (r' = mkRequest 0 method /\ a' = args).
Proof.
  intros Hs. destruct (shutdown (cl w) || closing (cl w)) eqn:Hc.
  - rewrite (Notify_refused w method args wres Hs Hc).
    do 2 eexists. split; [reflexivity|]. destruct_world w. unfold_m.
    unfold assigned. rewrite written_requests_app, omap_app. cbn. rewrite !app_nil_r.
    repeat split; auto.
  - rewrite (Notify_sent w method args wres Hs Hc).
    do 2 eexists. split; [reflexivity|]. destruct_world w. unfold_m.
    unfold assigned. rewrite written_requests_app, omap_app. cbn. rewrite !app_nil_r.
    repeat split; auto.
    intros r' a' Hin. apply in_app_or in Hin. destruct Hin as [Hin|[Hin|[]]]; [auto|].
    right. split; congruence.
Qed.

(** C8, at the input where the code departs from it.  A notification (a
    request with sequence number 0) arrives for a method that has no
    handler: the engine writes a response frame with sequence number 0.
    (When the method has a handler, [handleRequest_notification] shows that
    nothing is written.) *)
Theorem notification_for_unknown_method_is_answered :
  client_handlers new_client_world !! "foo" = None
  /\ exists w',
       exec [OpReadFrame (request_frame 0 "foo" (VInt 1) VNil)] new_client_world = Ok tt w'
       /\ written_responses (log w')
          = [(mkResponse 0 "birpc: can't find method foo",
              VResponse (mkResponse 0 "birpc: can't find method foo"))].
Proof.
  split; [reflexivity|].
  eexists. split; [vm_compute; reflexivity|]. reflexivity.
Qed.

(** ** The send serializer *)

Lemma writes_serialized_app (init : bool) (l1 l2 : list Event) :
  writes_serialized init (l1 ++ l2) =
  writes_serialized init l1 && writes_serialized (held_after MuSending init l1) l2.
Proof.
  revert init. induction l1 as [|e l1 IH]; intros init; [reflexivity|].
  cbn [app writes_serialized]. rewrite IH, andb_assoc. f_equal.
  destruct e; try reflexivity.
Qed.

Lemma held_after_app (m : Mutex) (init : bool) (l1 l2 : list Event) :
  held_after m init (l1 ++ l2) = held_after m (held_after m init l1) l2.
Proof.
  revert init. induction l1 as [|e l1 IH]; intros init; [reflexivity|].
  destruct e; cbn [app held_after]; apply IH.
Qed.

Lemma writes_serialized_done_events (init : bool) (p : nat) (b : bool) :
  writes_serialized init (done_events p b) = true.
Proof. destruct b; reflexivity. Qed.

Lemma held_after_done_events (m : Mutex) (init : bool) (p : nat) (b : bool) :
  held_after m init (done_events p b) = init.
Proof. destruct b; reflexivity. Qed.

(** The events of [send] are serialized, and [send] releases the lock. *)
Lemma send_serialized (w : World) (p : nat) (k : Call) (wres : option error) :
  mutex (cl w) = false -> sending (cl w) = false -> calls w !! p = Some k ->
  exists w' l, send p wres w = Ok tt w'
    /\ log w' = (log w ++ l)%list
    /\ writes_serialized false l = true
    /\ sending (cl w') = false.
Proof.
  intros Hm Hs Hp.
  destruct (shutdown (cl w) || closing (cl w)) eqn:Hc;
    [rewrite (send_refused w p k Hm Hs Hp wres Hc)
    |destruct (decide (call_seq k = 0)) as [Hk|Hk];
     [destruct wres as [err|];
      [rewrite (send_write_failed w p k Hm Hs Hp err Hc Hk)
      |rewrite (send_written w p k Hm Hs Hp Hc Hk)]
     |rewrite (send_canceled w p k Hm Hs Hp wres Hc Hk)]];
    destruct_world w; unfold_m;
    do 2 eexists; (split; [reflexivity|]); cbn [log cl sending];
    (split; [reflexivity|]);
    rewrite ?writes_serialized_app, ?writes_serialized_done_events; auto.
Qed.

(** C9, as amended.  The send serializer is a mutex: while it is held,
    [send] and [Notify] do not proceed.  Every request is written while the
    writer holds it: [send] (the path of [Go], of [Call] and of the cancel
    request) and [Notify] take it before [WriteRequest] and release it
    afterwards.  Responses are written without it: neither [handleRequest]
    nor the unknown-method branch of [readRequest] ever locks it. *)
Theorem send_serializer_discipline :
  (forall (w : World) (p : nat) (k : Call) (wres : option error),
      mutex (cl w) = false -> sending (cl w) = false -> calls w !! p = Some k ->
      exists w' l, send p wres w = Ok tt w'
        /\ log w' = (log w ++ l)%list
        /\ writes_serialized false l = true
        /\ sending (cl w') = false)
  /\ (forall (w : World) (method : string) (args : value) (wres : option error),
      sending (cl w) = false ->
      exists r w' l, Notify method args wres w = Ok r w'
        /\ log w' = (log w ++ l)%list
        /\ writes_serialized false l = true
        /\ sending (cl w') = false)
  /\ (forall (w : World) (p : nat) (method : string) (args : value) (wres : option error),
      sending (cl w) = true ->
      send p wres w = Block w /\ Notify method args wres w = Block w)
  /\ (forall (w : World) (req : Request) (h : handler) (argv hreply : value)
        (herr wres : option error),
      exists w' l, handleRequest req h argv hreply herr wres w = Ok tt w'
        /\ log w' = (log w ++ l)%list
        /\ ~ In (EvLock MuSending) l
        /\ (req_Seq req <> 0 ->
            In (EvWriteResponse
                  (mkResponse (req_Seq req)
                     (match herr with Some e => error_string e | None => "" end))
                  hreply) l))
  /\ (forall (w : World) (req : Request) (o : Oracle),
      client_handlers w !! req_Method req = None ->
      exists w' l, readRequest req o w = Ok (o_write_err o) w'
        /\ log w' = (log w ++ l)%list
        /\ ~ In (EvLock MuSending) l
        /\ writes_serialized false l = false).
Proof.
  split; [exact send_serialized|].
  split.
  { intros w method args wres Hs.
    destruct (shutdown (cl w) || closing (cl w)) eqn:Hc;
      [rewrite (Notify_refused w method args wres Hs Hc)
      |rewrite (Notify_sent w method args wres Hs Hc)];
      destruct_world w; unfold_m; do 3 eexists;
      (split; [reflexivity|]); cbn [log cl sending]; auto. }
  split.
  { intros w p method args wres Hs. destruct_world w.
    unfold send, Notify. unfold_m. auto. }
  split.
  { intros w req h argv hreply herr wres.
    destruct (decide (req_Seq req = 0)) as [Hz|Hz];
      [rewrite (handleRequest_notification w req h argv hreply herr wres Hz)
      |rewrite (handleRequest_call w req h argv hreply herr wres Hz)];
      destruct_world w; unfold_m; do 2 eexists;
      (split; [reflexivity|]); cbn [log]; (split; [reflexivity|]).
    - split; [|intros Hne; exfalso; apply Hne; destruct req; exact Hz].
      intros [Hin|[]]; discriminate.
    - split; [|intros _; right; left; destruct req; reflexivity].
      destruct wres; cbn; intuition discriminate. }
  intros w req o Hu. rewrite (readRequest_unknown w req o Hu).
  destruct_world w; unfold_m; do 2 eexists.
  split; [reflexivity|]. cbn [log]. split; [reflexivity|].
  split; [|reflexivity].
  cbn; intuition discriminate.
Qed.

(** On a fresh client the request of a call is written between the lock
    and the unlock of the serializer, and the response to a request is
    written with the serializer free. *)
Lemma send_serializer_discipline_witness :
  (exists w' l, send O None ready_world = Ok tt w'
     /\ log w' = (log ready_world ++ l)%list
     /\ writes_serialized false l = true
     /\ sending (cl w') = false)
  /\ (exists w' l,
        readRequest (mkRequest 7 "foo") (mkOracle None VNil VNil None None) new_client_world
          = Ok None w'
        /\ log w' = (log new_client_world ++ l)%list
        /\ ~ In (EvLock MuSending) l
        /\ writes_serialized false l = false).
Proof.
  destruct send_serializer_discipline as (Hsend & _ & _ & _ & Hunknown).
  split.
  - apply (Hsend ready_world O sample_call None); reflexivity.
  - apply (Hunknown new_client_world (mkRequest 7 "foo")
             (mkOracle None VNil VNil None None)).
    reflexivity.
Defined.

(** C9 as stated fails for responses.  A client in blocking mode serves a
    request for [add]: the response is written to the codec although the
    send serializer was never taken. *)
Lemma response_written_without_serializer :
  match exec [OpReadFrame (request_frame 1 "add" (VInt 1) (VInt 3))] serving_world with
  | Ok _ w' =>
      log w' = [EvReadHeader; EvReadRequestBody;
                EvInvoke add_handler (mkRequest 1 "add") (VInt 1);
                EvWriteResponse (mkResponse 1 "") (VInt 3)]
      /\ writes_serialized false (log w') = false
  | _ => False
  end.
Proof. vm_compute. split; reflexivity. Qed.

(** ** The end of the read loop *)

(** The loop over the pending table: every listed call gets the error and
    one [done]; nothing else is logged, and no call is allocated or freed. *)
Lemma terminate_calls_spec (e : error) (l : list (Z * nat)) (w : World) :
  (forall s p, In (s, p) l -> is_Some (calls w !! p)) ->
  exists cs chs evs,
    terminate_calls e l w = Ok tt (set_log (log w ++ evs) (set_chans chs (set_calls cs w)))
    /\ dom cs = dom (calls w)
    /\ (forall p, call_Error <$> calls w !! p = Some (Some e) ->
                  call_Error <$> cs !! p = Some (Some e))
    /\ (forall s p, In (s, p) l ->
          call_Error <$> cs !! p = Some (Some e) /\ exists b, In (EvDone p b) evs)
    /\ forallb is_done_event evs = true
    /\ (forall p, done_count p evs = length (List.filter (fun x => bool_decide (x.2 = p)) l)).
Proof.
  revert w. induction l as [|[s p] l IH]; intros w Hall.
  - exists (calls w), (chans w), []. destruct_world w. cbn. rewrite app_nil_r.
    repeat split; auto; try (intros ? ? []); try contradiction.
  - destruct (Hall s p (or_introl eq_refl)) as [k Hk].
    set (w1 := deliver p (call_Done k) (set_calls (<[p := with_call_Error (Some e) k]> (calls w)) w)).
    assert (Hstep : terminate_calls e ((s, p) :: l) w = terminate_calls e l w1).
    { unfold terminate_calls. cbn [for_each]. subst w1. destruct_world w. unfold_m.
      rewrite Hk, lookup_insert_eq. reflexivity. }
    assert (Hdom1 : dom (calls w1) = dom (calls w)).
    { subst w1. destruct_world w. cbn. apply dom_insert_lookup_L. eauto. }
    destruct (IH w1) as (cs & chs & evs & Hrun & Hdom & Hmono & Hall' & Hev & Hcnt).
    { intros s' p' Hin. apply elem_of_dom. rewrite Hdom1. apply elem_of_dom.
      apply (Hall s' p'). right. exact Hin. }
    exists cs, chs, (done_events p (chan_ready (chans w !! call_Done k)) ++ evs)%list.
    rewrite Hstep, Hrun. split.
    { subst w1. destruct_world w. unfold_m. rewrite <- app_assoc. reflexivity. }
    split; [congruence|].
    assert (Hp1 : call_Error <$> calls w1 !! p = Some (Some e)).
    { subst w1. destruct_world w. cbn. rewrite lookup_insert_eq. reflexivity. }
    split.
    { intros q Hq. apply Hmono. subst w1. destruct_world w. cbn.
      destruct (decide (p = q)) as [->|Hne].
      - rewrite lookup_insert_eq. reflexivity.
      - rewrite lookup_insert_ne by exact Hne. exact Hq. }
    split.
    { intros s' p' [Heq|Hin].
      - injection Heq as <- <-. split; [apply Hmono, Hp1|].
        destruct (chan_ready _); eexists; left; reflexivity.
      - destruct (Hall' s' p' Hin) as [He [b Hb]]. split; [exact He|].
        exists b. apply in_or_app. right. exact Hb. }
    split.
    { rewrite forallb_app, Hev. destruct (chan_ready _); reflexivity. }
    intros q. unfold done_count. rewrite List.filter_app, length_app.
    fold (done_count q evs). rewrite Hcnt. cbn [List.filter snd].
    destruct (chan_ready _); cbn [done_events List.filter is_done];
      destruct (bool_decide (p = q)); reflexivity.
Qed.







(** ** Steps of an execution *)

Section Preserves.

Context (I : World -> Prop).

Lemma preserves_ret {A} (a : A) : preserves I (ret a).
Proof. intros w Hw. exact Hw. Qed.

Lemma preserves_panic {A} (msg : string) : preserves I (@panic A msg).
Proof. intros w Hw. exact Hw. Qed.

Lemma preserves_get_cl : preserves I get_cl.
Proof. intros w Hw. exact Hw. Qed.

Lemma preserves_bind {A B} (m : M A) (k : A -> M B) :
  preserves I m -> (forall a, preserves I (k a)) -> preserves I (bind m k).
Proof.
  intros Hm Hk w Hw. unfold bind. specialize (Hm w Hw).
  destruct (m w) as [a w'|msg w'|w']; cbn [world_of] in *; auto.
  apply Hk. exact Hm.
Qed.

Lemma preserves_defer {A} (d : M unit) (body : M A) :
  preserves I d -> preserves I body -> preserves I (defer d body).
Proof.
  intros Hd Hb w Hw. unfold defer. specialize (Hb w Hw).
  destruct (body w) as [a w'|msg w'|w']; cbn [world_of] in *; auto.
  - apply (preserves_bind d (fun _ => ret a)); auto.
    intros _. apply preserves_ret.
  - apply (preserves_bind d (fun _ => panic msg)); auto.
    intros _. apply preserves_panic.
Qed.

Lemma preserves_for_each {A} (body : A -> M unit) (l : list A) :
  (forall a, preserves I (body a)) -> preserves I (for_each body l).
Proof.
  intros Hb. induction l as [|a l IH]; cbn [for_each].
  - apply preserves_ret.
  - apply preserves_bind; auto.
Qed.

Lemma preserves_if {A} (b : bool) (m1 m2 : M A) :
  preserves I m1 -> preserves I m2 -> preserves I (if b then m1 else m2).
Proof. destruct b; auto. Qed.

(** The two functions of the engine that inspect the world before they
    choose what to run. *)
Lemma preserves_Call_wait (call : nat) (ctx : ctx_state) (prefer_ctx : bool)
    (wres : option error) :
  (forall p, preserves I (get_call p)) ->
  (forall chs w, I w -> I (set_chans chs w)) ->
  (forall e, preserves I (Call_cancel call e wres)) ->
  preserves I (Call_wait call ctx prefer_ctx wres).
Proof.
  intros Hget Hchs Hcancel. unfold Call_wait.
  apply preserves_bind; [apply Hget|]. intros k w Hw.
  assert (Hrecv : forall chs,
            I (world_of ((let* k' := get_call call in ret (call_Error k'))
                           (set_chans chs w)))).
  { intros chs.
    apply (preserves_bind (get_call call) (fun k' => ret (call_Error k'))); auto.
    intros k'. apply preserves_ret. }
  destruct (chans w !! call_Done k) as [[n [|q rest]]|]; destruct ctx as [|e];
    try destruct prefer_ctx; try exact Hw; try apply Hrecv;
    apply Hcancel; exact Hw.
Qed.

(** [addHandler] prints at most one line and adds at most one entry to a
    registry. *)
Lemma preserves_addHandler (reg : nat) (mname : string) (g : iface) :
  (forall line, preserves I (emit (EvLog line))) ->
  (forall regs w, I w -> I (set_registries regs w)) ->
  preserves I (addHandler reg mname g).
Proof.
  intros Hline Hregs w Hw. pose proof (addHandler_cases reg mname g w) as H.
  destruct (addHandler reg mname g w) as [[] w'|msg w'|w']; cbn [world_of].
  - destruct H as (hs & h & _ & _ & ->). apply Hregs, Hw.
  - destruct H as [->| ->]; [exact Hw | exact (Hline msg w Hw)].
  - destruct H.
Qed.

Lemma preserves_readRequest (req : Request) (o : Oracle) :
  preserves I (emit EvReadRequestBody) ->
  preserves I (emit (EvGo req (o_body o))) ->
  (forall r, preserves I (emit (EvWriteResponse r (VResponse r)))) ->
  (forall h, preserves I (handleRequest req h (o_body o) (o_reply o)
                            (o_handler_err o) (o_write_err o))) ->
  preserves I (readRequest req o).
Proof.
  intros Hbody Hgo Hwrite Hhandle w Hw. unfold readRequest.
  destruct (client_handlers w !! req_Method req) as [h|].
  - revert w Hw.
    apply (preserves_bind (emit EvReadRequestBody)); [exact Hbody|]. intros _.
    destruct (o_body_err o); [apply preserves_ret|].
    apply (preserves_bind get_cl); [apply preserves_get_cl|]. intros c.
    apply (preserves_bind (if blocking c then _ else _)).
    + apply preserves_if; auto.
    + intros _. apply preserves_ret.
  - revert w Hw.
    apply (preserves_bind (emit _)); [apply Hwrite|]. intros _. apply preserves_ret.
Qed.

End Preserves.

(** Goals of the form [preserves I m] are taken apart along the structure of
    [m]; the leaves are left to the hints of [db]. *)
Ltac preserves_steps db :=
  unfold set_call_Error, set_call_seq, set_call_Reply;
  repeat match goal with
    | |- preserves _ (bind _ _) => apply preserves_bind; [|intros ?]
    | |- preserves _ (defer _ _) => apply preserves_defer
    | |- preserves _ (for_each _ _) => apply preserves_for_each; intros ?
    | |- preserves _ (if _ then _ else _) => apply preserves_if
    | |- preserves _ (match ?x with _ => _ end) => destruct x
    end;
  auto with db.

(** *** Steps on the heap *)

Ltac heap_only_tac :=
  intros w; destruct_world w;
  repeat match goal with
    | |- context [if ?b then _ else _] => destruct b
    | |- context [match ?x with _ => _ end] => destruct x
    end;
  cbn; repeat split; auto; rewrite ?dom_insert_L; set_solver.

Lemma heap_only_get_call (p : nat) : heap_only (get_call p).
Proof. unfold get_call. heap_only_tac. Qed.

Lemma heap_only_put_call (p : nat) (k : Call) : heap_only (put_call p k).
Proof. unfold put_call. heap_only_tac. Qed.

Lemma heap_only_new_call (k : Call) : heap_only (new_call k).
Proof. unfold new_call. heap_only_tac. Qed.

Lemma heap_only_make_chan (n : nat) : heap_only (make_chan n).
Proof. unfold make_chan. heap_only_tac. Qed.

Lemma heap_only_chan_capacity (a : nat) : heap_only (chan_capacity a).
Proof. unfold chan_capacity. heap_only_tac. Qed.

Lemma heap_only_recv (ch : nat) : heap_only (recv ch).
Proof. unfold recv. heap_only_tac. Qed.

Lemma heap_only_pending_Start (s : Z) : heap_only (pending_Start s).
Proof. unfold pending_Start. heap_only_tac. Qed.

Lemma heap_only_pending_Cancel (s : Z) : heap_only (pending_Cancel s).
Proof. unfold pending_Cancel. heap_only_tac. Qed.

Create HintDb heap.

#[local] Hint Resolve heap_only_get_call heap_only_put_call heap_only_new_call
  heap_only_make_chan heap_only_chan_capacity heap_only_recv
  heap_only_pending_Start heap_only_pending_Cancel : heap.

Lemma world_of_then_ret {A B} (m : M A) (b : B) (w : World) :
  world_of ((m >> ret b) w) = world_of (m w).
Proof. unfold bind, ret. destruct (m w); reflexivity. Qed.

(** ** Sequence numbers over an execution *)

Lemma assigned_app (l1 l2 : list Event) :
  assigned (l1 ++ l2) = (assigned l1 ++ assigned l2)%list.
Proof. apply omap_app. Qed.

Lemma assigned_done_events (p : nat) (b : bool) : assigned (done_events p b) = [].
Proof. destruct b; reflexivity. Qed.

(** A step that leaves the counter alone and logs no registration. *)
Lemma counter_same (w w' : World) (l : list Event) :
  seq (cl w') = seq (cl w) ->
  log w' = (log w ++ l)%list ->
  assigned l = [] ->
  counter_inv w -> counter_inv w'.
Proof.
  intros Hs Hl Hnil (n & Hn & Hc). exists n.
  rewrite Hs, Hl, assigned_app, Hnil, app_nil_r. auto.
Qed.

Lemma counter_heap_only {A} (m : M A) : heap_only m -> preserves counter_inv m.
Proof.
  intros H w. destruct (H w) as (Hcl & Hlog & _).
  apply (counter_same w _ []); [rewrite Hcl; reflexivity | |reflexivity].
  rewrite Hlog, app_nil_r. reflexivity.
Qed.

Lemma counter_emit (e : Event) :
  match e with EvRegister _ _ => False | _ => True end ->
  preserves counter_inv (emit e).
Proof.
  intros He w. apply (counter_same w _ [e]); [reflexivity | reflexivity |].
  destruct e; try reflexivity. destruct He.
Qed.

Lemma counter_modify_cl (f : Client -> Client) :
  (forall c, seq (f c) = seq c) -> preserves counter_inv (modify_cl f).
Proof.
  intros Hf w. apply (counter_same w _ []); [apply Hf | |reflexivity].
  cbn. rewrite app_nil_r. reflexivity.
Qed.

Lemma counter_Lock (m : Mutex) : preserves counter_inv (Lock m).
Proof.
  intros w Hw. unfold Lock. destruct (held m (cl w)); [exact Hw|].
  revert Hw. apply (counter_same w _ [EvLock m]); [destruct m|..]; reflexivity.
Qed.

Lemma counter_Unlock (m : Mutex) : preserves counter_inv (Unlock m).
Proof.
  intros w Hw. unfold Unlock. destruct (held m (cl w)); [|exact Hw].
  revert Hw. apply (counter_same w _ [EvUnlock m]); [destruct m|..]; reflexivity.
Qed.

Lemma counter_done (p : nat) : preserves counter_inv (done p).
Proof.
  apply preserves_bind; [apply counter_heap_only, heap_only_get_call|]. intros c w.
  apply (counter_same w _ (done_events p (chan_ready (chans w !! call_Done c))));
    [reflexivity | reflexivity | apply assigned_done_events].
Qed.

Lemma seqs_upto_S (n : nat) :
  seqs_upto (S n) = (seqs_upto n ++ [wrap64 (Z.of_nat (S n))])%list.
Proof. unfold seqs_upto. rewrite seq_S, map_app. reflexivity. Qed.

Lemma seqs_upto_length (n : nat) : length (seqs_upto n) = n.
Proof. unfold seqs_upto. rewrite length_map, length_seq. reflexivity. Qed.

Lemma seqs_upto_small (n : nat) :
  Z.of_nat n < 2 ^ 64 -> seqs_upto n = List.map Z.of_nat (List.seq 1 n).
Proof.
  intros Hn. unfold seqs_upto. apply map_ext_in. intros i Hi.
  apply in_seq in Hi. unfold wrap64, uint64_mod. apply Z.mod_small. lia.
Qed.

Lemma wrap64_succ (z : Z) : wrap64 (wrap64 z + 1) = wrap64 (z + 1).
Proof. unfold wrap64. rewrite Zplus_mod_idemp_l. reflexivity. Qed.

(** The critical section of [send] that hands out a sequence number moves
    the counter and the log together. *)
Lemma counter_send_register (call : nat) : preserves counter_inv (send_register call).
Proof.
  intros w Hw. destruct_world w. unfold send_register. unfold_m.
  destruct mutex0; [exact Hw|].
  destruct (shutdown0 || closing0).
  - destruct (calls0 !! call) as [k|] eqn:Hk.
    + rewrite lookup_insert_eq. revert Hw.
      eapply counter_same; [reflexivity | cbn [log]; rewrite <- !app_assoc; reflexivity |].
      rewrite !assigned_app, assigned_done_events. reflexivity.
    + revert Hw. eapply counter_same; reflexivity.
  - destruct (calls0 !! call) as [k|] eqn:Hk.
    2:{ revert Hw. eapply counter_same; reflexivity. }
    destruct k as [? ? ? ? ? ks]. destruct (ks =? 0); cbn [negb].
    + rewrite Hk. destruct Hw as (n & Hn & Hc). cbn [log cl seq] in Hn, Hc.
      exists (S n). cbn [log cl seq]. split.
      * rewrite !assigned_app, Hn, seqs_upto_S, Hc. cbn. rewrite !app_nil_r. reflexivity.
      * rewrite Hc, wrap64_succ. f_equal. lia.
    + rewrite Hk, lookup_insert_eq. revert Hw.
      eapply counter_same; [reflexivity | cbn [log]; rewrite <- !app_assoc; reflexivity |].
      rewrite !assigned_app, assigned_done_events. reflexivity.
Qed.

Create HintDb counter.

#[local] Hint Resolve preserves_ret preserves_panic preserves_get_cl
  counter_Lock counter_Unlock counter_done counter_send_register : counter.

#[local] Hint Extern 1 (preserves counter_inv (emit _)) =>
  apply counter_emit; exact I : counter.

#[local] Hint Extern 1 (preserves counter_inv (modify_cl _)) =>
  apply counter_modify_cl; intros []; reflexivity : counter.

#[local] Hint Extern 2 (preserves counter_inv _) =>
  apply counter_heap_only; solve [auto with heap] : counter.

#[local] Hint Extern 1 (preserves counter_inv (addHandler _ _ _)) =>
  apply preserves_addHandler;
    [intros; apply counter_emit; exact I | intros ? ? H; exact H] : counter.

Lemma counter_Go (method : string) (args reply : value) (done_ch : option nat)
    (wres : option error) :
  preserves counter_inv (Go method args reply done_ch wres).
Proof. unfold Go, send, send_write, send_failed. preserves_steps counter. Qed.

Lemma counter_Call_wait (call : nat) (ctx : ctx_state) (prefer_ctx : bool)
    (wres : option error) :
  preserves counter_inv (Call_wait call ctx prefer_ctx wres).
Proof.
  apply preserves_Call_wait.
  - intros p. auto with counter.
  - intros chs w. apply (counter_same w _ []); [reflexivity | |reflexivity].
    cbn. rewrite app_nil_r. reflexivity.
  - intros e. unfold Call_cancel. preserves_steps counter. apply counter_Go.
Qed.

Lemma counter_handleRequest (req : Request) (h : handler) (argv hreply : value)
    (herr wres : option error) :
  preserves counter_inv (handleRequest req h argv hreply herr wres).
Proof. unfold handleRequest. preserves_steps counter. Qed.

Lemma counter_exec_op (o : Op) : preserves counter_inv (exec_op o).
Proof.
  destruct o; cbn [exec_op];
    unfold Handle, SetBlocking, Call_start, Notify, Close, read_frame, readResponse,
      readLoop_exit, readLoop_finish, close_disconnect, terminate_calls;
    preserves_steps counter;
    auto using counter_Go, counter_Call_wait, counter_handleRequest.
  apply preserves_readRequest; intros; auto using counter_handleRequest with counter.
Qed.

(** Every execution keeps the counter and the log in step. *)
Lemma counter_exec (ops : list Op) : preserves counter_inv (exec ops).
Proof. apply preserves_for_each, counter_exec_op. Qed.

(** A client just made by [NewClientWithCodec] has the counter at 1. *)
Lemma new_client_counter (cdc : nat) (w : World) :
  seq (cl (world_of (NewClientWithCodec cdc w))) = 1
  /\ log (world_of (NewClientWithCodec cdc w)) = log w.
Proof. rewrite NewClientWithCodec_eq. destruct_world w. split; reflexivity. Qed.



(** ** Completions over an execution *)

Lemma done_count_app (p : nat) (l1 l2 : list Event) :
  done_count p (l1 ++ l2) = (done_count p l1 + done_count p l2)%nat.
Proof. unfold done_count. rewrite List.filter_app, length_app. reflexivity. Qed.

Lemma done_count_done_events (q p : nat) (b : bool) :
  done_count q (done_events p b) = if bool_decide (p = q) then 1%nat else 0%nat.
Proof. destruct b; cbn; destruct (bool_decide (p = q)); reflexivity. Qed.

Lemma delivery_le_done (p : nat) (l : list Event) :
  (delivery_count p l <= done_count p l)%nat.
Proof.
  unfold delivery_count, done_count. induction l as [|e l IH]; [reflexivity|].
  destruct e; cbn; try exact IH.
  destruct delivered, (bool_decide (call = p)); cbn; lia.
Qed.

(** One operation seen from the invariant: the calls in [D] are completed
    once each, at most the entry [new] enters the pending table, and the
    read loop does not come back to life. *)
Lemma calls_inv_update (w w' : World) (D : gset nat) (new : option (Z * nat)) :
  calls_inv w ->
  dom (calls w) ⊆ dom (calls w') ->
  mutex (cl w') = false ->
  sending (cl w') = false ->
  (shutdown (cl w') = false -> shutdown (cl w) = false) ->
  (forall q, done_count q (log w')
             = (done_count q (log w) + if bool_decide (q ∈ D) then 1 else 0)%nat) ->
  (forall q, q ∈ D -> is_Some (calls w' !! q) /\ done_count q (log w) = O) ->
  (forall s q, pending (cl w') !! s = Some q ->
     (pending (cl w) !! s = Some q
      \/ (new = Some (s, q) /\ is_Some (calls w' !! q) /\ done_count q (log w) = O
          /\ forall s', pending (cl w) !! s' <> Some q))
     /\ (shutdown (cl w') = false -> q ∉ D)) ->
  calls_inv w'.
Proof.
  intros [J1 J2 J3 J5 _ _] Hdom Hm Hs Hsh Hcnt HD Hpend.
  constructor; auto.
  - intros p Hp. rewrite Hcnt.
    assert (Hp0 : calls w !! p = None).
    { apply not_elem_of_dom. intros Hin. apply Hdom in Hin.
      apply elem_of_dom in Hin. rewrite Hp in Hin. destruct Hin; discriminate. }
    rewrite (J1 p Hp0). rewrite bool_decide_eq_false_2; [reflexivity|].
    intros Hin. destruct (HD p Hin) as [[? Hq] _]. congruence.
  - intros p. rewrite Hcnt. destruct (bool_decide (p ∈ D)) eqn:Hin.
    + apply bool_decide_eq_true in Hin. destruct (HD p Hin) as [_ ->]. lia.
    + specialize (J2 p). lia.
  - intros s p Hsp. destruct (Hpend s p Hsp) as [[Hold|(_ & Halloc & Hzero & _)] HnD].
    + destruct (J3 s p Hold) as [Halloc Hzero]. split.
      * apply elem_of_dom, Hdom, elem_of_dom, Halloc.
      * intros Hshut. rewrite Hcnt, (Hzero (Hsh Hshut)).
        rewrite bool_decide_eq_false_2; auto.
    + split; [exact Halloc|]. intros Hshut. rewrite Hcnt, Hzero.
      rewrite bool_decide_eq_false_2; auto.
  - intros s1 s2 p H1 H2.
    destruct (Hpend s1 p H1) as [[Ho1|(Hn1 & _ & _ & Hf1)] _];
      destruct (Hpend s2 p H2) as [[Ho2|(Hn2 & _ & _ & Hf2)] _].
    + exact (J5 s1 s2 p Ho1 Ho2).
    + destruct (Hf2 s1 Ho1).
    + destruct (Hf1 s2 Ho2).
    + congruence.
Qed.

(** An operation that completes no call and leaves the table, the shutdown
    flag and the mutexes as they are. *)
Lemma calls_inv_quiet (w w' : World) :
  quiet_rel w w' -> calls_inv w -> calls_inv w'.
Proof.
  intros (Hdom & Hp & Hsh & Hm & Hs & Hcnt) Hinv.
  apply (calls_inv_update w w' ∅ None Hinv).
  - exact Hdom.
  - rewrite Hm. apply Hinv.
  - rewrite Hs. apply Hinv.
  - congruence.
  - intros q. rewrite Hcnt. rewrite bool_decide_eq_false_2 by set_solver. lia.
  - set_solver.
  - intros s q Hq. rewrite Hp in Hq. split; [left; exact Hq | set_solver].
Qed.

Lemma quiet_rel_refl (w : World) : quiet_rel w w.
Proof. repeat split; auto. Qed.

Lemma quiet_rel_trans (w1 w2 w3 : World) :
  quiet_rel w1 w2 -> quiet_rel w2 w3 -> quiet_rel w1 w3.
Proof.
  intros (Hd & Hp & Hsh & Hm & Hs & Hc) (Hd' & Hp' & Hsh' & Hm' & Hs' & Hc').
  split; [etransitivity; eassumption|].
  repeat split; congruence.
Qed.

Lemma quiet_heap_only {A} (w0 : World) (m : M A) :
  heap_only m -> preserves (quiet_rel w0) m.
Proof.
  intros H w Hw. destruct (H w) as (Hcl & Hlog & Hdom).
  eapply quiet_rel_trans; [exact Hw|].
  unfold quiet_rel. rewrite Hcl, Hlog. repeat split; auto.
Qed.

Lemma quiet_emit (w0 : World) (e : Event) :
  match e with EvDone _ _ => False | _ => True end ->
  preserves (quiet_rel w0) (emit e).
Proof.
  intros He w Hw. eapply quiet_rel_trans; [exact Hw|].
  unfold quiet_rel, emit. world_simpl. repeat split; auto.
  intros q. rewrite done_count_app. destruct e; cbn; lia.
Qed.

Lemma quiet_modify_cl (w0 : World) (f : Client -> Client) :
  (forall c, pending (f c) = pending c /\ shutdown (f c) = shutdown c
             /\ mutex (f c) = mutex c /\ sending (f c) = sending c) ->
  preserves (quiet_rel w0) (modify_cl f).
Proof.
  intros Hf w Hw. eapply quiet_rel_trans; [exact Hw|].
  destruct (Hf (cl w)) as (? & ? & ? & ?).
  unfold quiet_rel, modify_cl. world_simpl. repeat split; auto.
Qed.

Create HintDb quiet.

#[local] Hint Resolve preserves_ret preserves_panic preserves_get_cl : quiet.

#[local] Hint Extern 1 (preserves (quiet_rel _) (emit _)) =>
  apply quiet_emit; exact I : quiet.

#[local] Hint Extern 1 (preserves (quiet_rel _) (addHandler _ _ _)) =>
  apply preserves_addHandler;
    [intros; apply quiet_emit; exact I | intros ? ? H; exact H] : quiet.

#[local] Hint Extern 1 (preserves (quiet_rel _) (modify_cl _)) =>
  apply quiet_modify_cl; intros []; repeat split; reflexivity : quiet.

#[local] Hint Extern 2 (preserves (quiet_rel _) _) =>
  apply quiet_heap_only; solve [auto with heap] : quiet.

Lemma quiet_handleRequest (w0 : World) (req : Request) (h : handler)
    (argv hreply : value) (herr wres : option error) :
  preserves (quiet_rel w0) (handleRequest req h argv hreply herr wres).
Proof. unfold handleRequest. preserves_steps quiet. Qed.

Lemma quiet_readRequest (w0 : World) (req : Request) (o : Oracle) :
  preserves (quiet_rel w0) (readRequest req o).
Proof.
  apply preserves_readRequest; intros; auto using quiet_handleRequest with quiet.
Qed.

(** An operation made of quiet steps keeps the invariant. *)
Lemma inv_preserved_quiet {A} (m : M A) (w : World) :
  (forall w0, preserves (quiet_rel w0) m) ->
  calls_inv w -> calls_inv (world_of (m w)).
Proof.
  intros Hq Hinv. apply (calls_inv_quiet w); [|exact Hinv].
  apply Hq. apply quiet_rel_refl.
Qed.

Lemma bool_decide_singleton (p q : nat) :
  bool_decide (q ∈ ({[p]} : gset nat)) = bool_decide (p = q).
Proof. apply bool_decide_ext. set_solver. Qed.

(** [send] on a call that was not sent, was not completed and is not in the
    pending table. *)
Lemma inv_send (w : World) (p : nat) (k : Call) (wres : option error) :
  calls_inv w ->
  calls w !! p = Some k ->
  call_seq k = 0 ->
  done_count p (log w) = O ->
  (forall s, pending (cl w) !! s <> Some p) ->
  calls_inv (world_of (send p wres w)).
Proof.
  intros Hinv Hp Hk Hzero Hnot.
  pose proof (inv_mutex w Hinv) as Hm. pose proof (inv_sending w Hinv) as Hs.
  destruct (shutdown (cl w) || closing (cl w)) eqn:Hc.
  - rewrite (send_refused w p k Hm Hs Hp wres Hc). cbn [world_of].
    apply (calls_inv_update w _ {[p]} None Hinv); world_simpl.
    + rewrite dom_insert_L. set_solver.
    + exact Hm.
    + exact Hs.
    + auto.
    + intros q. rewrite !done_count_app, done_count_done_events, bool_decide_singleton.
      cbn. lia.
    + intros q Hq. apply elem_of_singleton in Hq. subst q.
      rewrite lookup_insert_eq. eauto.
    + intros s q Hq. split; [left; exact Hq|]. intros _ Hin.
      apply elem_of_singleton in Hin. subst q. exact (Hnot s Hq).
  - destruct wres as [err|].
    + rewrite (send_write_failed w p k Hm Hs Hp err Hc Hk). cbn [world_of].
      apply (calls_inv_update w _ {[p]} None Hinv); world_simpl.
      * rewrite dom_insert_L. set_solver.
      * exact Hm.
      * exact Hs.
      * auto.
      * intros q. rewrite !done_count_app, done_count_done_events, bool_decide_singleton.
        cbn. lia.
      * intros q Hq. apply elem_of_singleton in Hq. subst q.
        rewrite lookup_insert_eq. eauto.
      * intros s q Hq. apply lookup_delete_Some in Hq. destruct Hq as [_ Hq].
        split; [left; exact Hq|]. intros _ Hin.
        apply elem_of_singleton in Hin. subst q. exact (Hnot s Hq).
    + rewrite (send_written w p k Hm Hs Hp Hc Hk). cbn [world_of].
      apply (calls_inv_update w _ ∅ (Some (seq (cl w), p)) Hinv); world_simpl.
      * rewrite dom_insert_L. set_solver.
      * exact Hm.
      * exact Hs.
      * auto.
      * intros q. rewrite !done_count_app. rewrite bool_decide_eq_false_2 by set_solver.
        cbn. lia.
      * set_solver.
      * intros s q Hq. split; [|set_solver].
        apply lookup_insert_Some in Hq. destruct Hq as [[<- <-]|[_ Hq]]; [right|left; exact Hq].
        rewrite lookup_insert_eq. eauto.
Qed.

(** [Go] on a channel without buffer panics once the call is allocated. *)
Lemma Go_unbuffered (m : string) (a r : value) (d : nat) (wres : option error) (w : World) :
  match chans w !! d with Some ch => chan_cap ch | None => O end = O ->
  Go m a r (Some d) wres w =
  Panic "birpc: done channel is unbuffered"
    (set_calls (<[fresh (dom (calls w)) := mkCall m a r None O 0]> (calls w)) w).
Proof.
  intros Hcap. destruct_world w. unfold Go. unfold_m.
  destruct (chans0 !! d) as [[n buf]|]; cbn in Hcap; subst; reflexivity.
Qed.

(** Allocating a call leaves the invariant alone, and the new call is
    neither completed nor pending. *)
Lemma inv_alloc (w : World) (k : Call) (chs : gmap nat Chan) :
  calls_inv w ->
  let p := fresh (dom (calls w)) in
  let w1 := set_chans chs (set_calls (<[p := k]> (calls w)) w) in
  calls_inv w1
  /\ calls w1 !! p = Some k
  /\ done_count p (log w1) = O
  /\ (forall s, pending (cl w1) !! s <> Some p).
Proof.
  intros Hinv p w1.
  assert (Hfresh : calls w !! p = None) by (apply not_elem_of_dom, is_fresh).
  split; [|split; [|split]].
  - apply (calls_inv_quiet w); [|exact Hinv]. subst w1. unfold quiet_rel. world_simpl.
    repeat split; auto. rewrite dom_insert_L. set_solver.
  - subst w1. world_simpl. apply lookup_insert_eq.
  - subst w1. world_simpl. apply (inv_unallocated w Hinv), Hfresh.
  - subst w1. world_simpl. intros s Hs.
    destruct (inv_pending w Hinv s p Hs) as [[? Ha] _]. congruence.
Qed.

Lemma inv_Go (w : World) (m : string) (a r : value) (d : option nat) (wres : option error) :
  calls_inv w -> calls_inv (world_of (Go m a r d wres w)).
Proof.
  intros Hinv. destruct d as [d|].
  - destruct (Nat.eq_dec (match chans w !! d with Some ch => chan_cap ch | None => O end) O)
      as [Hcap|Hcap].
    + rewrite (Go_unbuffered m a r d wres w Hcap). cbn [world_of].
      destruct (inv_alloc w (mkCall m a r None O 0) (chans w) Hinv) as (H1 & _).
      destruct_world w. exact H1.
    + destruct (chans w !! d) as [ch|] eqn:Hd; [|congruence].
      rewrite (Go_with_chan m a r d ch wres w Hd Hcap), world_of_then_ret.
      destruct (inv_alloc w (mkCall m a r None d 0) (chans w) Hinv) as (H1 & H2 & H3 & H4).
      assert (Heq : set_chans (chans w)
                      (set_calls (<[fresh (dom (calls w)) := mkCall m a r None d 0]> (calls w)) w)
                    = set_calls (<[fresh (dom (calls w)) := mkCall m a r None d 0]> (calls w)) w)
        by (destruct_world w; reflexivity).
      rewrite Heq in *.
      apply (inv_send _ _ _ wres H1 H2 eq_refl H3 H4).
  - rewrite (Go_new_chan m a r wres w), world_of_then_ret.
    destruct (inv_alloc w (mkCall m a r None (fresh (dom (chans w))) 0)
                (<[fresh (dom (chans w)) := mkChan 10 []]> (chans w)) Hinv)
      as (H1 & H2 & H3 & H4).
    apply (inv_send _ _ _ wres H1 H2 eq_refl H3 H4).
Qed.

(** The cancellation branch of [Call]. *)
Lemma inv_Call_cancel (w : World) (call : nat) (k : Call) (e : error) (wres : option error) :
  calls_inv w -> calls w !! call = Some k ->
  calls_inv (world_of (Call_cancel call e wres w)).
Proof.
  intros Hinv Hk.
  rewrite (Call_cancel_eq call k e wres w (inv_mutex w Hinv) Hk). cbv zeta.
  set (w1 := set_log _ _).
  assert (H1 : calls_inv w1).
  { apply (calls_inv_update w w1 ∅ None Hinv); subst w1; world_simpl.
    - destruct (call_seq k =? 0); [|reflexivity].
      rewrite dom_insert_L. set_solver.
    - apply Hinv.
    - apply Hinv.
    - auto.
    - intros q. rewrite done_count_app. rewrite bool_decide_eq_false_2 by set_solver.
      cbn. lia.
    - set_solver.
    - intros s q Hq. apply lookup_delete_Some in Hq. destruct Hq as [_ Hq].
      split; [left; exact Hq | set_solver]. }
  destruct (negb (call_seq k =? 0) && bool_decide (is_Some (pending (cl w) !! call_seq k))).
  - rewrite world_of_then_ret. apply inv_Go, H1.
  - exact H1.
Qed.

Lemma inv_Call_wait (w : World) (call : nat) (ctx : ctx_state) (prefer_ctx : bool)
    (wres : option error) :
  calls_inv w -> calls_inv (world_of (Call_wait call ctx prefer_ctx wres w)).
Proof.
  intros Hinv. unfold Call_wait, bind at 1, get_call at 1.
  destruct (calls w !! call) as [k|] eqn:Hk; [|exact Hinv].
  assert (Hrecv : forall chs,
            calls_inv (world_of ((let* k' := get_call call in ret (call_Error k'))
                                   (set_chans chs w)))).
  { intros chs. unfold bind, get_call, ret. world_simpl. rewrite Hk. cbn [world_of].
    apply (calls_inv_quiet w); [|exact Hinv]. unfold quiet_rel. world_simpl.
    repeat split; auto. }
  destruct (chans w !! call_Done k) as [[n [|q rest]]|]; destruct ctx as [|e];
    try destruct prefer_ctx; try exact Hinv; try apply Hrecv;
    apply (inv_Call_cancel w call k); assumption.
Qed.

Lemma inv_Notify (w : World) (method : string) (args : value) (wres : option error) :
  calls_inv w -> calls_inv (world_of (Notify method args wres w)).
Proof.
  intros Hinv. apply (calls_inv_quiet w); [|exact Hinv].
  destruct (shutdown (cl w) || closing (cl w)) eqn:Hc;
    [rewrite (Notify_refused w method args wres (inv_sending w Hinv) Hc)
    |rewrite (Notify_sent w method args wres (inv_sending w Hinv) Hc)];
    unfold quiet_rel; world_simpl; repeat split; auto;
    intros q; rewrite done_count_app; cbn; lia.
Qed.

(** [Close] on an engine that is neither shut down nor closing, and on one
    that is. *)
Lemma Close_first (w : World) (cres : option error) :
  mutex (cl w) = false ->
  shutdown (cl w) || closing (cl w) = false ->
  Close cres w =
  Ok cres (set_log (log w ++ [EvLock MuMutex; EvUnlock MuMutex; EvCodecClose])
             (set_cl (with_closing true (cl w)) w)).
Proof.
  intros Hm Hc. destruct_world w. unfold Close. unfold_m. rewrite Hc.
  rewrite <- !app_assoc. reflexivity.
Qed.

Lemma Close_again (w : World) (cres : option error) :
  mutex (cl w) = false ->
  shutdown (cl w) || closing (cl w) = true ->
  Close cres w =
  Ok (Some ErrShutdown) (set_log (log w ++ [EvLock MuMutex; EvUnlock MuMutex]) w).
Proof.
  intros Hm Hc. destruct_world w. unfold Close. unfold_m. rewrite Hc.
  rewrite <- !app_assoc. reflexivity.
Qed.

Lemma inv_Close (w : World) (cres : option error) :
  calls_inv w -> calls_inv (world_of (Close cres w)).
Proof.
  intros Hinv. apply (calls_inv_quiet w); [|exact Hinv].
  destruct (shutdown (cl w) || closing (cl w)) eqn:Hc;
    [rewrite (Close_again w cres (inv_mutex w Hinv) Hc)
    |rewrite (Close_first w cres (inv_mutex w Hinv) Hc)];
    unfold quiet_rel; world_simpl; repeat split; auto;
    intros q; rewrite done_count_app; cbn; lia.
Qed.

(** A response for which no call is pending: its body is read into the
    discard sink. *)
Lemma readResponse_unmatched (w : World) (resp : Response) (bres : option error)
    (body : value) :
  mutex (cl w) = false ->
  pending (cl w) !! resp_Seq resp = None ->
  readResponse resp bres body w =
  Ok (match bres with
      | Some e => Some (ErrorsNew ("reading error body: " ++ error_string e))
      | None => None
      end)
    (set_log (log w ++ [EvLock MuMutex; EvUnlock MuMutex; EvReadResponseBody true])
       (set_cl (with_pending (delete (resp_Seq resp) (pending (cl w))) (cl w)) w)).
Proof.
  intros Hm Hp. destruct_world w. destruct resp as [s e].
  cbn [resp_Seq resp_Error] in *.
  unfold readResponse. unfold_m. rewrite Hp. rewrite <- !app_assoc. reflexivity.
Qed.

(** A response for a pending call: the entry leaves the table, the call
    gets the outcome and is completed once. *)
Lemma readResponse_matched (w : World) (resp : Response) (bres : option error)
    (body : value) (p : nat) (k : Call) :
  mutex (cl w) = false ->
  pending (cl w) !! resp_Seq resp = Some p ->
  calls w !! p = Some k ->
  exists r,
    readResponse resp bres body w =
    Ok r
      (set_log (log w ++ [EvLock MuMutex; EvUnlock MuMutex;
                          EvReadResponseBody (body_dropped resp k)]
                  ++ done_events p (chan_ready (chans w !! call_Done k)))
         (set_chans (push_chan p (call_Done k) (chans w))
            (set_calls (<[p := response_outcome resp bres body k]> (calls w))
               (set_cl (with_pending (delete (resp_Seq resp) (pending (cl w))) (cl w)) w)))).
Proof.
  intros Hm Hp Hk. destruct_world w. destruct resp as [s e]. destruct k.
  cbn [resp_Seq resp_Error] in *.
  unfold readResponse, response_outcome, body_dropped. unfold_m. rewrite Hp.
  destruct (bool_decide (e = "")); cbn [negb orb].
  - rewrite Hk. destruct bres as [be|].
    + unfold_m. rewrite Hk, lookup_insert_eq.
      eexists; rewrite <- !app_assoc; reflexivity.
    + destruct (bool_decide (_ = VNil)); unfold_m.
      * rewrite Hk, (insert_id _ _ _ Hk). eexists; rewrite <- !app_assoc; reflexivity.
      * rewrite Hk, lookup_insert_eq. eexists; rewrite <- !app_assoc; reflexivity.
  - unfold_m. rewrite Hk, lookup_insert_eq.
    eexists; rewrite <- !app_assoc; reflexivity.
Qed.

Lemma inv_readResponse (w : World) (resp : Response) (bres : option error) (body : value) :
  calls_inv w -> shutdown (cl w) = false ->
  calls_inv (world_of (readResponse resp bres body w)).
Proof.
  intros Hinv Hsh. pose proof (inv_mutex w Hinv) as Hm.
  destruct (pending (cl w) !! resp_Seq resp) as [p|] eqn:Hp.
  - destruct (inv_pending w Hinv _ _ Hp) as [[k Hk] Hzero].
    destruct (readResponse_matched w resp bres body p k Hm Hp Hk) as [r ->].
    cbn [world_of].
    apply (calls_inv_update w _ {[p]} None Hinv); world_simpl.
    + rewrite dom_insert_L. set_solver.
    + exact Hm.
    + apply Hinv.
    + auto.
    + intros q. rewrite !done_count_app, done_count_done_events, bool_decide_singleton.
      cbn. lia.
    + intros q Hq. apply elem_of_singleton in Hq. subst q.
      rewrite lookup_insert_eq. eauto.
    + intros s q Hq. apply lookup_delete_Some in Hq. destruct Hq as [Hne Hq].
      split; [left; exact Hq|]. intros _ Hin.
      apply elem_of_singleton in Hin. subst q.
      apply Hne. exact (inv_injective w Hinv _ _ _ Hp Hq).
  - rewrite (readResponse_unmatched w resp bres body Hm Hp). cbn [world_of].
    apply (calls_inv_update w _ ∅ None Hinv); world_simpl.
    + reflexivity.
    + exact Hm.
    + apply Hinv.
    + auto.
    + intros q. rewrite done_count_app. rewrite bool_decide_eq_false_2 by set_solver.
      cbn. lia.
    + set_solver.
    + intros s q Hq. apply lookup_delete_Some in Hq. destruct Hq as [_ Hq].
      split; [left; exact Hq | set_solver].
Qed.

Lemma inv_read_frame (w : World) (f : Frame) :
  calls_inv w -> shutdown (cl w) = false ->
  calls_inv (world_of ((emit EvReadHeader >> read_frame f >> ret tt) w)).
Proof.
  intros Hinv Hsh.
  change ((emit EvReadHeader >> read_frame f >> ret tt) w)
    with ((read_frame f >> ret tt) (set_log (log w ++ [EvReadHeader]) w)).
  rewrite world_of_then_ret.
  set (w1 := set_log _ w).
  assert (H1 : calls_inv w1).
  { apply (calls_inv_quiet w); [|exact Hinv]. subst w1. unfold quiet_rel. world_simpl.
    repeat split; auto. intros q. rewrite done_count_app. cbn. lia. }
  assert (Hsh1 : shutdown (cl w1) = false) by exact Hsh.
  clearbody w1. clear Hinv Hsh w.
  unfold read_frame. destruct (negb (bool_decide (req_Method (f_req f) = ""))).
  - apply inv_preserved_quiet; [|exact H1]. intros w0. preserves_steps quiet.
    apply quiet_readRequest.
  - unfold bind at 1.
    pose proof (inv_readResponse w1 (f_resp f) (o_body_err (f_oracle f))
                  (o_body (f_oracle f)) H1 Hsh1) as H2.
    destruct (readResponse _ _ _ w1) as [r w2|msg w2|w2]; cbn [world_of] in *; try exact H2.
    apply inv_preserved_quiet; [|exact H2]. intros w0. preserves_steps quiet.
Qed.

(** The read loop ends: the calls the pending table points to are completed,
    each once. *)
Lemma readLoop_exit_eq (w : World) (err : error) :
  mutex (cl w) = false ->
  sending (cl w) = false ->
  map_Forall (fun _ p => is_Some (calls w !! p)) (pending (cl w)) ->
  exists cs chs evs,
    readLoop_exit err w =
    readLoop_finish (translate_eof err (closing (cl w))) (closing (cl w))
      (set_log (log w ++ [EvLock MuSending; EvLock MuMutex] ++ evs
                  ++ [EvUnlock MuMutex; EvUnlock MuSending])
         (set_chans chs (set_calls cs (set_cl (with_shutdown true (cl w)) w))))
    /\ dom cs = dom (calls w)
    /\ forall q, done_count q evs
                 = length (List.filter (fun x => bool_decide (x.2 = q))
                             (map_to_list (pending (cl w)))).
Proof.
  intros Hm Hs Hall.
  set (w1 := set_log (log w ++ [EvLock MuSending; EvLock MuMutex])
               (set_cl (with_shutdown true (with_mutex true (with_sending true (cl w)))) w)).
  destruct (terminate_calls_spec (translate_eof err (closing (cl w)))
              (map_to_list (pending (cl w))) w1)
    as (cs & chs & evs & Hrun & Hdom & _ & _ & _ & Hcnt).
  { intros s p Hin. apply list_elem_of_In, elem_of_map_to_list in Hin.
    subst w1. destruct_world w. exact (Hall s p Hin). }
  exists cs, chs, evs. split; [|split; [|exact Hcnt]].
  - assert (Hexit : readLoop_exit err w =
      (terminate_calls (translate_eof err (closing (cl w))) (map_to_list (pending (cl w))) >>
       Unlock MuMutex >> Unlock MuSending >>
       readLoop_finish (translate_eof err (closing (cl w))) (closing (cl w))) w1).
    { subst w1. destruct_world w.
      unfold readLoop_exit. unfold_m. rewrite <- !app_assoc. reflexivity. }
    rewrite Hexit. unfold bind at 1. rewrite Hrun.
    subst w1. destruct_world w. unfold bind, Unlock. world_simpl.
    rewrite <- !app_assoc. reflexivity.
  - rewrite Hdom. subst w1. destruct_world w. reflexivity.
Qed.

Lemma count_in_NoDup (q : nat) (l : list nat) :
  NoDup l ->
  length (List.filter (fun y => bool_decide (y = q)) l)
  = if bool_decide (q ∈ l) then 1%nat else 0%nat.
Proof.
  induction 1 as [|x l Hx Hnd IH]; [reflexivity|].
  cbn [List.filter]. destruct (bool_decide (x = q)) eqn:Hxq.
  - apply bool_decide_eq_true in Hxq. subst x. cbn [length]. rewrite IH.
    rewrite (bool_decide_eq_false_2 (q ∈ l)) by exact Hx.
    rewrite bool_decide_eq_true_2 by left. reflexivity.
  - apply bool_decide_eq_false in Hxq. rewrite IH.
    apply (f_equal (fun b : bool => if b then 1%nat else 0%nat)).
    apply bool_decide_ext. rewrite elem_of_cons. intuition congruence.
Qed.

Lemma filter_snd_fmap (q : nat) (l : list (Z * nat)) :
  length (List.filter (fun x => bool_decide (x.2 = q)) l)
  = length (List.filter (fun y => bool_decide (y = q)) (l.*2)).
Proof.
  induction l as [|[s p] l IH]; [reflexivity|].
  cbn [List.filter fmap list_fmap snd]. destruct (bool_decide (p = q)); cbn [length]; congruence.
Qed.

Lemma inv_readLoop_exit (w : World) (err : error) :
  calls_inv w -> shutdown (cl w) = false ->
  calls_inv (world_of (readLoop_exit err w)).
Proof.
  intros Hinv Hsh.
  destruct (readLoop_exit_eq w err (inv_mutex w Hinv) (inv_sending w Hinv))
    as (cs & chs & evs & -> & Hdom & Hcnt).
  { intros s p Hsp. apply (inv_pending w Hinv s p Hsp). }
  apply inv_preserved_quiet.
  { intros w0. unfold readLoop_finish, close_disconnect. preserves_steps quiet. }
  set (D := list_to_set ((map_to_list (pending (cl w))).*2) : gset nat).
  assert (HD : forall q, q ∈ D <-> exists s, pending (cl w) !! s = Some q).
  { intros q. subst D. rewrite elem_of_list_to_set, list_elem_of_fmap. split.
    - intros ([s p] & -> & Hin). exists s. apply elem_of_map_to_list. exact Hin.
    - intros (s & Hs). exists (s, q). split; [reflexivity|].
      apply elem_of_map_to_list. exact Hs. }
  assert (Hnd : NoDup ((map_to_list (pending (cl w))).*2)).
  { apply NoDup_fmap_2_strong; [|apply NoDup_map_to_list].
    intros [s1 p1] [s2 p2] H1 H2 Heq. cbn in Heq. subst p2.
    apply elem_of_map_to_list in H1, H2.
    rewrite (inv_injective w Hinv s1 s2 p1 H1 H2). reflexivity. }
  apply (calls_inv_update w _ D None Hinv); world_simpl.
  - rewrite Hdom. reflexivity.
  - apply Hinv.
  - apply Hinv.
  - discriminate.
  - intros q. rewrite !done_count_app, Hcnt, filter_snd_fmap, (count_in_NoDup q _ Hnd).
    cbn. replace (bool_decide (q ∈ (map_to_list (pending (cl w))).*2))
      with (bool_decide (q ∈ D)); [lia|].
    apply bool_decide_ext. subst D. rewrite elem_of_list_to_set. reflexivity.
  - intros q Hq. apply HD in Hq. destruct Hq as (s & Hsq).
    destruct (inv_pending w Hinv s q Hsq) as [Ha Hz]. split; [|exact (Hz Hsh)].
    apply elem_of_dom. rewrite Hdom. apply elem_of_dom. exact Ha.
  - intros s q Hq. split; [left; exact Hq | discriminate].
Qed.

Lemma inv_exec_op (w : World) (o : Op) :
  calls_inv w ->
  (is_reader_op o = true -> shutdown (cl w) = false) ->
  calls_inv (world_of (exec_op o w)).
Proof.
  intros Hinv Hrd. destruct o; cbn [exec_op]; rewrite ?world_of_then_ret.
  - apply inv_preserved_quiet; [|exact Hinv]. intros w0. unfold Handle. preserves_steps quiet.
  - apply inv_preserved_quiet; [|exact Hinv]. intros w0. unfold SetBlocking. preserves_steps quiet.
  - apply inv_Go, Hinv.
  - unfold Call_start, bind at 1, make_chan.
    apply inv_Go. apply (calls_inv_quiet w); [|exact Hinv].
    unfold quiet_rel. world_simpl. repeat split; auto.
  - apply inv_Call_wait, Hinv.
  - apply inv_Notify, Hinv.
  - apply inv_Close, Hinv.
  - apply inv_read_frame; auto.
  - destruct from_header.
    + change ((emit EvReadHeader >> readLoop_exit err) w)
        with (readLoop_exit err (set_log (log w ++ [EvReadHeader]) w)).
      apply inv_readLoop_exit; [|apply Hrd; reflexivity].
      apply (calls_inv_quiet w); [|exact Hinv].
      unfold quiet_rel. world_simpl. repeat split; auto.
      intros q. rewrite done_count_app. cbn. lia.
    + change ((ret tt >> readLoop_exit err) w) with (readLoop_exit err w).
      apply inv_readLoop_exit; [exact Hinv | apply Hrd; reflexivity].
  - apply inv_preserved_quiet; [|exact Hinv]. intros w0. apply quiet_handleRequest.
  - apply inv_preserved_quiet; [|exact Hinv]. intros w0. preserves_steps quiet.
  - apply inv_preserved_quiet; [|exact Hinv]. intros w0. preserves_steps quiet.
Qed.

(** *** The shutdown flag is set by the end of the read loop only *)

Lemma shut_same {A} (b : bool) (m : M A) :
  (forall w, shutdown (cl (world_of (m w))) = shutdown (cl w)) ->
  preserves (shutdown_is b) m.
Proof. intros H w Hw. unfold shutdown_is. rewrite H. exact Hw. Qed.

Lemma shut_heap_only {A} (b : bool) (m : M A) :
  heap_only m -> preserves (shutdown_is b) m.
Proof. intros H. apply shut_same. intros w. destruct (H w) as [-> _]. reflexivity. Qed.

Lemma shut_Lock (b : bool) (m : Mutex) : preserves (shutdown_is b) (Lock m).
Proof.
  apply shut_same. intros w. unfold Lock.
  destruct (held m (cl w)); [reflexivity|]. destruct m; reflexivity.
Qed.

Lemma shut_Unlock (b : bool) (m : Mutex) : preserves (shutdown_is b) (Unlock m).
Proof.
  apply shut_same. intros w. unfold Unlock.
  destruct (held m (cl w)); [|reflexivity]. destruct m; reflexivity.
Qed.

Lemma shut_emit (b : bool) (e : Event) : preserves (shutdown_is b) (emit e).
Proof. apply shut_same. reflexivity. Qed.

Lemma shut_modify_cl (b : bool) (f : Client -> Client) :
  (forall c, shutdown (f c) = shutdown c) -> preserves (shutdown_is b) (modify_cl f).
Proof. intros Hf. apply shut_same. intros w. apply Hf. Qed.

Lemma shut_done (b : bool) (p : nat) : preserves (shutdown_is b) (done p).
Proof.
  apply preserves_bind; [apply shut_heap_only, heap_only_get_call|]. intros c.
  apply shut_same. reflexivity.
Qed.

Create HintDb shut.

#[local] Hint Resolve preserves_ret preserves_panic preserves_get_cl
  shut_Lock shut_Unlock shut_emit shut_done : shut.

#[local] Hint Extern 1 (preserves (shutdown_is _) (modify_cl _)) =>
  apply shut_modify_cl; intros []; reflexivity : shut.

#[local] Hint Extern 2 (preserves (shutdown_is _) _) =>
  apply shut_heap_only; solve [auto with heap] : shut.

#[local] Hint Extern 1 (preserves (shutdown_is _) (addHandler _ _ _)) =>
  apply preserves_addHandler; [intros; apply shut_emit | intros ? ? H; exact H] : shut.

Lemma shut_Go (b : bool) (method : string) (args reply : value) (done_ch : option nat)
    (wres : option error) :
  preserves (shutdown_is b) (Go method args reply done_ch wres).
Proof. unfold Go, send, send_register, send_write, send_failed. preserves_steps shut. Qed.

Lemma shut_Call_wait (b : bool) (call : nat) (ctx : ctx_state) (prefer_ctx : bool)
    (wres : option error) :
  preserves (shutdown_is b) (Call_wait call ctx prefer_ctx wres).
Proof.
  apply preserves_Call_wait.
  - intros p. auto with shut.
  - intros chs w Hw. exact Hw.
  - intros e. unfold Call_cancel. preserves_steps shut. apply shut_Go.
Qed.

Lemma shut_handleRequest (b : bool) (req : Request) (h : handler) (argv hreply : value)
    (herr wres : option error) :
  preserves (shutdown_is b) (handleRequest req h argv hreply herr wres).
Proof. unfold handleRequest. preserves_steps shut. Qed.

(** Every operation but the end of the read loop leaves the flag alone. *)
Lemma shut_exec_op (b : bool) (o : Op) :
  match o with OpReadExit _ _ => False | _ => True end ->
  preserves (shutdown_is b) (exec_op o).
Proof.
  intros Ho. destruct o; try destruct Ho; cbn [exec_op];
    unfold Handle, SetBlocking, Call_start, Notify, Close, read_frame, readResponse;
    preserves_steps shut; auto using shut_Go, shut_Call_wait, shut_handleRequest.
  apply preserves_readRequest; intros; auto using shut_handleRequest with shut.
Qed.

(** Once the read loop has ended the flag stays set. *)
Lemma shutdown_stays (o : Op) (w : World) :
  shutdown (cl w) = true -> shutdown (cl (world_of (exec_op o w))) = true.
Proof.
  intros Hw. destruct o; try (apply (shut_exec_op true); [exact I | exact Hw]).
  cbn [exec_op].
  assert (H : preserves (shutdown_is true)
                ((if from_header then emit EvReadHeader else ret tt) >> readLoop_exit err)).
  { unfold readLoop_exit, readLoop_finish, close_disconnect, terminate_calls.
    preserves_steps shut.
    intros w' _. reflexivity. }
  apply H. exact Hw.
Qed.

Lemma no_reader_single (ops : list Op) :
  forallb (fun o => negb (is_reader_op o)) ops = true -> single_reader ops = true.
Proof.
  induction ops as [|o ops IH]; [reflexivity|].
  cbn [forallb]. intros H. apply andb_prop in H. destruct H as [Ho Hrest].
  destruct o; cbn [single_reader]; auto; discriminate.
Qed.

(** The invariant holds along every execution with a single reader. *)
Lemma inv_exec (ops : list Op) (w : World) :
  calls_inv w ->
  single_reader ops = true ->
  (shutdown (cl w) = true -> forallb (fun o => negb (is_reader_op o)) ops = true) ->
  calls_inv (world_of (exec ops w)).
Proof.
  revert w. induction ops as [|o ops IH]; intros w Hinv Hsingle Hshut; [exact Hinv|].
  assert (Hop : calls_inv (world_of (exec_op o w))).
  { apply inv_exec_op; [exact Hinv|]. intros Hrd.
    destruct (shutdown (cl w)) eqn:Hs; [|reflexivity].
    specialize (Hshut eq_refl). cbn [forallb] in Hshut.
    rewrite Hrd in Hshut. discriminate. }
  unfold exec. cbn [for_each]. unfold bind.
  pose proof (shutdown_stays o w) as Hstay.
  pose proof (shut_exec_op (shutdown (cl w)) o) as Hkeep.
  destruct (exec_op o w) as [[] w'|msg w'|w'] eqn:Hrun; cbn [world_of] in *; try exact Hop.
  apply IH; [exact Hop | |].
  - destruct o; cbn [single_reader] in Hsingle; try exact Hsingle.
    apply no_reader_single, Hsingle.
  - intros Hs'. destruct o;
      try (specialize (Hkeep I w eq_refl); rewrite Hrun in Hkeep; cbn in Hkeep;
           unfold shutdown_is in Hkeep; rewrite Hs' in Hkeep; symmetry in Hkeep;
           specialize (Hshut Hkeep); cbn [forallb] in Hshut;
           apply andb_prop in Hshut; exact (proj2 Hshut)).
    exact Hsingle.
Qed.

(** A client on which nothing is pending and nothing was completed. *)
Lemma calls_inv_initial (w : World) :
  pending (cl w) = ∅ ->
  mutex (cl w) = false ->
  sending (cl w) = false ->
  (forall p, done_count p (log w) = O) ->
  calls_inv w.
Proof.
  intros Hp Hm Hs Hzero. constructor; auto.
  - intros p. rewrite Hzero. lia.
  - intros s p Hsp. rewrite Hp, lookup_empty in Hsp. discriminate.
  - intros s1 s2 p Hsp. rewrite Hp, lookup_empty in Hsp. discriminate.
Qed.

Lemma delivery_count_app (p : nat) (l1 l2 : list Event) :
  delivery_count p (l1 ++ l2) = (delivery_count p l1 + delivery_count p l2)%nat.
Proof. unfold delivery_count. rewrite List.filter_app, length_app. reflexivity. Qed.

(** C7, as amended.  A call is completed by [done], which makes one
    non-blocking send of the call on its own channel: the call is queued
    when the channel has room and dropped (with a log line) when it has
    not, so one completion is one delivery or none.  And on a client on
    which nothing is pending and nothing was completed, as
    [NewClientWithCodec] makes it, no execution with a single reader
    completes a call twice: for every call there is at most one [done], and
    so at most one delivery. *)
Theorem completion_delivers_at_most_once :
  (forall (w : World) (p : nat) (k : Call),
      calls w !! p = Some k ->
      let ready := chan_ready (chans w !! call_Done k) in
      exists w', done p w = Ok tt w'
        /\ log w' = (log w ++ done_events p ready)%list
        /\ done_count p (log w') = S (done_count p (log w))
        /\ delivery_count p (log w')
           = (delivery_count p (log w) + if ready then 1 else 0)%nat
        /\ chans w' = push_chan p (call_Done k) (chans w)
        /\ (ready = false -> chans w' = chans w))
  /\ (forall (w0 : World) (ops : list Op),
      pending (cl w0) = ∅ ->
      shutdown (cl w0) = false ->
      mutex (cl w0) = false ->
      sending (cl w0) = false ->
      (forall p, done_count p (log w0) = O) ->
      single_reader ops = true ->
      forall p,
        (done_count p (log (world_of (exec ops w0))) <= 1)%nat
        /\ (delivery_count p (log (world_of (exec ops w0))) <= 1)%nat).
Proof.
  split.
  - intros w p k Hk ready. unfold done, bind, get_call. rewrite Hk.
    eexists. split; [reflexivity|]. unfold deliver. world_simpl. fold ready.
    split; [reflexivity|].
    split; [rewrite done_count_app, done_count_done_events,
              bool_decide_eq_true_2 by reflexivity; lia|].
    split.
    { rewrite delivery_count_app. f_equal.
      destruct ready; cbn; rewrite ?bool_decide_eq_true_2 by reflexivity; reflexivity. }
    split; [reflexivity|].
    intros Hr. unfold push_chan. destruct (chans w !! call_Done k) as [ch|]; [|reflexivity].
    subst ready. rewrite Hr. reflexivity.
  - intros w0 ops Hp Hsh Hm Hs Hzero Hsingle p.
    assert (Hinv : calls_inv (world_of (exec ops w0))).
    { apply inv_exec; [apply calls_inv_initial; auto | exact Hsingle | congruence]. }
    pose proof (inv_once _ Hinv p) as Hdone.
    pose proof (delivery_le_done p (log (world_of (exec ops w0)))) as Hle.
    split; lia.
Qed.

(** Two calls share a channel with one slot and both are answered: each is
    completed, and delivered, at most once. *)
Lemma completion_delivers_at_most_once_witness :
  (done_count 1 (log (world_of (exec two_calls_one_slot new_client_world))) <= 1)%nat
  /\ (delivery_count 1 (log (world_of (exec two_calls_one_slot new_client_world))) <= 1)%nat.
Proof.
  destruct completion_delivers_at_most_once as [_ H].
  apply (H new_client_world two_calls_one_slot); try reflexivity.
Defined.

(** C7 as stated fails when the channel has no room.  Two calls are started
    with [Go] on one channel of capacity 1 and both responses arrive before
    the caller receives: the second call has its reply and was completed,
    but it was never delivered on its channel, which holds the first call
    only. *)
Lemma completed_call_not_delivered :
  match exec two_calls_one_slot new_client_world with
  | Ok _ w' =>
      call_Reply <$> calls w' !! 1%nat = Some (VInt 5)
      /\ done_count 1 (log w') = 1%nat
      /\ delivery_count 1 (log w') = 0%nat
      /\ chans w' !! 0%nat = Some (mkChan 1 [0%nat])
  | _ => False
  end.
Proof. vm_compute. repeat split; reflexivity. Qed.

(** ** [Run] as an execution *)

Lemma reader_ops_single (frames : list Frame) (n : nat) (from_header : bool) (err : error) :
  single_reader (reader_ops frames n from_header err) = true.
Proof.
  unfold reader_ops. induction (firstn n frames) as [|f l IH]; [reflexivity|exact IH].
Qed.

(** What [readLoop] does to the world is what an execution of the reader
    operations does: some iterations of the loop, then its exit. *)
Lemma readLoop_is_execution (frames : list Frame) (final : error) (w : World) :
  exists n from_header err,
    world_of (readLoop frames final w)
    = world_of (exec (reader_ops frames n from_header err) w).
Proof.
  revert w. induction frames as [|f rest IH]; intros w.
  - exists O, true, final. unfold reader_ops, exec. cbn [firstn List.map app for_each].
    rewrite world_of_then_ret. reflexivity.
  - set (w1 := set_log (log w ++ [EvReadHeader]) w).
    assert (Hloop : readLoop (f :: rest) final w =
              match read_frame f w1 with
              | Ok (Some e) w2 => readLoop_exit e w2
              | Ok None w2 => readLoop rest final w2
              | Panic msg w2 => Panic msg w2
              | Block w2 => Block w2
              end).
    { unfold readLoop. cbn [read_frames]. unfold bind at 1 2 3. unfold emit at 1.
      fold w1. destruct (read_frame f w1) as [[e|] w2|msg w2|w2]; reflexivity. }
    assert (Hexec : forall ops,
              exec (OpReadFrame f :: ops) w =
              match read_frame f w1 with
              | Ok _ w2 => exec ops w2
              | Panic msg w2 => Panic msg w2
              | Block w2 => Block w2
              end).
    { intros ops. unfold exec. cbn [for_each exec_op]. unfold bind at 1 2 3.
      unfold emit at 1. fold w1.
      destruct (read_frame f w1) as [r w2|msg w2|w2]; reflexivity. }
    destruct (read_frame f w1) as [[e|] w2|msg w2|w2] eqn:Hf.
    + exists 1%nat, false, e. unfold reader_ops.
      change (firstn 1 (f :: rest)) with [f]. cbn [List.map app].
      rewrite Hloop, Hexec. unfold exec. cbn [for_each exec_op].
      rewrite world_of_then_ret. reflexivity.
    + destruct (IH w2) as (n & fh & err & Hrest).
      exists (S n), fh, err. unfold reader_ops. cbn [firstn List.map app].
      rewrite Hloop, Hexec. exact Hrest.
    + exists 1%nat, false, final. unfold reader_ops.
      change (firstn 1 (f :: rest)) with [f]. cbn [List.map app].
      rewrite Hloop, Hexec. reflexivity.
    + exists 1%nat, false, final. unfold reader_ops.
      change (firstn 1 (f :: rest)) with [f]. cbn [List.map app].
      rewrite Hloop, Hexec. reflexivity.
Qed.

(** ** The disconnect channel over an execution *)

Lemma close_count_app (l1 l2 : list Event) :
  close_count (l1 ++ l2) = (close_count l1 + close_count l2)%nat.
Proof. unfold close_count. rewrite List.filter_app, length_app. reflexivity. Qed.

Lemma close_same (w w' : World) (l : list Event) :
  disconnect (cl w') = disconnect (cl w) ->
  log w' = (log w ++ l)%list ->
  close_count l = O ->
  close_inv w -> close_inv w'.
Proof.
  unfold close_inv. intros Hd Hl Hnil Hw.
  rewrite Hd, Hl, close_count_app, Hnil, Hw. lia.
Qed.

Lemma close_heap_only {A} (m : M A) : heap_only m -> preserves close_inv m.
Proof.
  intros H w. destruct (H w) as (Hcl & Hlog & _).
  apply (close_same w _ []); [rewrite Hcl; reflexivity | |reflexivity].
  rewrite Hlog, app_nil_r. reflexivity.
Qed.

Lemma close_emit (e : Event) :
  match e with EvCloseDisconnect => False | _ => True end ->
  preserves close_inv (emit e).
Proof.
  intros He w. apply (close_same w _ [e]); [reflexivity | reflexivity |].
  destruct e; try reflexivity. destruct He.
Qed.

Lemma close_modify_cl (f : Client -> Client) :
  (forall c, disconnect (f c) = disconnect c) -> preserves close_inv (modify_cl f).
Proof.
  intros Hf w. apply (close_same w _ []); [apply Hf | |reflexivity].
  cbn. rewrite app_nil_r. reflexivity.
Qed.

Lemma close_Lock (m : Mutex) : preserves close_inv (Lock m).
Proof.
  intros w Hw. unfold Lock. destruct (held m (cl w)); [exact Hw|].
  revert Hw. apply (close_same w _ [EvLock m]); [destruct m|..]; reflexivity.
Qed.

Lemma close_Unlock (m : Mutex) : preserves close_inv (Unlock m).
Proof.
  intros w Hw. unfold Unlock. destruct (held m (cl w)); [|exact Hw].
  revert Hw. apply (close_same w _ [EvUnlock m]); [destruct m|..]; reflexivity.
Qed.

Lemma close_done (p : nat) : preserves close_inv (done p).
Proof.
  apply preserves_bind; [apply close_heap_only, heap_only_get_call|]. intros c w.
  apply (close_same w _ (done_events p (chan_ready (chans w !! call_Done c))));
    [reflexivity | reflexivity |].
  destruct (chan_ready _); reflexivity.
Qed.

(** Closing the channel: an open channel is closed, a closed one is left as
    it is (and the task panics). *)
Lemma close_close_disconnect : preserves close_inv close_disconnect.
Proof.
  intros w Hw. destruct_world w. unfold close_disconnect. unfold_m.
  destruct disconnect0; [exact Hw|].
  unfold close_inv in *. cbn [log cl disconnect] in *.
  rewrite close_count_app, Hw. reflexivity.
Qed.

Create HintDb close.

#[local] Hint Resolve preserves_ret preserves_panic preserves_get_cl
  close_Lock close_Unlock close_done close_close_disconnect : close.

#[local] Hint Extern 1 (preserves close_inv (emit _)) =>
  apply close_emit; exact I : close.

#[local] Hint Extern 1 (preserves close_inv (addHandler _ _ _)) =>
  apply preserves_addHandler;
    [intros; apply close_emit; exact I | intros ? ? H; exact H] : close.

#[local] Hint Extern 1 (preserves close_inv (modify_cl _)) =>
  apply close_modify_cl; intros []; reflexivity : close.

#[local] Hint Extern 2 (preserves close_inv _) =>
  apply close_heap_only; solve [auto with heap] : close.





(** ** The end of the read loop, as a whole *)





(** ** A call and its response *)

(** [Call] up to its select on an engine that accepts the request. *)
Lemma Call_start_sent (w : World) (m : string) (a r : value) :
  mutex (cl w) = false ->
  sending (cl w) = false ->
  shutdown (cl w) || closing (cl w) = false ->
  let s := seq (cl w) in
  let p := fresh (dom (calls w)) in
  let ch := fresh (dom (chans w)) in
  Call_start m a r None w =
  Ok p (set_log (log w ++ [EvLock MuSending; EvLock MuMutex; EvRegister s p;
                           EvUnlock MuMutex; EvWriteRequest (mkRequest s m) a;
                           EvUnlock MuSending])
          (set_calls (<[p := mkCall m a r None ch s]> (calls w))
             (set_chans (<[ch := mkChan 2 []]> (chans w))
                (set_cl (with_request (mkRequest s m)
                           (with_pending (<[s := p]> (pending (cl w)))
                              (with_seq (wrap64 (s + 1)) (cl w)))) w)))).
Proof.
  intros Hm Hs Hc s p ch. unfold Call_start, bind at 1, make_chan.
  rewrite (Go_with_chan m a r ch (mkChan 2 []) None); world_simpl;
    [|apply lookup_insert_eq|discriminate].
  unfold bind at 1.
  rewrite (send_written _ _ (mkCall m a r None ch 0)); world_simpl;
    [|assumption|assumption|apply lookup_insert_eq|assumption|reflexivity].
  subst s p ch. destruct_world w. unfold_m.
  rewrite insert_insert_eq. reflexivity.
Qed.

(** A call waits in the select of [Call] on a channel with room, and the
    response carrying its sequence number arrives: the read loop gives the
    call its outcome and delivers it, and the select returns the error of
    the call. *)
Lemma response_then_wait (w : World) (p : nat) (k : Call) (n : nat) (f : Frame)
    (prefer_ctx : bool) (wres : option error) :
  mutex (cl w) = false ->
  req_Method (f_req f) = "" ->
  pending (cl w) !! resp_Seq (f_resp f) = Some p ->
  calls w !! p = Some k ->
  chans w !! call_Done k = Some (mkChan (S n) []) ->
  let k2 := response_outcome (f_resp f) (o_body_err (f_oracle f)) (o_body (f_oracle f)) k in
  exists l w',
    (read_frame f >> Call_wait p CtxLive prefer_ctx wres) w = Ok (call_Error k2) w'
    /\ calls w' = <[p := k2]> (calls w)
    /\ cl w' = with_pending (delete (resp_Seq (f_resp f)) (pending (cl w))) (cl w)
    /\ chans w' !! call_Done k = Some (mkChan (S n) [])
    /\ log w' = (log w ++ [EvLock MuMutex; EvUnlock MuMutex;
                           EvReadResponseBody (body_dropped (f_resp f) k);
                           EvDone p true] ++ l)%list
    /\ (l = [] \/ exists msg, l = [EvDebug msg]).
Proof.
  intros Hm Hf Hp Hk Hch k2.
  destruct (readResponse_matched w (f_resp f) (o_body_err (f_oracle f))
              (o_body (f_oracle f)) p k Hm Hp Hk) as (r0 & Hread).
  rewrite Hch in Hread. cbn [chan_ready chan_buf chan_cap length] in Hread.
  replace (0 <? S n)%nat with true in Hread by (symmetry; apply Nat.ltb_lt; lia).
  fold k2 in Hread.
  assert (Hd2 : call_Done k2 = call_Done k).
  { subst k2. unfold response_outcome.
    destruct (negb _); [reflexivity|]. destruct (o_body_err _); [reflexivity|].
    destruct (bool_decide _); reflexivity. }
  assert (Hpush : push_chan p (call_Done k) (chans w) !! call_Done k = Some (mkChan (S n) [p])).
  { unfold push_chan. rewrite Hch. cbn [chan_ready chan_buf chan_cap length].
    replace (0 <? S n)%nat with true by (symmetry; apply Nat.ltb_lt; lia).
    apply lookup_insert_eq. }
  assert (Hwait : forall w0,
    calls w0 = <[p := k2]> (calls w) ->
    chans w0 = push_chan p (call_Done k) (chans w) ->
    exists w',
      Call_wait p CtxLive prefer_ctx wres w0 = Ok (call_Error k2) w'
      /\ calls w' = calls w0 /\ cl w' = cl w0 /\ log w' = log w0
      /\ chans w' !! call_Done k = Some (mkChan (S n) [])).
  { intros w0 Hc0 Hch0. unfold Call_wait, bind at 1, get_call at 1.
    rewrite Hc0, lookup_insert_eq, Hd2, Hch0, Hpush.
    unfold bind, get_call, ret. world_simpl. rewrite Hc0, lookup_insert_eq.
    eexists. split; [reflexivity|]. world_simpl. rewrite lookup_insert_eq. auto. }
  unfold bind at 1. unfold read_frame.
  rewrite Hf, bool_decide_eq_true_2 by reflexivity. cbn [negb].
  unfold bind at 1. rewrite Hread. clear Hread.
  destruct r0 as [e0|].
  - unfold bind at 1. unfold emit at 1, ret at 1.
    match goal with |- context [Call_wait _ _ _ _ ?w0] =>
      destruct (Hwait w0) as (w' & Hrun & Hk' & Hcl' & Hlog' & Hch'); [reflexivity..|] end.
    exists [EvDebug ("birpc: error reading response: " ++ error_string e0)], w'.
    rewrite Hrun, Hk', Hcl', Hlog'. world_simpl.
    repeat split; eauto; rewrite <- ?app_assoc; reflexivity.
  - unfold ret at 1.
    match goal with |- context [Call_wait _ _ _ _ ?w0] =>
      destruct (Hwait w0) as (w' & Hrun & Hk' & Hcl' & Hlog' & Hch'); [reflexivity..|] end.
    exists [], w'.
    rewrite Hrun, Hk', Hcl', Hlog'. world_simpl.
    repeat split; eauto; rewrite <- ?app_assoc; reflexivity.
Qed.

(** The error and the reply a response leaves in a call. *)
Lemma response_outcome_Error (resp : Response) (bres : option error) (body : value)
    (m : string) (a r : value) (d : nat) (s : Z) :
  call_Error (response_outcome resp bres body (mkCall m a r None d s))
  = if bool_decide (resp_Error resp = "") then
      match bres with
      | Some be => Some (ErrorsNew ("reading body " ++ error_string be))
      | None => None
      end
    else Some (ServerError (resp_Error resp)).
Proof.
  unfold response_outcome. destruct (bool_decide _); cbn [negb]; [|reflexivity].
  destruct bres; [reflexivity|]. destruct (bool_decide _); reflexivity.
Qed.

Lemma response_outcome_Reply (resp : Response) (bres : option error) (body : value)
    (m : string) (a r : value) (d : nat) (s : Z) :
  call_Reply (response_outcome resp bres body (mkCall m a r None d s))
  = if bool_decide (resp_Error resp = "") then
      match bres with
      | Some _ => r
      | None => if bool_decide (r = VNil) then r else body
      end
    else r.
Proof.
  unfold response_outcome. destruct (bool_decide _); cbn [negb]; [|reflexivity].
  destruct bres; [reflexivity|]. cbn [call_Reply]. destruct (bool_decide _); reflexivity.
Qed.

(** The state [Call_start_sent] describes is one in which the call waits
    for its response. *)
Lemma Call_start_then_response (w : World) (m : string) (a r : value) (f : Frame)
    (prefer_ctx : bool) (wres : option error) :
  mutex (cl w) = false ->
  sending (cl w) = false ->
  shutdown (cl w) || closing (cl w) = false ->
  req_Method (f_req f) = "" ->
  resp_Seq (f_resp f) = seq (cl w) ->
  let p := fresh (dom (calls w)) in
  let k2 := response_outcome (f_resp f) (o_body_err (f_oracle f)) (o_body (f_oracle f))
              (mkCall m a r None (fresh (dom (chans w))) (seq (cl w))) in
  exists w1 l w',
    Call_start m a r None w = Ok p w1
    /\ log w1 = (log w ++ [EvLock MuSending; EvLock MuMutex; EvRegister (seq (cl w)) p;
                           EvUnlock MuMutex; EvWriteRequest (mkRequest (seq (cl w)) m) a;
                           EvUnlock MuSending])%list
    /\ (read_frame f >> Call_wait p CtxLive prefer_ctx wres) w1 = Ok (call_Error k2) w'
    /\ calls w' !! p = Some k2
    /\ pending (cl w') = delete (seq (cl w)) (pending (cl w))
    /\ log w' = (log w1 ++ [EvLock MuMutex; EvUnlock MuMutex;
                            EvReadResponseBody
                              (body_dropped (f_resp f)
                                 (mkCall m a r None (fresh (dom (chans w))) (seq (cl w))));
                            EvDone p true] ++ l)%list
    /\ (l = [] \/ exists msg, l = [EvDebug msg]).
Proof.
  intros Hm Hs Hc Hf Hseq p k2.
  pose proof (Call_start_sent w m a r Hm Hs Hc) as Hstart. cbv zeta in Hstart.
  fold p in Hstart. set (w1 := set_log _ _) in Hstart.
  destruct (response_then_wait w1 p (mkCall m a r None (fresh (dom (chans w))) (seq (cl w)))
              1 f prefer_ctx wres) as (l & w' & Hrun & Hk' & Hcl' & _ & Hlog' & Hl).
  - subst w1. world_simpl. destruct_world w. reflexivity.
  - exact Hf.
  - subst w1. world_simpl. rewrite Hseq. destruct_world w. cbn. apply lookup_insert_eq.
  - subst w1. world_simpl. apply lookup_insert_eq.
  - subst w1. world_simpl. cbn [call_Done]. apply lookup_insert_eq.
  - exists w1, l, w'. split; [exact Hstart|].
    split; [subst w1; world_simpl; reflexivity|].
    split; [exact Hrun|].
    split; [rewrite Hk'; apply lookup_insert_eq|].
    split; [|split; [exact Hlog' | exact Hl]].
    rewrite Hcl'. subst w1. world_simpl. rewrite Hseq. destruct_world w. cbn.
    apply delete_insert_eq.
Qed.

Lemma delivery_count_debug (p : nat) (l : list Event) :
  l = [] \/ (exists msg, l = [EvDebug msg]) -> delivery_count p l = O.
Proof. intros [->|[msg ->]]; reflexivity. Qed.

Lemma written_requests_debug (l : list Event) :
  l = [] \/ (exists msg, l = [EvDebug msg]) -> written_requests l = [].
Proof. intros [->|[msg ->]]; reflexivity. Qed.

(** X1.  [Call] and the response to its request.  On an engine that is neither
    shut down nor closing, [Call] writes one request with the next sequence
    number; when the response with that number arrives, [Call] returns: the
    error of the response as a [ServerError] if the response carries one
    (the reply is left alone), the failure to decode the body if there is
    one, and otherwise no error, with the decoded body in the reply (a
    [nil] reply stays [nil]: the body is then read and dropped).  The call
    has left the pending table and was delivered once. *)
Theorem call_returns_outcome_of_response (w : World) (m : string) (a r : value)
    (f : Frame) (prefer_ctx : bool) (wres : option error) :
  mutex (cl w) = false ->
  sending (cl w) = false ->
  shutdown (cl w) || closing (cl w) = false ->
  req_Method (f_req f) = "" ->
  resp_Seq (f_resp f) = seq (cl w) ->
  let msg := resp_Error (f_resp f) in
  let bres := o_body_err (f_oracle f) in
  exists p e w',
    (let* p := Call_start m a r None in
     read_frame f >>
     let* e := Call_wait p CtxLive prefer_ctx wres in
     ret (p, e)) w = Ok (p, e) w'
    /\ calls w !! p = None
    /\ e = (if bool_decide (msg = "") then
              match bres with
              | Some be => Some (ErrorsNew ("reading body " ++ error_string be))
              | None => None
              end
            else Some (ServerError msg))
    /\ call_Reply <$> calls w' !! p
       = Some (if bool_decide (msg = "") then
                 match bres with
                 | Some _ => r
                 | None => if bool_decide (r = VNil) then r else o_body (f_oracle f)
                 end
               else r)
    /\ pending (cl w') = delete (seq (cl w)) (pending (cl w))
    /\ delivery_count p (log w') = S (delivery_count p (log w))
    /\ written_requests (log w')
       = (written_requests (log w) ++ [(mkRequest (seq (cl w)) m, a)])%list.
Proof.
  intros Hm Hs Hc Hf Hseq msg bres.
  destruct (Call_start_then_response w m a r f prefer_ctx wres Hm Hs Hc Hf Hseq)
    as (w1 & l & w' & Hstart & Hlog1 & Hrun & Hk' & Hpend & Hlog' & Hl).
  set (p := fresh (dom (calls w))) in *.
  exists p, (call_Error (response_outcome (f_resp f) bres (o_body (f_oracle f))
                           (mkCall m a r None (fresh (dom (chans w))) (seq (cl w))))), w'.
  split.
  { unfold bind at 1. rewrite Hstart. unfold bind at 1.
    unfold bind at 1 in Hrun.
    destruct (read_frame f w1) as [r1 w2|msg1 w2|w2]; try discriminate.
    unfold bind at 1. rewrite Hrun. reflexivity. }
  split; [apply not_elem_of_dom, is_fresh|].
  split; [apply response_outcome_Error|].
  split; [rewrite Hk'; cbn [fmap option_fmap option_map]; f_equal; apply response_outcome_Reply|].
  split; [exact Hpend|].
  rewrite Hlog', Hlog1. split.
  - rewrite !delivery_count_app, (delivery_count_debug p l Hl). cbn.
    rewrite !bool_decide_eq_true_2 by reflexivity. cbn. lia.
  - rewrite !written_requests_app, (written_requests_debug l Hl). cbn.
    rewrite !app_nil_r. reflexivity.
Qed.

(** A fresh client calls [add] with a reply that holds 0; the response
    carries no error and the body decodes to 3. *)
Lemma call_returns_outcome_of_response_witness :
  exists p w',
    (let* p := Call_start "add" (VInt 1) (VInt 0) None in
     read_frame (response_frame 1 (VInt 3)) >>
     let* e := Call_wait p CtxLive false None in
     ret (p, e)) new_client_world = Ok (p, None) w'
    /\ call_Reply <$> calls w' !! p = Some (VInt 3).
Proof.
  destruct (call_returns_outcome_of_response new_client_world "add" (VInt 1) (VInt 0)
              (response_frame 1 (VInt 3)) false None)
    as (p & e & w' & Hrun & _ & He & Hr & _); try reflexivity.
  cbn in He. subst e. exists p, w'. split; [exact Hrun | exact Hr].
Defined.

Lemma written_responses_app (l1 l2 : list Event) :
  written_responses (l1 ++ l2) = (written_responses l1 ++ written_responses l2)%list.
Proof. unfold written_responses. apply omap_app. Qed.

(** ** A request and its response, across the two peers *)

(** X2.  A call for a method the peer does not serve.  The caller writes a
    request; the peer, reading that request, answers with the literal
    [birpc: can't find method] and the name; the caller, reading that
    response, returns from [Call] with an error that prints exactly this
    text, and its reply is untouched. *)
Theorem unknown_method_error_reaches_caller (wc ws : World) (m : string) (a r : value)
    (o oc : Oracle) (prefer_ctx : bool) (wres : option error) :
  mutex (cl wc) = false ->
  sending (cl wc) = false ->
  shutdown (cl wc) || closing (cl wc) = false ->
  m <> "" ->
  client_handlers ws !! m = None ->
  o_write_err o = None ->
  exists p wc1 req ws1 resp body e wc2,
    Call_start m a r None wc = Ok p wc1
    /\ written_requests (log wc1) = (written_requests (log wc) ++ [(req, a)])%list
    /\ read_frame (mkFrame req (mkResponse 0 "") o) ws = Ok None ws1
    /\ written_responses (log ws1) = (written_responses (log ws) ++ [(resp, body)])%list
    /\ (read_frame (mkFrame (mkRequest 0 "") resp oc) >>
        Call_wait p CtxLive prefer_ctx wres) wc1 = Ok (Some e) wc2
    /\ error_string e = "birpc: can't find method " ++ m
    /\ call_Reply <$> calls wc2 !! p = Some r.
Proof.
  intros Hm Hs Hc Hne Hnone Hw.
  set (s := seq (cl wc)).
  set (resp := mkResponse s ("birpc: can't find method " ++ m)).
  destruct (Call_start_then_response wc m a r (mkFrame (mkRequest 0 "") resp oc)
              prefer_ctx wres Hm Hs Hc eq_refl eq_refl)
    as (wc1 & l & wc2 & Hstart & Hlog1 & Hrun & Hk' & _ & _ & _).
  cbn [f_resp f_oracle] in Hrun, Hk'.
  rewrite response_outcome_Error in Hrun.
  assert (Hmsg : bool_decide (resp_Error resp = "") = false).
  { apply bool_decide_eq_false_2. subst resp. cbn. discriminate. }
  rewrite Hmsg in Hrun.
  exists (fresh (dom (calls wc))), wc1, (mkRequest s m).
  eexists. exists resp, (VResponse resp), (ServerError (resp_Error resp)), wc2.
  split; [exact Hstart|].
  split; [rewrite Hlog1, written_requests_app; reflexivity|].
  split.
  { unfold read_frame. cbn [f_req f_resp f_oracle req_Method].
    rewrite bool_decide_eq_false_2 by exact Hne. cbn [negb].
    unfold bind at 1. rewrite (readRequest_unknown ws (mkRequest s m) o Hnone), Hw.
    reflexivity. }
  split; [world_simpl; rewrite written_responses_app; reflexivity|].
  split; [exact Hrun|].
  split; [reflexivity|].
  rewrite Hk'. cbn [fmap option_fmap option_map].
  rewrite response_outcome_Reply, Hmsg. reflexivity.
Qed.

(** The last step of the test suite: a client calls [foo] on a peer that
    has no such method. *)
Lemma unknown_method_error_reaches_caller_witness :
  exists p wc1 wc2 e,
    Call_start "foo" (VInt 1) VNil None new_client_world = Ok p wc1
    /\ (read_frame (mkFrame (mkRequest 0 "")
                      (mkResponse 1 "birpc: can't find method foo")
                      (mkOracle None VNil VNil None None)) >>
        Call_wait p CtxLive false None) wc1 = Ok (Some e) wc2
    /\ error_string e = "birpc: can't find method foo".
Proof.
  destruct (unknown_method_error_reaches_caller new_client_world new_client_world "foo"
              (VInt 1) VNil (mkOracle None VNil VNil None None)
              (mkOracle None VNil VNil None None) false None)
    as (p & wc1 & req & ws1 & resp & body & e & wc2 & H1 & H2 & H3 & H4 & H5 & H6 & _);
    try reflexivity; try discriminate.
  exists p, wc1, wc2, e.
  assert (Hresp : resp = mkResponse 1 "birpc: can't find method foo").
  { assert (Hreq : req = mkRequest 1 "foo").
    { pose proof H1 as H1'. vm_compute in H1'. injection H1' as _ Hw.
      rewrite <- Hw in H2. vm_compute in H2. congruence. }
    subst req. vm_compute in H3. injection H3 as <-.
    vm_compute in H4. congruence. }
  subst resp. auto.
Defined.

(** X3.  A call for a method the peer serves.  The caller writes a request; the
    peer runs the handler on it and writes a response that carries the text
    of the error the handler returned, or the empty text; the caller reads
    the response and decodes the body the peer wrote.  [Call] then returns
    the handler's error text as a [ServerError], leaving the reply alone,
    or no error, with the handler's reply in the reply (a [nil] reply stays
    [nil]).  An error whose text is empty cannot be told from success: the
    caller gets no error. *)
Theorem handler_outcome_reaches_caller (wc ws : World) (m : string) (a r : value)
    (h : handler) (argv hreply : value) (herr : option error)
    (prefer_ctx : bool) (wres : option error) :
  mutex (cl wc) = false ->
  sending (cl wc) = false ->
  shutdown (cl wc) || closing (cl wc) = false ->
  seq (cl wc) <> 0 ->
  let text := match herr with Some e => error_string e | None => "" end in
  exists p wc1 req ws1 resp e wc2,
    Call_start m a r None wc = Ok p wc1
    /\ written_requests (log wc1) = (written_requests (log wc) ++ [(req, a)])%list
    /\ handleRequest req h argv hreply herr None ws = Ok tt ws1
    /\ written_responses (log ws1) = (written_responses (log ws) ++ [(resp, hreply)])%list
    /\ (read_frame (mkFrame (mkRequest 0 "") resp (mkOracle None hreply VNil None None)) >>
        Call_wait p CtxLive prefer_ctx wres) wc1 = Ok e wc2
    /\ e = (if bool_decide (text = "") then None else Some (ServerError text))
    /\ call_Reply <$> calls wc2 !! p
       = Some (if bool_decide (text = "") then
                 if bool_decide (r = VNil) then r else hreply
               else r).
Proof.
  intros Hm Hs Hc Hnz text.
  set (s := seq (cl wc)) in *.
  set (resp := mkResponse s text).
  destruct (Call_start_then_response wc m a r
              (mkFrame (mkRequest 0 "") resp (mkOracle None hreply VNil None None))
              prefer_ctx wres Hm Hs Hc eq_refl eq_refl)
    as (wc1 & l & wc2 & Hstart & Hlog1 & Hrun & Hk' & _ & _ & _).
  cbn [f_resp f_oracle o_body_err o_body] in Hrun, Hk'.
  rewrite response_outcome_Error in Hrun.
  exists (fresh (dom (calls wc))), wc1, (mkRequest s m).
  eexists. exists resp. eexists. exists wc2.
  split; [exact Hstart|].
  split; [rewrite Hlog1, written_requests_app; reflexivity|].
  split; [apply handleRequest_call; exact Hnz|].
  split.
  { world_simpl. rewrite written_responses_app. reflexivity. }
  split; [exact Hrun|].
  split; [reflexivity|].
  rewrite Hk'. cbn [fmap option_fmap option_map].
  rewrite response_outcome_Reply. reflexivity.
Qed.

(** The handler of a fresh peer fails with [errors.New("")]: the caller's
    [Call] returns no error. *)
Lemma handler_outcome_reaches_caller_witness :
  exists p wc1 wc2,
    Call_start "add" (VInt 1) (VInt 0) None new_client_world = Ok p wc1
    /\ (read_frame (mkFrame (mkRequest 0 "") (mkResponse 1 "")
                      (mkOracle None (VInt 3) VNil None None)) >>
        Call_wait p CtxLive false None) wc1 = Ok None wc2
    /\ call_Reply <$> calls wc2 !! p = Some (VInt 3).
Proof.
  destruct (handler_outcome_reaches_caller new_client_world serving_world "add"
              (VInt 1) (VInt 0) add_handler (VInt 1) (VInt 3) (Some (ErrorsNew ""))
              false None)
    as (p & wc1 & req & ws1 & resp & e & wc2 & H1 & H2 & H3 & H4 & H5 & H6 & H7);
    try reflexivity; try discriminate.
  exists p, wc1, wc2.
  assert (Hresp : resp = mkResponse 1 "").
  { assert (Hreq : req = mkRequest 1 "add").
    { pose proof H1 as H1'. vm_compute in H1'. injection H1' as _ Hw.
      rewrite <- Hw in H2. vm_compute in H2. congruence. }
    subst req. vm_compute in H3. injection H3 as <-.
    vm_compute in H4. congruence. }
  subst resp. cbn in H6. subst e. auto.
Defined.

(** ** Calls on a client that is closed *)

(** X4.  [Call] on a client that is closing or shut down returns [ErrShutdown]:
    the call is completed by [send] itself and delivered on the channel of
    [Call]; nothing is written, the sequence counter does not move and the
    pending table is as before. *)
Theorem Call_on_closed_client (w : World) (m : string) (a r : value)
    (prefer_ctx : bool) (wres wres_cancel : option error) :
  mutex (cl w) = false ->
  sending (cl w) = false ->
  shutdown (cl w) || closing (cl w) = true ->
  exists w',
    Client_Call CtxLive prefer_ctx m a r wres wres_cancel w = Ok (Some ErrShutdown) w'
    /\ cl w' = cl w
    /\ written_requests (log w') = written_requests (log w)
    /\ assigned (log w') = assigned (log w)
    /\ delivery_count (fresh (dom (calls w))) (log w')
       = S (delivery_count (fresh (dom (calls w))) (log w)).
Proof.
  intros Hm Hs Hc.
  set (p := fresh (dom (calls w))). set (ch := fresh (dom (chans w))).
  unfold Client_Call, bind at 1, Call_start, bind at 1, make_chan.
  rewrite (Go_with_chan m a r ch (mkChan 2 []) wres); world_simpl;
    [|apply lookup_insert_eq|discriminate].
  unfold bind at 1.
  rewrite (send_refused _ _ (mkCall m a r None ch 0)); world_simpl;
    [|assumption|assumption|apply lookup_insert_eq|assumption].
  cbn [call_Done]. rewrite lookup_insert_eq.
  unfold ret at 1, push_chan. rewrite lookup_insert_eq.
  cbn [chan_ready chan_buf chan_cap length Nat.ltb Nat.leb done_events app].
  rewrite insert_insert_eq.
  unfold Call_wait, bind at 1, get_call at 1. world_simpl.
  fold p. rewrite insert_insert_eq, lookup_insert_eq. world_simpl.
  cbn [with_call_Error call_Done]. rewrite lookup_insert_eq.
  unfold bind, get_call, ret. world_simpl. rewrite lookup_insert_eq.
  eexists. split; [reflexivity|]. world_simpl.
  split; [reflexivity|].
  split; [rewrite written_requests_app; cbn; apply app_nil_r|].
  split; [rewrite assigned_app; cbn; apply app_nil_r|].
  rewrite delivery_count_app. cbn. rewrite bool_decide_eq_true_2 by reflexivity.
  cbn. lia.
Qed.

(** A client whose read loop has ended. *)
Lemma Call_on_closed_client_witness :
  exists w',
    Client_Call CtxLive false "add" (VInt 1) VNil None None shut_world
    = Ok (Some ErrShutdown) w'
    /\ written_requests (log w') = written_requests (log shut_world).
Proof.
  destruct (Call_on_closed_client shut_world "add" (VInt 1) VNil false None None)
    as (w' & Hrun & _ & Hw & _); try reflexivity.
  exists w'. split; [exact Hrun | exact Hw].
Defined.

(** ** A response that arrives after the call was cancelled *)

(** X5.  A call that was sent waits in the select of [Call] when its context is
    cancelled: [Call] returns the error of the context and takes the call
    out of the pending table.  A response that arrives afterwards under the
    sequence number of the call finds no call: its body is read and
    dropped, and the cancelled call is neither changed nor completed. *)
Theorem cancelled_call_ignores_late_response (w : World) (p : nat) (k : Call) (ch : Chan)
    (e : error) (prefer_ctx : bool) (wres : option error) (f : Frame) :
  mutex (cl w) = false ->
  sending (cl w) = false ->
  shutdown (cl w) || closing (cl w) = false ->
  calls w !! p = Some k ->
  call_seq k <> 0 ->
  call_seq k <> seq (cl w) ->
  pending (cl w) !! call_seq k = Some p ->
  chans w !! call_Done k = Some ch ->
  chan_cap ch <> O ->
  chan_buf ch = [] ->
  req_Method (f_req f) = "" ->
  resp_Seq (f_resp f) = call_seq k ->
  exists w1 r w2,
    Call_wait p (CtxDone e) prefer_ctx wres w = Ok (Some e) w1
    /\ pending (cl w1) !! call_seq k = None
    /\ read_frame f w1 = Ok r w2
    /\ calls w2 !! p = Some k
    /\ done_count p (log w2) = done_count p (log w)
    /\ In (EvReadResponseBody true) (log w2).
Proof.
  intros Hm Hs Hc Hk Hnz Hne Hp Hch Hcap Hbuf Hf Hseq.
  set (s := call_seq k) in *.
  set (q := fresh (dom (calls w))).
  assert (Hpq : p <> q).
  { intros ->. apply (is_fresh (dom (calls w))). apply elem_of_dom. eauto. }
  assert (Hsz : (s =? 0) = false) by (apply Z.eqb_neq; exact Hnz).
  (* the select *)
  assert (Hwait : Call_wait p (CtxDone e) prefer_ctx wres w = Call_cancel p e wres w).
  { unfold Call_wait, bind at 1, get_call at 1. rewrite Hk, Hch, Hbuf. reflexivity. }
  rewrite Hwait, (Call_cancel_eq p k e wres w Hm Hk). cbv zeta. fold s.
  rewrite Hsz, Hp. cbn [negb andb].
  rewrite bool_decide_eq_true_2 by eauto.
  set (w0 := set_log _ _).
  assert (Hgo : Go cancel_method (VCancelArgs s) VNil (Some (call_Done k)) wres w0 =
                (send q wres >> ret q)
                  (set_calls (<[q := mkCall cancel_method (VCancelArgs s) VNil None
                                         (call_Done k) 0]> (calls w0)) w0)).
  { apply (Go_with_chan _ _ _ _ ch); [subst w0; world_simpl; exact Hch | exact Hcap]. }
  unfold bind at 1. rewrite Hgo. clear Hgo. unfold bind at 1.
  set (kq := mkCall cancel_method (VCancelArgs s) VNil None (call_Done k) 0).
  set (w0' := set_calls _ w0).
  assert (Hm0 : mutex (cl w0') = false) by (subst w0' w0; destruct_world w; reflexivity).
  assert (Hs0 : sending (cl w0') = false) by (subst w0' w0; destruct_world w; reflexivity).
  assert (Hc0 : shutdown (cl w0') || closing (cl w0') = false)
    by (subst w0' w0; destruct_world w; exact Hc).
  assert (Hq0 : calls w0' !! q = Some kq) by (subst w0' w0; world_simpl; apply lookup_insert_eq).
  assert (Hsend : exists w1,
    send q wres w0' = Ok tt w1
    /\ mutex (cl w1) = false
    /\ pending (cl w1) !! s = None
    /\ calls w1 !! p = Some k
    /\ (forall p', done_count p' (log w1)
                   = (done_count p' (log w)
                      + match wres with Some _ => if bool_decide (q = p') then 1 else 0
                        | None => 0 end)%nat)).
  { assert (Hseq0 : seq (cl w0') = seq (cl w))
      by (subst w0' w0; destruct_world w; reflexivity).
    assert (Hpend0 : pending (cl w0') = delete s (pending (cl w)))
      by (subst w0' w0; destruct_world w; reflexivity).
    assert (Hcalls0 : calls w0' !! p = Some k).
    { subst w0' w0. world_simpl. rewrite lookup_insert_ne by auto. exact Hk. }
    assert (Hlog0 : log w0' = (log w ++ [EvLock MuMutex; EvUnlock MuMutex])%list)
      by (subst w0' w0; reflexivity).
    destruct wres as [err|].
    - rewrite (send_write_failed w0' q kq Hm0 Hs0 Hq0 err Hc0 eq_refl).
      eexists. split; [reflexivity|]. world_simpl.
      split; [exact Hm0|].
      split.
      { rewrite Hseq0, Hpend0, lookup_delete_ne by auto. apply lookup_delete_eq. }
      split; [rewrite lookup_insert_ne by auto; exact Hcalls0|].
      intros p'. rewrite Hlog0, !done_count_app, done_count_done_events. cbn.
      destruct (bool_decide (q = p')); lia.
    - rewrite (send_written w0' q kq Hm0 Hs0 Hq0 Hc0 eq_refl).
      eexists. split; [reflexivity|]. world_simpl.
      split; [exact Hm0|].
      split.
      { rewrite Hseq0, Hpend0, lookup_insert_ne by auto. apply lookup_delete_eq. }
      split; [rewrite lookup_insert_ne by auto; exact Hcalls0|].
      intros p'. rewrite Hlog0, !done_count_app. cbn. lia. }
  destruct Hsend as (w1 & -> & Hm1 & Hp1 & Hk1 & Hd1).
  unfold ret at 1. unfold ret at 1.
  exists w1.
  assert (Hread : readResponse (f_resp f) (o_body_err (f_oracle f)) (o_body (f_oracle f)) w1 = _)
    by (apply readResponse_unmatched; [exact Hm1 | rewrite Hseq; exact Hp1]).
  unfold read_frame. rewrite Hf, bool_decide_eq_true_2 by reflexivity. cbn [negb].
  unfold bind at 1. rewrite Hread.
  assert (Hcount : forall l : list Event,
    (forall x, In x l -> x = EvLock MuMutex \/ x = EvUnlock MuMutex
                         \/ x = EvReadResponseBody true \/ exists msg, x = EvDebug msg) ->
    done_count p (log w1 ++ l) = done_count p (log w)).
  { intros l Hl. rewrite done_count_app, Hd1.
    replace (match wres with Some _ => if bool_decide (q = p) then 1%nat else 0%nat
             | None => 0%nat end) with 0%nat
      by (destruct wres; [rewrite bool_decide_eq_false_2 by auto|]; reflexivity).
    assert (H0 : done_count p l = O).
    { clear -Hl. induction l as [|x l IH]; [reflexivity|].
      specialize (IH (fun y Hy => Hl y (or_intror Hy))).
      destruct (Hl x (or_introl eq_refl)) as [->|[->|[->|[msg ->]]]]; cbn; auto. }
    rewrite H0. lia. }
  destruct (o_body_err (f_oracle f)) as [be|].
  - do 2 eexists. split; [reflexivity|]. split; [exact Hp1|].
    split; [reflexivity|]. world_simpl.
    split; [exact Hk1|].
    rewrite <- app_assoc.
    split; [apply Hcount; intros x Hx; cbn in Hx; intuition eauto|].
    apply in_or_app. right. cbn. auto.
  - do 2 eexists. split; [reflexivity|]. split; [exact Hp1|].
    split; [reflexivity|]. world_simpl.
    split; [exact Hk1|].
    split; [apply Hcount; intros x Hx; cbn in Hx; intuition eauto|].
    apply in_or_app. right. cbn. auto.
Qed.

(** The call of [sent_world] is cancelled, then its response arrives. *)
Lemma cancelled_call_ignores_late_response_witness :
  exists w1 r w2,
    Call_wait O (CtxDone Canceled) true None sent_world = Ok (Some Canceled) w1
    /\ read_frame (response_frame 1 (VInt 3)) w1 = Ok r w2
    /\ calls w2 !! O = Some (mkCall "add" (VInt 1) VNil None O 1).
Proof.
  destruct (cancelled_call_ignores_late_response sent_world O
              (mkCall "add" (VInt 1) VNil None O 1) (mkChan 2 []) Canceled true None
              (response_frame 1 (VInt 3)))
    as (w1 & r & w2 & H1 & _ & H2 & H3 & _);
    try reflexivity; try discriminate.
  exists w1, r, w2. auto.
Defined.

(** ** The sequence counter at the end of its range *)

(** [Go] on an engine that accepts the request, with a channel of its own. *)
Lemma Go_sent (w : World) (m : string) (a r : value) :
  mutex (cl w) = false ->
  sending (cl w) = false ->
  shutdown (cl w) || closing (cl w) = false ->
  let s := seq (cl w) in
  let p := fresh (dom (calls w)) in
  let ch := fresh (dom (chans w)) in
  Go m a r None None w =
  Ok p (set_log (log w ++ [EvLock MuSending; EvLock MuMutex; EvRegister s p;
                           EvUnlock MuMutex; EvWriteRequest (mkRequest s m) a;
                           EvUnlock MuSending])
          (set_calls (<[p := mkCall m a r None ch s]> (calls w))
             (set_chans (<[ch := mkChan 10 []]> (chans w))
                (set_cl (with_request (mkRequest s m)
                           (with_pending (<[s := p]> (pending (cl w)))
                              (with_seq (wrap64 (s + 1)) (cl w)))) w)))).
Proof.
  intros Hm Hs Hc s p ch. rewrite Go_new_chan. unfold bind at 1.
  rewrite (send_written _ _ (mkCall m a r None ch 0)); world_simpl;
    [|assumption|assumption|apply lookup_insert_eq|assumption|reflexivity].
  subst s p ch. destruct_world w. unfold_m.
  rewrite insert_insert_eq. reflexivity.
Qed.

(** X6.  The counter is a [uint64] and is not guarded.  When it stands at
    2^64 - 1, the next call is sent with that number and the counter wraps
    to 0; the call after that is registered and written with sequence
    number 0, the number that marks a notification.  A peer that serves the
    method runs the handler and writes no response for such a request. *)
Theorem sequence_counter_wraps_to_zero (w : World) (m1 m2 : string)
    (a1 r1 a2 r2 : value) :
  mutex (cl w) = false ->
  sending (cl w) = false ->
  shutdown (cl w) || closing (cl w) = false ->
  seq (cl w) = 2 ^ 64 - 1 ->
  (exists p1 p2 w',
     (let* p1 := Go m1 a1 r1 None None in
      let* p2 := Go m2 a2 r2 None None in
      ret (p1, p2)) w = Ok (p1, p2) w'
     /\ written_requests (log w')
        = (written_requests (log w)
           ++ [(mkRequest (2 ^ 64 - 1) m1, a1); (mkRequest 0 m2, a2)])%list
     /\ pending (cl w') !! 0 = Some p2
     /\ call_seq <$> calls w' !! p2 = Some 0
     /\ seq (cl w') = 1)
  /\ (forall (ws : World) (h : handler) (argv hreply : value) (herr wres : option error),
        exists ws', handleRequest (mkRequest 0 m2) h argv hreply herr wres ws = Ok tt ws'
          /\ written_responses (log ws') = written_responses (log ws)).
Proof.
  intros Hm Hs Hc Hseq. split.
  - unfold bind at 1. rewrite (Go_sent w m1 a1 r1 Hm Hs Hc). cbv zeta.
    set (w1 := set_log _ _).
    assert (Hseq1 : seq (cl w1) = 0).
    { subst w1. world_simpl. rewrite Hseq. reflexivity. }
    unfold bind at 1. rewrite (Go_sent w1 m2 a2 r2); cycle 1.
    { subst w1. world_simpl. exact Hm. }
    { subst w1. world_simpl. exact Hs. }
    { subst w1. world_simpl. exact Hc. }
    cbv zeta. rewrite Hseq1. unfold ret.
    do 3 eexists. split; [reflexivity|]. world_simpl.
    split.
    { subst w1. world_simpl. rewrite Hseq, <- !app_assoc, !written_requests_app.
      reflexivity. }
    split; [apply lookup_insert_eq|].
    split; [rewrite lookup_insert_eq; reflexivity|reflexivity].
  - intros ws h argv hreply herr wres.
    rewrite handleRequest_notification by reflexivity.
    eexists. split; [reflexivity|]. world_simpl.
    rewrite written_responses_app. cbn. apply app_nil_r.
Qed.

(** A client that has handed out every sequence number but the last. *)
Lemma sequence_counter_wraps_to_zero_witness :
  exists p1 p2 w',
    (let* p1 := Go "add" (VInt 1) VNil None None in
     let* p2 := Go "add" (VInt 2) VNil None None in
     ret (p1, p2)) (set_cl (with_seq (2 ^ 64 - 1) (cl new_client_world)) new_client_world)
    = Ok (p1, p2) w'
    /\ pending (cl w') !! 0 = Some p2.
Proof.
  destruct (sequence_counter_wraps_to_zero
              (set_cl (with_seq (2 ^ 64 - 1) (cl new_client_world)) new_client_world)
              "add" "add" (VInt 1) VNil (VInt 2) VNil)
    as [(p1 & p2 & w' & Hrun & _ & Hp & _) _]; try reflexivity.
  exists p1, p2, w'. auto.
Defined.

(** ** Sequence numbers on the wire *)

Lemma call_seqs_app (l1 l2 : list Event) :
  call_seqs (l1 ++ l2) = (call_seqs l1 ++ call_seqs l2)%list.
Proof. unfold call_seqs. rewrite written_requests_app, List.map_app, List.filter_app. reflexivity. Qed.

Lemma nonzero_app (l1 l2 : list Z) : nonzero (l1 ++ l2) = (nonzero l1 ++ nonzero l2)%list.
Proof. apply List.filter_app. Qed.

Lemma call_seqs_done_events (p : nat) (b : bool) : call_seqs (done_events p b) = [].
Proof. destruct b; reflexivity. Qed.

(** A step that logs events which are neither a registration nor a request. *)
Lemma wire_same (w w' : World) (l : list Event) :
  log w' = (log w ++ l)%list ->
  call_seqs l = [] ->
  assigned l = [] ->
  wire_inv w -> wire_inv w'.
Proof.
  unfold wire_inv. intros -> Hc Ha Hw.
  rewrite call_seqs_app, assigned_app, nonzero_app, Hc, Ha, Hw. reflexivity.
Qed.

Lemma wire_heap_only {A} (m : M A) : heap_only m -> preserves wire_inv m.
Proof.
  intros H w. destruct (H w) as (_ & Hlog & _).
  apply (wire_same w _ []); rewrite ?Hlog, ?app_nil_r; reflexivity.
Qed.

Lemma wire_emit (e : Event) :
  match e with EvRegister _ _ | EvWriteRequest _ _ => False | _ => True end ->
  preserves wire_inv (emit e).
Proof.
  intros He w. apply (wire_same w _ [e]); try reflexivity;
    destruct e; try reflexivity; destruct He.
Qed.

Lemma wire_modify_cl (f : Client -> Client) : preserves wire_inv (modify_cl f).
Proof. intros w Hw. exact Hw. Qed.

Lemma wire_Lock (m : Mutex) : preserves wire_inv (Lock m).
Proof.
  intros w Hw. unfold Lock. destruct (held m (cl w)); [exact Hw|].
  revert Hw. apply (wire_same w _ [EvLock m]); destruct m; reflexivity.
Qed.

Lemma wire_Unlock (m : Mutex) : preserves wire_inv (Unlock m).
Proof.
  intros w Hw. unfold Unlock. destruct (held m (cl w)); [|exact Hw].
  revert Hw. apply (wire_same w _ [EvUnlock m]); destruct m; reflexivity.
Qed.

Lemma wire_done (p : nat) : preserves wire_inv (done p).
Proof.
  apply preserves_bind; [apply wire_heap_only, heap_only_get_call|]. intros c w.
  apply (wire_same w _ (done_events p (chan_ready (chans w !! call_Done c))));
    try reflexivity; [apply call_seqs_done_events | apply assigned_done_events].
Qed.

Create HintDb wire.

#[local] Hint Resolve preserves_ret preserves_panic preserves_get_cl
  wire_Lock wire_Unlock wire_done wire_modify_cl : wire.

#[local] Hint Extern 1 (preserves wire_inv (emit _)) =>
  apply wire_emit; exact I : wire.

#[local] Hint Extern 1 (preserves wire_inv (addHandler _ _ _)) =>
  apply preserves_addHandler;
    [intros; apply wire_emit; exact I | intros ? ? H; exact H] : wire.

#[local] Hint Extern 2 (preserves wire_inv _) =>
  apply wire_heap_only; solve [auto with heap] : wire.

Ltac wire_close Hw :=
  unfold wire_inv in *; cbn [log] in *;
  rewrite ?call_seqs_app, ?assigned_app, ?nonzero_app, ?call_seqs_done_events,
    ?assigned_done_events, ?app_nil_r; cbn;
  rewrite ?app_nil_r; try rewrite Hw; try reflexivity.

(** [send] writes the request of a call with the number it has just handed
    out. *)
Lemma wire_send (call : nat) (wres : option error) : preserves wire_inv (send call wres).
Proof.
  unfold send. apply preserves_bind; [apply wire_Lock|]. intros _.
  apply preserves_defer; [apply wire_Unlock|].
  intros w Hw. destruct_world w. unfold send_register, send_write, send_failed. unfold_m.
  destruct mutex0; [exact Hw|].
  destruct (shutdown0 || closing0).
  { destruct (calls0 !! call) as [k|]; [rewrite lookup_insert_eq|]; wire_close Hw. }
  destruct (calls0 !! call) as [k|] eqn:Hk; [|wire_close Hw].
  destruct (negb (_ =? 0)).
  { rewrite Hk, lookup_insert_eq. wire_close Hw. }
  rewrite Hk, lookup_insert_eq.
  destruct wres as [err|]; rewrite ?lookup_insert_eq, ?lookup_insert_eq;
    wire_close Hw; destruct (seq0 =? 0); reflexivity.
Qed.

(** [Notify] writes a request with sequence number 0. *)
Lemma wire_Notify (method : string) (args : value) (wres : option error) :
  preserves wire_inv (Notify method args wres).
Proof.
  unfold Notify. apply preserves_bind; [apply wire_Lock|]. intros _.
  apply preserves_defer; [apply wire_Unlock|].
  intros w Hw. destruct_world w. unfold_m.
  destruct (shutdown0 || closing0); [exact Hw|]. wire_close Hw.
Qed.

#[local] Hint Resolve wire_send wire_Notify : wire.

Lemma wire_Go (method : string) (args reply : value) (done_ch : option nat)
    (wres : option error) :
  preserves wire_inv (Go method args reply done_ch wres).
Proof. unfold Go. preserves_steps wire. Qed.

Lemma wire_Call_wait (call : nat) (ctx : ctx_state) (prefer_ctx : bool)
    (wres : option error) :
  preserves wire_inv (Call_wait call ctx prefer_ctx wres).
Proof.
  apply preserves_Call_wait.
  - intros p. auto with wire.
  - intros chs w Hw. exact Hw.
  - intros e. unfold Call_cancel. preserves_steps wire. apply wire_Go.
Qed.

Lemma wire_handleRequest (req : Request) (h : handler) (argv hreply : value)
    (herr wres : option error) :
  preserves wire_inv (handleRequest req h argv hreply herr wres).
Proof. unfold handleRequest. preserves_steps wire. Qed.

Lemma wire_exec_op (o : Op) : preserves wire_inv (exec_op o).
Proof.
  destruct o; cbn [exec_op];
    unfold Handle, SetBlocking, Call_start, Close, read_frame, readResponse,
      readLoop_exit, readLoop_finish, close_disconnect, terminate_calls;
    preserves_steps wire;
    auto using wire_Go, wire_Call_wait, wire_handleRequest.
  apply preserves_readRequest; intros; auto using wire_handleRequest with wire.
Qed.

Lemma nonzero_seqs_small (n : nat) :
  nonzero (List.map Z.of_nat (List.seq 1 n)) = List.map Z.of_nat (List.seq 1 n).
Proof.
  unfold nonzero. apply forallb_filter_id. apply forallb_forall. intros s Hs.
  apply in_map_iff in Hs. destruct Hs as (i & <- & Hi). apply in_seq in Hi.
  apply negb_true_iff, Z.eqb_neq. lia.
Qed.

(** X7.  The peer sees the calls of a client numbered in the order in which they
    were made.  Take a client whose counter is 1 and that has written
    nothing yet, as [NewClientWithCodec] makes it, and any execution on it.
    The requests handed to [WriteRequest] that carry a sequence number other
    than 0 carry the numbers [send] handed out, in the same order, cancel
    requests included; as long as fewer than 2^64 numbers were handed out,
    these are 1, 2, 3, ... without gap or repetition, one for each number
    handed out. *)
Theorem requests_are_numbered_in_order (w0 : World) (ops : list Op) :
  seq (cl w0) = 1 ->
  assigned (log w0) = [] ->
  written_requests (log w0) = [] ->
  let w := world_of (exec ops w0) in
  call_seqs (log w) = nonzero (assigned (log w))
  /\ (Z.of_nat (length (assigned (log w))) < 2 ^ 64 ->
      call_seqs (log w) = List.map Z.of_nat (List.seq 1 (length (call_seqs (log w))))
      /\ length (call_seqs (log w)) = length (assigned (log w))).
Proof.
  intros Hseq Hlog Hreq w.
  assert (Hwire : wire_inv w).
  { apply (preserves_for_each wire_inv exec_op ops); [apply wire_exec_op|].
    unfold wire_inv, call_seqs. rewrite Hlog, Hreq. reflexivity. }
  split; [exact Hwire|]. intros Hbound.
  assert (Hinv : counter_inv w).
  { apply counter_exec. exists O. rewrite Hseq, Hlog. split; reflexivity. }
  destruct Hinv as (n & Hn & _).
  assert (Hlen : length (assigned (log w)) = n) by (rewrite Hn; apply seqs_upto_length).
  rewrite Hlen in *. unfold wire_inv in Hwire.
  rewrite Hwire, Hn, (seqs_upto_small n Hbound), nonzero_seqs_small.
  rewrite length_map, length_seq. split; reflexivity.
Qed.

(** Two calls with a notification in between on a fresh client: three
    requests are written, with the numbers 1, 0 and 2. *)
Lemma requests_are_numbered_in_order_witness :
  call_seqs (log (world_of (exec two_calls_and_a_notification new_client_world))) = [1; 2]
  /\ List.map (fun ra => req_Seq (fst ra))
       (written_requests (log (world_of (exec two_calls_and_a_notification new_client_world))))
     = [1; 0; 2].
Proof.
  destruct (requests_are_numbered_in_order new_client_world two_calls_and_a_notification)
    as (_ & H); [reflexivity | reflexivity | reflexivity |].
  destruct H as (H & Hl); [vm_compute; reflexivity|].
  split; [|vm_compute; reflexivity].
  rewrite H, Hl. vm_compute. reflexivity.
Defined.

(** ** Responses find their calls *)

Ltac world_simpl_in H :=
  cbn [calls chans registries inbound cl log
       mutex sending request seq pending closing shutdown server codec handlers
       disconnect State blocking
       set_cl set_log set_calls set_chans set_registries set_inbound
       with_mutex with_sending with_request with_seq with_pending with_closing
       with_shutdown with_server with_handlers with_disconnect with_State
       with_blocking with_held held world_of] in H.

Lemma keeps_seq_refl (w : World) : keeps_seq w w.
Proof. split; [reflexivity | eauto]. Qed.

Lemma keeps_seq_trans (w1 w2 w3 : World) :
  keeps_seq w1 w2 -> keeps_seq w2 w3 -> keeps_seq w1 w3.
Proof.
  intros [Hp1 Hc1] [Hp2 Hc2]. split; [etransitivity; eassumption|].
  intros p k Hk. destruct (Hc1 p k Hk) as (k2 & Hk2 & Hs2).
  destruct (Hc2 p k2 Hk2) as (k3 & Hk3 & Hs3). exists k3. split; [exact Hk3 | congruence].
Qed.

Lemma pending_keyed_keeps (w0 w : World) :
  pending_keyed w0 -> keeps_seq w0 w -> pending_keyed w.
Proof.
  intros H0 [Hp Hc] s p Hsp.
  pose proof (lookup_weaken _ _ _ _ Hsp Hp) as Hsp0.
  destruct (H0 s p Hsp0) as (k & Hk & Hs).
  destruct (Hc p k Hk) as (k' & Hk' & Hs'). exists k'. split; [exact Hk' | congruence].
Qed.

(** A step that keeps the calls and the pending table as they are. *)
Lemma keeps_same {A} (w0 : World) (m : M A) :
  (forall w, calls (world_of (m w)) = calls w
             /\ pending (cl (world_of (m w))) = pending (cl w)) ->
  preserves (keeps_seq w0) m.
Proof.
  intros H w [Hp Hc]. destruct (H w) as [Hcalls Hpend]. split.
  - rewrite Hpend. exact Hp.
  - rewrite Hcalls. exact Hc.
Qed.

Lemma keeps_Lock (w0 : World) (m : Mutex) : preserves (keeps_seq w0) (Lock m).
Proof.
  apply keeps_same. intros w. unfold Lock.
  destruct (held m (cl w)); [auto|]. destruct m; auto.
Qed.

Lemma keeps_Unlock (w0 : World) (m : Mutex) : preserves (keeps_seq w0) (Unlock m).
Proof.
  apply keeps_same. intros w. unfold Unlock.
  destruct (held m (cl w)); [|auto]. destruct m; auto.
Qed.

Lemma keeps_emit (w0 : World) (e : Event) : preserves (keeps_seq w0) (emit e).
Proof. apply keeps_same. auto. Qed.

Lemma keeps_modify_cl (w0 : World) (f : Client -> Client) :
  (forall c, pending (f c) ⊆ pending c) -> preserves (keeps_seq w0) (modify_cl f).
Proof.
  intros Hf w [Hp Hc]. split; [|exact Hc]. cbn. etransitivity; [apply Hf | exact Hp].
Qed.

Lemma keeps_get_call (w0 : World) (p : nat) : preserves (keeps_seq w0) (get_call p).
Proof. apply keeps_same. intros w. unfold get_call. destruct (calls w !! p); auto. Qed.

Lemma keeps_new_call (w0 : World) (k : Call) : preserves (keeps_seq w0) (new_call k).
Proof.
  intros w [Hp Hc]. split; [exact Hp|]. intros p k0 Hk0.
  destruct (Hc p k0 Hk0) as (k' & Hk' & Hs). exists k'. split; [|exact Hs].
  cbn. rewrite lookup_insert_ne; [exact Hk'|].
  intros <-. apply (is_fresh (dom (calls w))). apply elem_of_dom. eauto.
Qed.

Lemma keeps_make_chan (w0 : World) (n : nat) : preserves (keeps_seq w0) (make_chan n).
Proof. apply keeps_same. auto. Qed.

Lemma keeps_chan_capacity (w0 : World) (a : nat) :
  preserves (keeps_seq w0) (chan_capacity a).
Proof. apply keeps_same. auto. Qed.

Lemma keeps_recv (w0 : World) (ch : nat) : preserves (keeps_seq w0) (recv ch).
Proof.
  apply keeps_same. intros w. unfold recv.
  destruct (chans w !! ch) as [[n [|p rest]]|]; auto.
Qed.

Lemma keeps_addHandler (w0 : World) (reg : nat) (mname : string) (h : iface) :
  preserves (keeps_seq w0) (addHandler reg mname h).
Proof.
  apply preserves_addHandler; [intros; apply keeps_emit | intros ? ? H; exact H].
Qed.

Lemma keeps_pending_Start (w0 : World) (s : Z) : preserves (keeps_seq w0) (pending_Start s).
Proof. apply keeps_same. intros w. unfold pending_Start. destruct (s =? 0); auto. Qed.

Lemma keeps_pending_Cancel (w0 : World) (s : Z) :
  preserves (keeps_seq w0) (pending_Cancel s).
Proof. apply keeps_same. auto. Qed.

(** A call is updated in place without touching its sequence field. *)
Lemma keeps_update_call (w0 : World) (p : nat) (upd : Call -> Call) :
  (forall k, call_seq (upd k) = call_seq k) ->
  preserves (keeps_seq w0) (let* k := get_call p in put_call p (upd k)).
Proof.
  intros Hupd w [Hp Hc]. unfold bind, get_call, put_call.
  destruct (calls w !! p) as [k|] eqn:Hk; [|split; assumption].
  split; [exact Hp|]. intros q k0 Hk0. cbn.
  destruct (Hc q k0 Hk0) as (k' & Hk' & Hs).
  destruct (decide (p = q)) as [->|Hne].
  - rewrite lookup_insert_eq. exists (upd k). split; [reflexivity|].
    rewrite Hupd. congruence.
  - rewrite lookup_insert_ne by exact Hne. eauto.
Qed.

Lemma keeps_set_call_Error (w0 : World) (p : nat) (e : option error) :
  preserves (keeps_seq w0) (set_call_Error p e).
Proof. apply keeps_update_call. intros []; reflexivity. Qed.

Lemma keeps_set_call_Reply (w0 : World) (p : nat) (v : value) :
  preserves (keeps_seq w0) (set_call_Reply p v).
Proof. apply keeps_update_call. intros []; reflexivity. Qed.

Lemma keeps_done (w0 : World) (p : nat) : preserves (keeps_seq w0) (done p).
Proof.
  apply preserves_bind; [apply keeps_get_call|]. intros c.
  apply keeps_same. auto.
Qed.

Create HintDb keeps.

#[local] Hint Resolve preserves_ret preserves_panic preserves_get_cl
  keeps_Lock keeps_Unlock keeps_emit keeps_get_call keeps_new_call keeps_make_chan
  keeps_chan_capacity keeps_recv keeps_addHandler keeps_pending_Start
  keeps_pending_Cancel keeps_set_call_Error keeps_set_call_Reply keeps_done : keeps.

#[local] Hint Extern 1 (preserves (keeps_seq _) (modify_cl _)) =>
  apply keeps_modify_cl; intros []; cbn;
  first [reflexivity | apply delete_subseteq] : keeps.

(** As [preserves_steps], with the updates of a call left whole. *)
Ltac keeps_steps :=
  repeat match goal with
    | |- preserves _ (bind _ _) => apply preserves_bind; [|intros ?]
    | |- preserves _ (defer _ _) => apply preserves_defer
    | |- preserves _ (for_each _ _) => apply preserves_for_each; intros ?
    | |- preserves _ (if _ then _ else _) => apply preserves_if
    | |- preserves _ (match ?x with _ => _ end) => destruct x
    end;
  auto with keeps.

Lemma pending_keyed_of_keeps {A} (m : M A) :
  (forall w0, preserves (keeps_seq w0) m) -> preserves pending_keyed m.
Proof.
  intros H w Hw. apply (pending_keyed_keeps w); [exact Hw|].
  apply H, keeps_seq_refl.
Qed.

(** The critical section of [send], for a call that is not in the pending
    table. *)
Lemma pending_keyed_send_register (p : nat) (k : Call) (w : World) :
  pending_keyed w ->
  calls w !! p = Some k ->
  (forall s, pending (cl w) !! s <> Some p) ->
  pending_keyed (world_of (send_register p w)).
Proof.
  intros Hw Hk Hnot. destruct_world w. unfold pending_keyed, send_register in *. unfold_m.
  cbn [cl calls pending] in *.
  assert (Hother : forall e s q,
            pending0 !! s = Some q ->
            exists k0, <[p := with_call_Error e k]> calls0 !! q = Some k0 /\ call_seq k0 = s).
  { intros e s q Hq. destruct (Hw s q Hq) as (k0 & Hk0 & Hs0).
    rewrite lookup_insert_ne; [eauto|]. intros <-. exact (Hnot s Hq). }
  destruct mutex0; [exact Hw|].
  destruct (shutdown0 || closing0).
  - rewrite Hk, lookup_insert_eq. cbn [world_of cl calls pending]. apply Hother.
  - rewrite Hk. destruct k as [km ka kr ke kd ks]. cbn [call_seq].
    destruct (ks =? 0); cbn [negb].
    + rewrite Hk. cbn [world_of cl calls pending]. intros s q Hq.
      apply lookup_insert_Some in Hq. destruct Hq as [[<- <-]|[Hne Hq]].
      * rewrite lookup_insert_eq. eexists. split; reflexivity.
      * destruct (Hw s q Hq) as (k0 & Hk0 & Hs0).
        rewrite lookup_insert_ne; [eauto|]. intros <-. exact (Hnot s Hq).
    + rewrite Hk, lookup_insert_eq. cbn [world_of cl calls pending]. apply Hother.
Qed.

Lemma pending_keyed_send (p : nat) (k : Call) (wres : option error) (w : World) :
  pending_keyed w ->
  calls w !! p = Some k ->
  (forall s, pending (cl w) !! s <> Some p) ->
  pending_keyed (world_of (send p wres w)).
Proof.
  intros Hw Hk Hnot. unfold send, bind at 1, Lock.
  destruct (held MuSending (cl w)); [exact Hw|].
  set (w1 := set_log _ _).
  assert (H1 : pending_keyed (world_of (send_register p w1)))
    by (apply (pending_keyed_send_register p k); assumption).
  assert (Hun : forall A (x : M A), preserves pending_keyed x ->
            preserves pending_keyed (Unlock MuSending >> x)).
  { intros A x Hx. apply preserves_bind; [|intros _; exact Hx].
    apply pending_keyed_of_keeps. intros w0. auto with keeps. }
  unfold defer, bind at 1.
  destruct (send_register p w1) as [[s|] w2|msg w2|w2]; cbn [world_of] in H1.
  - assert (Hrest : preserves pending_keyed
              (send_write s p >>
               match wres with Some err => send_failed s err | None => ret tt end)).
    { apply pending_keyed_of_keeps. intros w0. unfold send_write, send_failed. keeps_steps. }
    specialize (Hrest w2 H1).
    destruct ((send_write s p >> _) w2) as [[] w3|msg w3|w3]; cbn [world_of] in Hrest.
    + apply (Hun _ (ret tt)); [apply preserves_ret | exact Hrest].
    + apply (Hun _ (panic msg)); [apply preserves_panic | exact Hrest].
    + exact Hrest.
  - unfold ret at 1. apply (Hun _ (ret tt)); [apply preserves_ret | exact H1].
  - apply (Hun _ (panic msg)); [apply preserves_panic | exact H1].
  - exact H1.
Qed.

Lemma pending_keyed_alloc (w : World) (k : Call) (chs : gmap nat Chan) :
  pending_keyed w ->
  let p := fresh (dom (calls w)) in
  let w1 := set_chans chs (set_calls (<[p := k]> (calls w)) w) in
  pending_keyed w1 /\ calls w1 !! p = Some k /\ (forall s, pending (cl w1) !! s <> Some p).
Proof.
  intros Hw p w1.
  assert (Hfresh : calls w !! p = None) by (apply not_elem_of_dom, is_fresh).
  split; [|split].
  - intros s q Hq. subst w1. world_simpl. destruct (Hw s q Hq) as (k0 & Hk0 & Hs0).
    rewrite lookup_insert_ne by congruence. eauto.
  - subst w1. world_simpl. apply lookup_insert_eq.
  - subst w1. world_simpl. intros s Hs. destruct (Hw s p Hs) as (k0 & Hk0 & _). congruence.
Qed.

Lemma pending_keyed_Go (m : string) (a r : value) (d : option nat) (wres : option error) :
  preserves pending_keyed (Go m a r d wres).
Proof.
  intros w Hw. destruct d as [d|].
  - destruct (Nat.eq_dec (match chans w !! d with Some ch => chan_cap ch | None => O end) O)
      as [Hcap|Hcap].
    + rewrite (Go_unbuffered m a r d wres w Hcap). cbn [world_of].
      destruct (pending_keyed_alloc w (mkCall m a r None O 0) (chans w) Hw) as (H1 & _).
      destruct_world w. exact H1.
    + destruct (chans w !! d) as [ch|] eqn:Hd; [|congruence].
      rewrite (Go_with_chan m a r d ch wres w Hd Hcap), world_of_then_ret.
      destruct (pending_keyed_alloc w (mkCall m a r None d 0) (chans w) Hw) as (H1 & H2 & H3).
      assert (Heq : set_chans (chans w)
                      (set_calls (<[fresh (dom (calls w)) := mkCall m a r None d 0]> (calls w)) w)
                    = set_calls (<[fresh (dom (calls w)) := mkCall m a r None d 0]> (calls w)) w)
        by (destruct_world w; reflexivity).
      rewrite Heq in *.
      apply (pending_keyed_send _ _ wres _ H1 H2 H3).
  - rewrite (Go_new_chan m a r wres w), world_of_then_ret.
    destruct (pending_keyed_alloc w (mkCall m a r None (fresh (dom (chans w))) 0)
                (<[fresh (dom (chans w)) := mkChan 10 []]> (chans w)) Hw)
      as (H1 & H2 & H3).
    apply (pending_keyed_send _ _ wres _ H1 H2 H3).
Qed.

(** The cancellation branch of [Call]: the entry under the sequence number
    of the call goes, so a call that was not sent may be stamped. *)
Lemma pending_keyed_Call_cancel (call : nat) (e : error) (wres : option error) :
  preserves pending_keyed (Call_cancel call e wres).
Proof.
  intros w Hw. unfold Call_cancel, bind at 1, Lock. cbn [held].
  destruct (mutex (cl w)) eqn:Hm; [exact Hw|].
  set (w1 := set_log _ _).
  assert (H1 : pending_keyed w1) by exact Hw.
  unfold bind at 1, get_call at 1.
  change (calls w1) with (calls w).
  destruct (calls w !! call) as [k|] eqn:Hk; [|exact H1].
  unfold bind at 1, get_cl at 1. unfold bind at 1, modify_cl at 1.
  set (s := call_seq k).
  set (ok := bool_decide (is_Some (pending (cl w1) !! s))).
  set (w2 := set_cl _ w1).
  assert (H2 : pending_keyed w2).
  { intros s' q Hq. subst w2 w1. world_simpl. world_simpl_in Hq.
    apply lookup_delete_Some in Hq. destruct Hq as [_ Hq]. exact (Hw s' q Hq). }
  assert (Hnot : s = 0 -> forall s', pending (cl w2) !! s' <> Some call).
  { intros Hs s' Hq. subst w2 w1. world_simpl_in Hq.
    apply lookup_delete_Some in Hq. destruct Hq as [Hne Hq].
    destruct (Hw s' call Hq) as (k0 & Hk0 & Hs0). rewrite Hk in Hk0.
    injection Hk0 as <-. subst s. congruence. }
  assert (Hk2 : calls w2 !! call = Some k) by exact Hk.
  clearbody w2 ok. clear H1 w1.
  assert (H3 : pending_keyed
                 (world_of ((if s =? 0 then set_call_seq call 1 else ret tt) w2))).
  { destruct (s =? 0) eqn:Hs; [|exact H2]. apply Z.eqb_eq in Hs.
    unfold set_call_seq, bind, get_call, put_call. rewrite Hk2. cbn [world_of].
    intros s' q Hq. world_simpl. world_simpl_in Hq.
    destruct (H2 s' q Hq) as (k0 & Hk0 & Hs0).
    rewrite lookup_insert_ne; [eauto|]. intros <-. exact (Hnot Hs s' Hq). }
  unfold bind at 1.
  destruct ((if s =? 0 then set_call_seq call 1 else ret tt) w2) as [[] w3|msg w3|w3];
    cbn [world_of] in H3; try exact H3.
  revert w3 H3.
  apply preserves_bind; [apply pending_keyed_of_keeps; intros w0; auto with keeps|].
  intros _. apply preserves_bind; [|intros _; apply preserves_ret].
  apply preserves_if; [|apply preserves_ret].
  apply preserves_bind; [apply pending_keyed_Go | intros _; apply preserves_ret].
Qed.

Lemma pending_keyed_Call_wait (call : nat) (ctx : ctx_state) (prefer_ctx : bool)
    (wres : option error) :
  preserves pending_keyed (Call_wait call ctx prefer_ctx wres).
Proof.
  apply preserves_Call_wait.
  - intros p. apply pending_keyed_of_keeps. intros w0. auto with keeps.
  - intros chs w Hw. exact Hw.
  - intros e. apply pending_keyed_Call_cancel.
Qed.

Lemma keeps_handleRequest (w0 : World) (req : Request) (h : handler)
    (argv hreply : value) (herr wres : option error) :
  preserves (keeps_seq w0) (handleRequest req h argv hreply herr wres).
Proof. unfold handleRequest. keeps_steps. Qed.

Lemma pending_keyed_exec_op (o : Op) : preserves pending_keyed (exec_op o).
Proof.
  assert (Hret : forall A (m : M A),
            preserves pending_keyed m -> preserves pending_keyed (m >> ret tt)).
  { intros A m Hm. apply preserves_bind; [exact Hm | intros ?; apply preserves_ret]. }
  destruct o; cbn [exec_op].
  - apply pending_keyed_of_keeps. intros w0. unfold Handle. keeps_steps.
  - apply pending_keyed_of_keeps. intros w0. unfold SetBlocking. keeps_steps.
  - apply Hret, pending_keyed_Go.
  - apply Hret. unfold Call_start. apply preserves_bind; [|intros ?; apply pending_keyed_Go].
    apply pending_keyed_of_keeps. intros w0. auto with keeps.
  - apply Hret, pending_keyed_Call_wait.
  - apply pending_keyed_of_keeps. intros w0. unfold Notify. keeps_steps.
  - apply pending_keyed_of_keeps. intros w0. unfold Close. keeps_steps.
  - apply pending_keyed_of_keeps. intros w0. unfold read_frame, readResponse. keeps_steps.
    apply preserves_readRequest; intros; auto using keeps_handleRequest with keeps.
  - apply pending_keyed_of_keeps. intros w0.
    unfold readLoop_exit, readLoop_finish, close_disconnect, terminate_calls. keeps_steps.
  - apply pending_keyed_of_keeps. intros w0. apply keeps_handleRequest.
  - apply pending_keyed_of_keeps. intros w0. keeps_steps.
  - apply pending_keyed_of_keeps. intros w0. keeps_steps.
Qed.

(** X8.  Responses find their calls.  On a client that starts with an empty
    pending table, whatever is done, every entry of the table points to a
    call that carries the key of the entry in its sequence field: the
    number under which its request was written.  So when the read loop
    takes a response, the only call it can complete is the one that was sent
    under the sequence number of the response. *)
Theorem response_completes_the_call_it_answers (w0 : World) (ops : list Op) :
  pending (cl w0) = ∅ ->
  let w := world_of (exec ops w0) in
  (forall s p, pending (cl w) !! s = Some p ->
     exists k, calls w !! p = Some k /\ call_seq k = s)
  /\ (forall resp bres body p,
        mutex (cl w) = false ->
        done_count p (log (world_of (readResponse resp bres body w)))
          <> done_count p (log w) ->
        exists k, calls w !! p = Some k /\ call_seq k = resp_Seq resp).
Proof.
  intros Hempty w.
  assert (Hkeyed : pending_keyed w).
  { apply (preserves_for_each pending_keyed exec_op ops); [apply pending_keyed_exec_op|].
    intros s p Hsp. rewrite Hempty, lookup_empty in Hsp. discriminate. }
  split; [exact Hkeyed|].
  intros resp bres body p Hm Hdone.
  destruct (pending (cl w) !! resp_Seq resp) as [q|] eqn:Hq.
  - destruct (Hkeyed _ _ Hq) as (k & Hk & Hs).
    destruct (readResponse_matched w resp bres body q k Hm Hq Hk) as (r & Hrun).
    rewrite Hrun in Hdone. cbn [world_of] in Hdone. world_simpl_in Hdone.
    rewrite !done_count_app, done_count_done_events in Hdone. cbn in Hdone.
    destruct (decide (q = p)) as [->|Hne]; [eauto|].
    rewrite bool_decide_eq_false_2 in Hdone by exact Hne. lia.
  - rewrite (readResponse_unmatched w resp bres body Hm Hq) in Hdone.
    cbn [world_of] in Hdone. world_simpl_in Hdone.
    rewrite done_count_app in Hdone. cbn in Hdone. lia.
Qed.

(** Two calls on a fresh client; the response to the second arrives
    first. *)
Lemma response_completes_the_call_it_answers_witness :
  let w := world_of (exec [OpGo "add" (VInt 1) VNil None None;
                           OpGo "add" (VInt 2) VNil None None] new_client_world) in
  exists k, calls w !! 1%nat = Some k /\ call_seq k = 2.
Proof.
  intros w.
  destruct (response_completes_the_call_it_answers new_client_world
              [OpGo "add" (VInt 1) VNil None None; OpGo "add" (VInt 2) VNil None None]
              eq_refl) as [_ H].
  apply (H (mkResponse 2 "") None (VInt 5) 1%nat); [reflexivity|].
  vm_compute. discriminate.
Defined.

(** ** A client that is closing or shut down *)

Section Closed.

Variables (reqs : list (Request * value)) (seqs : list Z).

(** A step that keeps the two flags and logs neither a request nor a
    registration. *)
Lemma closed_same (w w' : World) (l : list Event) :
  shutdown (cl w') = shutdown (cl w) ->
  closing (cl w') = closing (cl w) ->
  log w' = (log w ++ l)%list ->
  written_requests l = [] ->
  assigned l = [] ->
  closed_with reqs seqs w -> closed_with reqs seqs w'.
Proof.
  intros Hs Hc Hl Hw Ha (Hf & Hr & Hq). unfold closed_with.
  rewrite Hs, Hc, Hl, written_requests_app, assigned_app, Hw, Ha, !app_nil_r. auto.
Qed.

Lemma closed_heap_only {A} (m : M A) : heap_only m -> preserves (closed_with reqs seqs) m.
Proof.
  intros H w. destruct (H w) as (Hcl & Hlog & _).
  apply (closed_same w _ []); rewrite ?Hcl, ?Hlog, ?app_nil_r; reflexivity.
Qed.

Lemma closed_emit (e : Event) :
  match e with EvRegister _ _ | EvWriteRequest _ _ => False | _ => True end ->
  preserves (closed_with reqs seqs) (emit e).
Proof.
  intros He w. apply (closed_same w _ [e]); try reflexivity;
    destruct e; try reflexivity; destruct He.
Qed.

Lemma closed_modify_cl (f : Client -> Client) :
  (forall c, shutdown c || closing c = true -> shutdown (f c) || closing (f c) = true) ->
  preserves (closed_with reqs seqs) (modify_cl f).
Proof.
  intros Hf w (Hc & Hr & Hq). unfold closed_with. cbn. auto.
Qed.

Lemma closed_Lock (m : Mutex) : preserves (closed_with reqs seqs) (Lock m).
Proof.
  intros w Hw. unfold Lock. destruct (held m (cl w)); [exact Hw|].
  revert Hw. apply (closed_same w _ [EvLock m]); destruct m; reflexivity.
Qed.

Lemma closed_Unlock (m : Mutex) : preserves (closed_with reqs seqs) (Unlock m).
Proof.
  intros w Hw. unfold Unlock. destruct (held m (cl w)); [|exact Hw].
  revert Hw. apply (closed_same w _ [EvUnlock m]); destruct m; reflexivity.
Qed.

Lemma closed_done (p : nat) : preserves (closed_with reqs seqs) (done p).
Proof.
  apply preserves_bind; [apply closed_heap_only, heap_only_get_call|]. intros c w.
  apply (closed_same w _ (done_events p (chan_ready (chans w !! call_Done c))));
    try reflexivity; [apply written_requests_done_events | apply assigned_done_events].
Qed.

End Closed.

Create HintDb closed.

#[local] Hint Resolve preserves_ret preserves_panic preserves_get_cl
  closed_Lock closed_Unlock closed_done : closed.

#[local] Hint Extern 1 (preserves (closed_with _ _) (emit _)) =>
  apply closed_emit; exact I : closed.

#[local] Hint Extern 1 (preserves (closed_with _ _) (addHandler _ _ _)) =>
  apply preserves_addHandler;
    [intros; apply closed_emit; exact I | intros ? ? H; exact H] : closed.

#[local] Hint Extern 1 (preserves (closed_with _ _) (modify_cl _)) =>
  apply closed_modify_cl; intros []; cbn; intros; rewrite ?orb_true_r; auto : closed.

#[local] Hint Extern 2 (preserves (closed_with _ _) _) =>
  apply closed_heap_only; solve [auto with heap] : closed.

(** On such a client the critical section of [send] refuses the call. *)
Lemma closed_send_register (reqs : list (Request * value)) (seqs : list Z) (call : nat) :
  forall w, closed_with reqs seqs w ->
    closed_with reqs seqs (world_of (send_register call w))
    /\ match send_register call w with Ok (Some _) _ => False | _ => True end.
Proof.
  intros w (Hc & Hr & Hq). destruct_world w. unfold closed_with, send_register. unfold_m.
  destruct mutex0; [auto|]. rewrite Hc.
  destruct (calls0 !! call) as [k|]; [rewrite lookup_insert_eq|];
    cbn [world_of cl log shutdown closing];
    rewrite ?written_requests_app, ?assigned_app, ?written_requests_done_events,
      ?assigned_done_events; cbn; rewrite ?app_nil_r; auto.
Qed.

Lemma closed_send (reqs : list (Request * value)) (seqs : list Z) (call : nat)
    (wres : option error) :
  preserves (closed_with reqs seqs) (send call wres).
Proof.
  unfold send. apply preserves_bind; [apply closed_Lock|]. intros _.
  apply preserves_defer; [apply closed_Unlock|].
  intros w Hw. unfold bind at 1.
  destruct (closed_send_register reqs seqs call w Hw) as [Hreg Hnone].
  destruct (send_register call w) as [[s|] w1|msg w1|w1]; cbn [world_of] in *;
    [destruct Hnone | exact Hreg..].
Qed.

Lemma closed_Notify (reqs : list (Request * value)) (seqs : list Z) (method : string)
    (args : value) (wres : option error) :
  preserves (closed_with reqs seqs) (Notify method args wres).
Proof.
  unfold Notify. apply preserves_bind; [apply closed_Lock|]. intros _.
  apply preserves_defer; [apply closed_Unlock|].
  intros w Hw. unfold bind at 1, get_cl at 1.
  destruct Hw as (Hc & Hr & Hq). rewrite Hc. cbn. unfold closed_with. auto.
Qed.

#[local] Hint Resolve closed_send closed_Notify : closed.







(** ** The codec is closed once *)

Lemma codec_closes_app (l1 l2 : list Event) :
  codec_closes (l1 ++ l2) = (codec_closes l1 + codec_closes l2)%nat.
Proof. unfold codec_closes. rewrite List.filter_app, length_app. reflexivity. Qed.

Lemma codec_closes_done_events (p : nat) (b : bool) : codec_closes (done_events p b) = O.
Proof. destruct b; reflexivity. Qed.

Lemma codec_closes_one (e : Event) :
  codec_closes [e] = if bool_decide (e = EvCodecClose) then 1%nat else 0%nat.
Proof. unfold codec_closes. cbn. destruct (bool_decide _); reflexivity. Qed.

Section Flags.

Variables (c d s : bool) (n : nat).

Lemma flags_same (w w' : World) (l : list Event) :
  closing (cl w') = closing (cl w) ->
  disconnect (cl w') = disconnect (cl w) ->
  shutdown (cl w') = shutdown (cl w) ->
  log w' = (log w ++ l)%list ->
  codec_closes l = O ->
  flags_are c d s n w -> flags_are c d s n w'.
Proof.
  intros Hc Hd Hs Hl Hz (H1 & H2 & H3 & H4). unfold flags_are.
  rewrite Hc, Hd, Hs, Hl, codec_closes_app, Hz. repeat split; auto. lia.
Qed.

Lemma flags_heap_only {A} (m : M A) : heap_only m -> preserves (flags_are c d s n) m.
Proof.
  intros H w. destruct (H w) as (Hcl & Hlog & _).
  apply (flags_same w _ []); rewrite ?Hcl, ?Hlog, ?app_nil_r; reflexivity.
Qed.

Lemma flags_emit (e : Event) :
  e <> EvCodecClose -> preserves (flags_are c d s n) (emit e).
Proof.
  intros He w. apply (flags_same w _ [e]); try reflexivity.
  rewrite codec_closes_one, bool_decide_eq_false_2 by exact He. reflexivity.
Qed.

Lemma flags_modify_cl (f : Client -> Client) :
  (forall x, closing (f x) = closing x /\ disconnect (f x) = disconnect x
             /\ shutdown (f x) = shutdown x) ->
  preserves (flags_are c d s n) (modify_cl f).
Proof.
  intros Hf w. destruct (Hf (cl w)) as (H1 & H2 & H3).
  apply (flags_same w _ []); cbn; rewrite ?app_nil_r; auto.
Qed.

Lemma flags_Lock (m : Mutex) : preserves (flags_are c d s n) (Lock m).
Proof.
  intros w Hw. unfold Lock. destruct (held m (cl w)); [exact Hw|].
  revert Hw. apply (flags_same w _ [EvLock m]); destruct m; reflexivity.
Qed.

Lemma flags_Unlock (m : Mutex) : preserves (flags_are c d s n) (Unlock m).
Proof.
  intros w Hw. unfold Unlock. destruct (held m (cl w)); [|exact Hw].
  revert Hw. apply (flags_same w _ [EvUnlock m]); destruct m; reflexivity.
Qed.

Lemma flags_done (p : nat) : preserves (flags_are c d s n) (done p).
Proof.
  apply preserves_bind; [apply flags_heap_only, heap_only_get_call|]. intros k w.
  apply (flags_same w _ (done_events p (chan_ready (chans w !! call_Done k))));
    try reflexivity. apply codec_closes_done_events.
Qed.

End Flags.

Create HintDb flags.

#[local] Hint Resolve preserves_ret preserves_panic preserves_get_cl
  flags_Lock flags_Unlock flags_done : flags.

#[local] Hint Extern 1 (preserves (flags_are _ _ _ _) (emit _)) =>
  apply flags_emit; discriminate : flags.

#[local] Hint Extern 1 (preserves (flags_are _ _ _ _) (addHandler _ _ _)) =>
  apply preserves_addHandler;
    [intros; apply flags_emit; discriminate | intros ? ? H; exact H] : flags.

#[local] Hint Extern 1 (preserves (flags_are _ _ _ _) (modify_cl _)) =>
  apply flags_modify_cl; intros []; repeat split; reflexivity : flags.

#[local] Hint Extern 2 (preserves (flags_are _ _ _ _) _) =>
  apply flags_heap_only; solve [auto with heap] : flags.

Lemma flags_Go (c d s : bool) (n : nat) (method : string) (args reply : value)
    (done_ch : option nat) (wres : option error) :
  preserves (flags_are c d s n) (Go method args reply done_ch wres).
Proof. unfold Go, send, send_register, send_write, send_failed. preserves_steps flags. Qed.

Lemma flags_Call_wait (c d s : bool) (n : nat) (call : nat) (ctx : ctx_state)
    (prefer_ctx : bool) (wres : option error) :
  preserves (flags_are c d s n) (Call_wait call ctx prefer_ctx wres).
Proof.
  apply preserves_Call_wait.
  - intros p. auto with flags.
  - intros chs w Hw. exact Hw.
  - intros e. unfold Call_cancel. preserves_steps flags. apply flags_Go.
Qed.

Lemma flags_handleRequest (c d s : bool) (n : nat) (req : Request) (h : handler)
    (argv hreply : value) (herr wres : option error) :
  preserves (flags_are c d s n) (handleRequest req h argv hreply herr wres).
Proof. unfold handleRequest. preserves_steps flags. Qed.

(** Every operation but [Close] and the end of the read loop leaves the
    flags alone and does not close the codec. *)
Lemma flags_exec_op (c d s : bool) (n : nat) (o : Op) :
  match o with OpClose _ | OpReadExit _ _ => False | _ => True end ->
  preserves (flags_are c d s n) (exec_op o).
Proof.
  intros Ho. destruct o; try destruct Ho; cbn [exec_op];
    unfold Handle, SetBlocking, Call_start, Notify, read_frame, readResponse;
    preserves_steps flags; auto using flags_Go, flags_Call_wait, flags_handleRequest.
  apply preserves_readRequest; intros; auto using flags_handleRequest with flags.
Qed.

Lemma codec_inv_flags (w : World) :
  codec_inv w <->
  exists c d s n, flags_are c d s n w /\ (d = true -> s = true)
                  /\ n = if c || d then 1%nat else 0%nat.
Proof.
  unfold codec_inv, flags_are. split.
  - intros [H1 H2]. exists (closing (cl w)), (disconnect (cl w)), (shutdown (cl w)),
      (codec_closes (log w)). auto 10.
  - intros (c & d & s & n & (<- & <- & <- & <-) & H1 & H2). auto.
Qed.

Lemma codec_inv_Close (cres : option error) : preserves codec_inv (Close cres).
Proof.
  intros w [Hd Hn]. destruct_world w. unfold codec_inv, Close in *. unfold_m.
  cbn [cl log disconnect shutdown closing] in *.
  destruct mutex0; [auto|].
  destruct shutdown0, closing0; cbn [orb world_of cl log disconnect shutdown closing] in *;
    rewrite ?codec_closes_app; cbn; rewrite ?Nat.add_0_r; auto.
  split; [exact Hd|]. destruct disconnect0; [specialize (Hd eq_refl); discriminate|].
  cbn in Hn. rewrite Hn. reflexivity.
Qed.

(** From a state reached by steps that keep [P], either the run stops
    there or it goes on with [k]. *)
Lemma reach_bind {A B} (P R : World -> Prop) (m : M A) (k : A -> M B) :
  preserves P m ->
  (forall w, P w -> R w) ->
  (forall a w, P w -> R (world_of (k a w))) ->
  forall w, P w -> R (world_of (bind m k w)).
Proof.
  intros Hm Hstop Hk w Hw. unfold bind. specialize (Hm w Hw).
  destruct (m w) as [a w1|msg w1|w1]; cbn [world_of] in *; auto.
Qed.

Lemma codec_inv_readLoop_finish (c d : bool) (n : nat) (err : error) (w : World) :
  flags_are c d true n w ->
  n = (if c || d then 1%nat else 0%nat) ->
  codec_inv (world_of (readLoop_finish err c w)).
Proof.
  intros Hw Hn. unfold readLoop_finish. revert w Hw.
  apply (reach_bind (flags_are c d true n)).
  { preserves_steps flags. }
  { intros w (H1 & H2 & H3 & H4). unfold codec_inv. rewrite H1, H2, H3, H4. auto. }
  intros _ w (H1 & H2 & H3 & H4).
  unfold close_disconnect, bind at 1, bind at 1, get_cl at 1. rewrite H2.
  destruct d.
  - cbn. unfold codec_inv. rewrite H1, H2, H3, H4. auto.
  - subst n. destruct_world w. unfold_m.
    unfold codec_inv. destruct c; cbn [negb orb] in *;
      cbn [world_of cl log disconnect shutdown closing orb];
      rewrite ?codec_closes_app, H4; cbn; auto.
Qed.

Lemma codec_inv_readLoop_exit (err : error) : preserves codec_inv (readLoop_exit err).
Proof.
  intros w Hw. apply codec_inv_flags in Hw.
  destruct Hw as (c & d & s & n & Hf & Hds & Hn).
  assert (Hstop : forall s' w', (d = true -> s' = true) -> flags_are c d s' n w' -> codec_inv w').
  { intros s' w' Hs' Hw'. apply codec_inv_flags. exists c, d, s', n. auto. }
  unfold readLoop_exit. revert w Hf.
  apply (reach_bind (flags_are c d s n)); [auto with flags | eauto |]. intros _.
  apply (reach_bind (flags_are c d s n)); [auto with flags | eauto |]. intros _.
  intros w Hf. unfold bind at 1, modify_cl at 1.
  assert (Hf1 : flags_are c d true n (set_cl (with_shutdown true (cl w)) w)).
  { destruct Hf as (H1 & H2 & H3 & H4). unfold flags_are. world_simpl. auto. }
  unfold bind at 1, get_cl at 1. world_simpl.
  replace (closing (cl w)) with c by (symmetry; apply Hf).
  set (w1 := set_cl (with_shutdown true (cl w)) w) in *. clearbody w1.
  revert w1 Hf1.
  apply (reach_bind (flags_are c d true n));
    [unfold terminate_calls; preserves_steps flags | eauto |]. intros _.
  apply (reach_bind (flags_are c d true n)); [auto with flags | eauto |]. intros _.
  apply (reach_bind (flags_are c d true n)); [auto with flags | eauto |]. intros _.
  intros w2 Hf2. apply (codec_inv_readLoop_finish c d n); assumption.
Qed.

Lemma codec_inv_exec_op (o : Op) : preserves codec_inv (exec_op o).
Proof.
  assert (Hquiet : match o with OpClose _ | OpReadExit _ _ => False | _ => True end ->
                   preserves codec_inv (exec_op o)).
  { intros Ho w Hw. apply codec_inv_flags in Hw. apply codec_inv_flags.
    destruct Hw as (c & d & s & n & Hf & Hds & Hn).
    exists c, d, s, n. split; [|auto]. apply flags_exec_op; assumption. }
  destruct o; try (apply Hquiet; exact I); cbn [exec_op].
  - apply preserves_bind; [apply codec_inv_Close | intros ?; apply preserves_ret].
  - apply preserves_bind; [|intros _; apply codec_inv_readLoop_exit].
    destruct from_header; [|apply preserves_ret].
    intros w Hw. apply codec_inv_flags in Hw. apply codec_inv_flags.
    destruct Hw as (c & d & s & n & Hf & Hds & Hn).
    exists c, d, s, n. split; [|auto]. apply flags_emit; [discriminate | exact Hf].
Qed.

(** X10.  Between them, [Close] and the read loop close the codec at most once.
    On a client that is neither closing nor disconnected and whose codec was
    not closed, whatever is done afterwards and in whatever order, the codec
    is closed exactly once if the client ends up closing or disconnected,
    and not at all otherwise. *)
Theorem codec_closed_at_most_once (w : World) (ops : list Op) :
  closing (cl w) = false ->
  disconnect (cl w) = false ->
  codec_closes (log w) = O ->
  let w' := world_of (exec ops w) in
  codec_closes (log w')
  = (if closing (cl w') || disconnect (cl w') then 1%nat else 0%nat)
  /\ (codec_closes (log w') <= 1)%nat.
Proof.
  intros Hc Hd Hn w'.
  assert (Hinv : codec_inv w').
  { apply (preserves_for_each codec_inv exec_op ops); [apply codec_inv_exec_op|].
    unfold codec_inv. rewrite Hc, Hd, Hn. split; [discriminate | reflexivity]. }
  destruct Hinv as [_ H]. split; [exact H|]. rewrite H.
  destruct (closing (cl w') || disconnect (cl w')); lia.
Qed.

(** [Close], then the end of the read loop, then [Close] again. *)
Lemma codec_closed_at_most_once_witness :
  codec_closes
    (log (world_of (exec [OpGo "add" (VInt 1) VNil None None; OpClose None;
                          OpReadExit true EOF; OpClose None] new_client_world)))
  = 1%nat.
Proof.
  pose proof (codec_closed_at_most_once new_client_world
                [OpGo "add" (VInt 1) VNil None None; OpClose None;
                 OpReadExit true EOF; OpClose None] eq_refl eq_refl eq_refl) as [H _].
  rewrite H. reflexivity.
Defined.

(** ** Properties kept along executions with a single reader *)

(** A property that every operation keeps, on worlds that satisfy
    [calls_inv], holds along every execution with a single reader. *)
Lemma exec_invariant (P : World -> Prop) :
  (forall w o,
      calls_inv w -> P w ->
      (is_reader_op o = true -> shutdown (cl w) = false) ->
      P (world_of (exec_op o w))) ->
  forall ops w,
    calls_inv w -> P w ->
    single_reader ops = true ->
    (shutdown (cl w) = true -> forallb (fun o => negb (is_reader_op o)) ops = true) ->
    P (world_of (exec ops w)).
Proof.
  intros Hstep ops. induction ops as [|o ops IH]; intros w Hinv HP Hsingle Hshut; [exact HP|].
  assert (Hrd : is_reader_op o = true -> shutdown (cl w) = false).
  { intros Hrd. destruct (shutdown (cl w)) eqn:Hs; [|reflexivity].
    specialize (Hshut eq_refl). cbn [forallb] in Hshut.
    rewrite Hrd in Hshut. discriminate. }
  pose proof (Hstep w o Hinv HP Hrd) as HP'.
  pose proof (inv_exec_op w o Hinv Hrd) as Hinv'.
  unfold exec. cbn [for_each]. unfold bind.
  pose proof (shutdown_stays o w) as Hstay.
  pose proof (shut_exec_op (shutdown (cl w)) o) as Hkeep.
  destruct (exec_op o w) as [[] w'|msg w'|w'] eqn:Hrun; cbn [world_of] in *; try exact HP'.
  apply IH; [exact Hinv' | exact HP' | |].
  - destruct o; cbn [single_reader] in Hsingle; try exact Hsingle.
    apply no_reader_single, Hsingle.
  - intros Hs'. destruct o;
      try (specialize (Hkeep I w eq_refl); rewrite Hrun in Hkeep; cbn in Hkeep;
           unfold shutdown_is in Hkeep; rewrite Hs' in Hkeep; symmetry in Hkeep;
           specialize (Hshut Hkeep); cbn [forallb] in Hshut;
           apply andb_prop in Hshut; exact (proj2 Hshut)).
    exact Hsingle.
Qed.

(** ** The disconnect channel and the shutdown flag *)

Lemma flags_Notify (c d s : bool) (n : nat) (method : string) (args : value)
    (wres : option error) :
  preserves (flags_are c d s n) (Notify method args wres).
Proof. unfold Notify. preserves_steps flags. Qed.

(** X11.  [DisconnectNotify] hands out the disconnect channel.  On a client made
    by [NewClientWithCodec] and used with a single reader, that channel is
    closed exactly when the client is shut down: it is open as long as the
    read loop runs, and closed once the read loop has ended and has
    completed the pending calls. *)
Theorem disconnect_channel_tells_shutdown (w0 : World) (ops : list Op) :
  pending (cl w0) = ∅ ->
  shutdown (cl w0) = false ->
  disconnect (cl w0) = false ->
  mutex (cl w0) = false ->
  sending (cl w0) = false ->
  (forall p, done_count p (log w0) = O) ->
  single_reader ops = true ->
  disconnect (cl (world_of (exec ops w0))) = shutdown (cl (world_of (exec ops w0))).
Proof.
  intros Hp Hsh Hd Hm Hs Hzero Hsingle.
  apply (exec_invariant (fun w => disconnect (cl w) = shutdown (cl w)));
    [|apply calls_inv_initial; auto|congruence|exact Hsingle|congruence].
  clear. intros w o Hinv HD Hrd.
  assert (Hquiet : match o with OpClose _ | OpReadExit _ _ => False | _ => True end ->
                   disconnect (cl (world_of (exec_op o w)))
                   = shutdown (cl (world_of (exec_op o w)))).
  { intros Ho.
    destruct (flags_exec_op (closing (cl w)) (disconnect (cl w)) (shutdown (cl w))
                (codec_closes (log w)) o Ho w) as (_ & -> & -> & _); [|exact HD].
    unfold flags_are. auto. }
  destruct o; try (apply Hquiet; exact I); cbn [exec_op]; rewrite ?world_of_then_ret.
  - destruct (shutdown (cl w) || closing (cl w)) eqn:Hc;
      [rewrite (Close_again w cres (inv_mutex w Hinv) Hc)
      |rewrite (Close_first w cres (inv_mutex w Hinv) Hc)]; exact HD.
  - specialize (Hrd eq_refl). rewrite Hrd in HD.
    set (w1 := world_of ((if from_header then emit EvReadHeader else ret tt) w)).
    assert (Hw1 : cl w1 = cl w /\ calls w1 = calls w)
      by (subst w1; destruct from_header; auto).
    destruct Hw1 as [Hcl1 Hcalls1].
    assert (Hrun : ((if from_header then emit EvReadHeader else ret tt) >> readLoop_exit err) w
                   = readLoop_exit err w1) by (subst w1; destruct from_header; reflexivity).
    rewrite Hrun.
    destruct (readLoop_exit_eq w1 err) as (cs & chs & evs & -> & _).
    { rewrite Hcl1. apply Hinv. }
    { rewrite Hcl1. apply Hinv. }
    { intros s p Hsp. rewrite Hcl1 in Hsp. rewrite Hcalls1.
      apply (inv_pending w Hinv s p Hsp). }
    rewrite Hcl1. destruct (cl w) as [? ? ? ? ? cg sd sv ? ? dc ? ?].
    cbn [disconnect shutdown closing] in *. subst dc sd.
    unfold readLoop_finish, close_disconnect. unfold_m.
    destruct (negb _ && negb cg && negb sv); unfold_m; destruct cg; reflexivity.
Qed.

(** A call, the end of the read loop, and [Close] on the client that is
    shut down. *)
Lemma disconnect_channel_tells_shutdown_witness :
  disconnect (cl (world_of (exec [OpGo "add" (VInt 1) VNil None None;
                                  OpReadExit true EOF; OpClose None] new_client_world)))
  = true.
Proof.
  rewrite (disconnect_channel_tells_shutdown new_client_world
             [OpGo "add" (VInt 1) VNil None None; OpReadExit true EOF; OpClose None]);
    reflexivity.
Defined.

(** ** Mutexes: no operation waits for one, and each releases what it took *)

Lemma locks_ret {A} (a b : bool) (x : A) : locks a b a b (ret x).
Proof. intros w Ha Hb. cbn. auto. Qed.

Lemma locks_panic {A} (a b a' b' : bool) (msg : string) : locks a b a' b' (@panic A msg).
Proof. intros w Ha Hb. exact I. Qed.

Lemma locks_get_cl (a b : bool) : locks a b a b get_cl.
Proof. intros w Ha Hb. cbn. auto. Qed.

Lemma locks_bind {A B} (a b a1 b1 a' b' : bool) (m : M A) (k : A -> M B) :
  locks a b a1 b1 m -> (forall x, locks a1 b1 a' b' (k x)) -> locks a b a' b' (bind m k).
Proof.
  intros Hm Hk w Ha Hb. unfold bind. specialize (Hm w Ha Hb).
  destruct (m w) as [x w1|msg w1|w1]; [|exact I|exact Hm].
  destruct Hm as [Ha1 Hb1]. apply Hk; assumption.
Qed.

Lemma locks_if {A} (a b a' b' : bool) (c : bool) (m1 m2 : M A) :
  locks a b a' b' m1 -> locks a b a' b' m2 -> locks a b a' b' (if c then m1 else m2).
Proof. destruct c; auto. Qed.

Lemma locks_for_each {A} (a b : bool) (body : A -> M unit) (l : list A) :
  (forall x, locks a b a b (body x)) -> locks a b a b (for_each body l).
Proof.
  intros Hb. induction l as [|x l IH]; cbn [for_each].
  - apply locks_ret.
  - eapply locks_bind; [apply Hb | intros _; exact IH].
Qed.

(** A deferred function runs whether the body returns or panics; it must not
    wait in either case. *)
Lemma locks_defer {A} (a b a1 b1 a' b' : bool) (d : M unit) (body : M A) :
  locks a b a1 b1 body -> locks a1 b1 a' b' d -> never_waits d ->
  locks a b a' b' (defer d body).
Proof.
  intros Hbody Hd Hnw w Ha Hb. unfold defer. specialize (Hbody w Ha Hb).
  destruct (body w) as [x w1|msg w1|w1]; [| |exact Hbody].
  - destruct Hbody as [Ha1 Hb1]. unfold bind. specialize (Hd w1 Ha1 Hb1).
    destruct (d w1); auto.
  - unfold bind. specialize (Hnw w1). destruct (d w1); auto.
Qed.

Lemma never_waits_Unlock (m : Mutex) : never_waits (Unlock m).
Proof. intros w. unfold Unlock. destruct (held m (cl w)); exact I. Qed.

Lemma never_waits_emit (e : Event) : never_waits (emit e).
Proof. intros w. exact I. Qed.

Lemma never_waits_pending_Cancel (s : Z) : never_waits (pending_Cancel s).
Proof. intros w. exact I. Qed.

Lemma locks_Lock_mutex (b : bool) : locks false b true b (Lock MuMutex).
Proof.
  intros w Ha Hb. unfold Lock. cbn [held]. rewrite Ha.
  destruct_world w. cbn. auto.
Qed.

Lemma locks_Lock_sending (a : bool) : locks a false a true (Lock MuSending).
Proof.
  intros w Ha Hb. unfold Lock. cbn [held]. rewrite Hb.
  destruct_world w. cbn. auto.
Qed.

Lemma locks_Unlock_mutex (b : bool) : locks true b false b (Unlock MuMutex).
Proof.
  intros w Ha Hb. unfold Unlock. cbn [held]. rewrite Ha.
  destruct_world w. cbn. auto.
Qed.

Lemma locks_Unlock_sending (a : bool) : locks a true a false (Unlock MuSending).
Proof.
  intros w Ha Hb. unfold Unlock. cbn [held]. rewrite Hb.
  destruct_world w. cbn. auto.
Qed.

(** Steps that leave the engine record alone. *)
Lemma locks_heap_only {A} (a b : bool) (m : M A) :
  heap_only m -> never_waits m -> locks a b a b m.
Proof.
  intros Hh Hn w Ha Hb. specialize (Hn w). destruct (Hh w) as (Hcl & _).
  destruct (m w) as [x w1|msg w1|w1]; [|exact I|exact Hn].
  cbn [world_of] in Hcl. rewrite Hcl. auto.
Qed.

Lemma never_waits_get_call (p : nat) : never_waits (get_call p).
Proof. intros w. unfold get_call. destruct (calls w !! p); exact I. Qed.

Lemma never_waits_put_call (p : nat) (k : Call) : never_waits (put_call p k).
Proof. intros w. exact I. Qed.

Lemma never_waits_new_call (k : Call) : never_waits (new_call k).
Proof. intros w. exact I. Qed.

Lemma never_waits_make_chan (n : nat) : never_waits (make_chan n).
Proof. intros w. exact I. Qed.

Lemma never_waits_chan_capacity (a : nat) : never_waits (chan_capacity a).
Proof. intros w. exact I. Qed.

Lemma never_waits_recv (ch : nat) : never_waits (recv ch).
Proof. intros w. unfold recv. destruct (chans w !! ch) as [[n [|p rest]]|]; exact I. Qed.

Lemma locks_addHandler (a b : bool) (reg : nat) (mname : string) (h : iface) :
  locks a b a b (addHandler reg mname h).
Proof.
  intros w Ha Hb. pose proof (addHandler_cases reg mname h w) as H.
  destruct (addHandler reg mname h w) as [[] w'|msg w'|w']; [|exact I|exact H].
  destruct H as (hs & g & _ & _ & ->). auto.
Qed.

Lemma never_waits_pending_Start (s : Z) : never_waits (pending_Start s).
Proof. intros w. exact I. Qed.

Lemma locks_emit (a b : bool) (e : Event) : locks a b a b (emit e).
Proof. intros w Ha Hb. cbn. auto. Qed.

Lemma locks_modify_cl (a b : bool) (f : Client -> Client) :
  (forall c, mutex (f c) = mutex c /\ sending (f c) = sending c) ->
  locks a b a b (modify_cl f).
Proof.
  intros Hf w Ha Hb. cbn. destruct (Hf (cl w)) as [-> ->]. auto.
Qed.

Lemma locks_done (a b : bool) (p : nat) : locks a b a b (done p).
Proof.
  eapply locks_bind.
  - apply locks_heap_only; [apply heap_only_get_call | apply never_waits_get_call].
  - intros c w Ha Hb. cbn. auto.
Qed.

Create HintDb locking.

#[local] Hint Resolve locks_ret locks_panic locks_get_cl locks_emit locks_done
  locks_Lock_mutex locks_Lock_sending locks_Unlock_mutex locks_Unlock_sending
  never_waits_Unlock never_waits_emit never_waits_pending_Cancel
  locks_addHandler : locking.

#[local] Hint Extern 1 (locks _ _ _ _ (modify_cl _)) =>
  apply locks_modify_cl; intros []; split; reflexivity : locking.

#[local] Hint Extern 2 (locks _ _ _ _ _) =>
  apply locks_heap_only;
  [solve [auto with heap]
  |solve [auto using never_waits_get_call, never_waits_put_call, never_waits_new_call,
            never_waits_make_chan, never_waits_chan_capacity, never_waits_recv,
            never_waits_pending_Start,
            never_waits_pending_Cancel]] : locking.

(** Goals [locks a b a' b' m] are taken apart along the structure of [m];
    the states of the mutexes in between are found on the way. *)
Ltac locks_steps :=
  unfold set_call_Error, set_call_seq, set_call_Reply;
  repeat match goal with
    | |- locks _ _ _ _ (bind _ _) => eapply locks_bind; [|intros ?]
    | |- locks _ _ _ _ (defer _ _) => eapply locks_defer
    | |- locks _ _ _ _ (for_each _ _) => apply locks_for_each; intros ?
    | |- locks _ _ _ _ (if _ then _ else _) => apply locks_if
    | |- locks _ _ _ _ (match ?x with _ => _ end) => destruct x
    | |- locks _ _ _ _ _ => solve [eauto with locking]
    | |- never_waits _ => solve [eauto with locking]
    end.

Lemma locks_send (call : nat) (wres : option error) :
  locks false false false false (send call wres).
Proof. unfold send, send_register, send_write, send_failed. locks_steps. Qed.

Lemma locks_Go (method : string) (args reply : value) (done_ch : option nat)
    (wres : option error) :
  locks false false false false (Go method args reply done_ch wres).
Proof. unfold Go. locks_steps. apply locks_send. Qed.

Lemma locks_Call_cancel (call : nat) (e : error) (wres : option error) :
  locks false false false false (Call_cancel call e wres).
Proof. unfold Call_cancel. locks_steps. apply locks_Go. Qed.

(** The select of [Call]: with a context that is done it does not wait. *)
Lemma locks_Call_wait (call : nat) (e : error) (prefer_ctx : bool) (wres : option error) :
  locks false false false false (Call_wait call (CtxDone e) prefer_ctx wres).
Proof.
  unfold Call_wait. eapply locks_bind; [solve [eauto with locking]|]. intros k w Ha Hb.
  assert (Hrecv : forall chs,
    match (let* k' := get_call call in ret (call_Error k')) (set_chans chs w) with
    | Ok _ w' => mutex (cl w') = false /\ sending (cl w') = false
    | Panic _ _ => True
    | Block _ => False
    end).
  { intros chs. unfold bind, get_call, ret. world_simpl.
    destruct (calls w !! call); cbn; auto. }
  destruct (chans w !! call_Done k) as [[n [|q rest]]|]; try destruct prefer_ctx;
    try apply Hrecv; apply locks_Call_cancel; assumption.
Qed.

Lemma locks_Notify (method : string) (args : value) (wres : option error) :
  locks false false false false (Notify method args wres).
Proof. unfold Notify. locks_steps. Qed.

Lemma locks_Close (cres : option error) : locks false false false false (Close cres).
Proof. unfold Close. locks_steps. Qed.

Lemma locks_handleRequest (a b : bool) (req : Request) (h : handler) (argv hreply : value)
    (herr wres : option error) :
  locks a b a b (handleRequest req h argv hreply herr wres).
Proof. unfold handleRequest. locks_steps. Qed.

Lemma locks_readRequest (a b : bool) (req : Request) (o : Oracle) :
  locks a b a b (readRequest req o).
Proof.
  intros w Ha Hb. unfold readRequest.
  destruct (client_handlers w !! req_Method req) as [h|].
  - revert w Ha Hb. fold (locks a b a b
      (emit EvReadRequestBody >>
       match o_body_err o with
       | Some e => ret (Some e)
       | None =>
           let* c := get_cl in
           (if blocking c
            then handleRequest req h (o_body o) (o_reply o) (o_handler_err o) (o_write_err o)
            else emit (EvGo req (o_body o))) >> ret None
       end)).
    locks_steps. apply locks_handleRequest.
  - cbn. auto.
Qed.

Lemma locks_readResponse (resp : Response) (bres : option error) (body : value) :
  locks false false false false (readResponse resp bres body).
Proof. unfold readResponse. locks_steps. Qed.

Lemma locks_read_frame (f : Frame) : locks false false false false (read_frame f).
Proof.
  unfold read_frame. locks_steps;
    auto using locks_readRequest, locks_readResponse.
Qed.

Lemma locks_readLoop_exit (err : error) : locks false false false false (readLoop_exit err).
Proof.
  unfold readLoop_exit, terminate_calls, readLoop_finish, close_disconnect. locks_steps.
Qed.

(** Every operation but the select of [Call] on a live context: started
    with both mutexes free it does not wait, and when it returns both are
    free again. *)
Lemma locks_exec_op (o : Op) :
  is_live_wait o = false -> locks false false false false (exec_op o).
Proof.
  intros Ho. destruct o; try (destruct ctx; [discriminate Ho|]); cbn [exec_op];
    unfold Handle, SetBlocking, Call_start; locks_steps;
    eauto using locks_Go, locks_Call_wait, locks_Notify, locks_Close, locks_read_frame,
      locks_readLoop_exit, locks_handleRequest with locking.
Qed.

(** X12.  On an engine whose mutexes are free, an execution in which no [Call]
    waits in its select never waits at all: no operation asks for a mutex
    that is held, its own included.  And when the execution returns, both
    mutexes have been released. *)
Theorem operations_release_their_locks (ops : list Op) (w : World) :
  mutex (cl w) = false ->
  sending (cl w) = false ->
  existsb is_live_wait ops = false ->
  match exec ops w with
  | Ok _ w' => mutex (cl w') = false /\ sending (cl w') = false
  | Panic _ _ => True
  | Block _ => False
  end.
Proof.
  revert w. induction ops as [|o ops IH]; intros w Hm Hs Hops.
  - cbn. auto.
  - cbn [existsb] in Hops. apply orb_false_elim in Hops. destruct Hops as [Ho Hops].
    unfold exec. cbn [for_each]. unfold bind.
    pose proof (locks_exec_op o Ho w Hm Hs) as Hstep.
    destruct (exec_op o w) as [[] w1|msg w1|w1]; [|exact I|exact Hstep].
    destruct Hstep as [Hm1 Hs1]. apply (IH w1 Hm1 Hs1 Hops).
Qed.

(** Two calls, a notification, the responses and the end of the read loop,
    on a fresh client. *)
Lemma operations_release_their_locks_witness :
  match exec (two_calls_and_a_notification
                ++ [OpReadFrame (response_frame 1 (VInt 3)); OpReadExit true EOF])
          new_client_world with
  | Ok _ w' => mutex (cl w') = false /\ sending (cl w') = false
  | _ => False
  end.
Proof.
  pose proof (operations_release_their_locks
                (two_calls_and_a_notification
                   ++ [OpReadFrame (response_frame 1 (VInt 3)); OpReadExit true EOF])
                new_client_world eq_refl eq_refl eq_refl) as H.
  destruct (exec _ new_client_world) as [[] w'|msg w'|w'] eqn:Hrun; [exact H| |exact H].
  vm_compute in Hrun. discriminate Hrun.
Defined.

(** ** The read loop, frame by frame *)

Ltac conj_split := repeat match goal with |- _ /\ _ => split end.

Lemma header_reads_app (l1 l2 : list Event) :
  header_reads (l1 ++ l2) = (header_reads l1 + header_reads l2)%nat.
Proof. unfold header_reads. rewrite List.filter_app, length_app. reflexivity. Qed.

Lemma invoked_app (l1 l2 : list Event) :
  invoked (l1 ++ l2) = (invoked l1 ++ invoked l2)%list.
Proof. apply omap_app. Qed.

Lemma spawned_app (l1 l2 : list Event) :
  spawned (l1 ++ l2) = (spawned l1 ++ spawned l2)%list.
Proof. apply omap_app. Qed.

Lemma with_pending_same (c : Client) : with_pending (pending c) c = c.
Proof. destruct c; reflexivity. Qed.

Lemma pending_allocated_shrink (w w' : World) :
  pending (cl w') ⊆ pending (cl w) ->
  dom (calls w) ⊆ dom (calls w') ->
  pending_allocated w -> pending_allocated w'.
Proof.
  intros Hp Hc Hw s p Hsp. apply elem_of_dom, Hc, elem_of_dom.
  apply (Hw s p). exact (lookup_weaken _ _ _ _ Hsp Hp).
Qed.

(** What [readResponse] returns when the call is pending. *)
Lemma readResponse_matched_result (w : World) (resp : Response) (bres : option error)
    (body : value) (p : nat) (k : Call) (r : option error) (w' : World) :
  mutex (cl w) = false ->
  pending (cl w) !! resp_Seq resp = Some p ->
  calls w !! p = Some k ->
  readResponse resp bres body w = Ok r w' ->
  r = response_result resp bres.
Proof.
  intros Hm Hp Hk Hrun.
  assert (Hres : exists w1, readResponse resp bres body w = Ok (response_result resp bres) w1).
  { clear Hrun. destruct_world w. destruct resp as [s e]. destruct k.
    cbn [resp_Seq resp_Error] in *. unfold readResponse, response_result. unfold_m.
    rewrite Hp.
    destruct (bool_decide (e = "")); cbn [negb].
    - rewrite Hk. destruct bres; [|destruct (bool_decide (_ = VNil))]; unfold_m;
        rewrite Hk, ?lookup_insert_eq; eexists; reflexivity.
    - unfold_m. rewrite Hk, lookup_insert_eq. eexists; reflexivity. }
  destruct Hres as (w1 & Hres). congruence.
Qed.

Lemma frame_events_debug (b : bool) (h : option handler) (f : Frame) (l : list Event)
    (msg : string) :
  frame_events b h f l -> frame_events b h f (l ++ [EvDebug msg]).
Proof.
  intros (H1 & H2 & H3). unfold frame_events.
  rewrite forallb_app, H1, header_reads_app, H2, invoked_app, spawned_app.
  cbn. rewrite !app_nil_r. auto.
Qed.

(** One iteration of the loop on an engine whose mutex is free: it returns;
    nothing of the engine but the pending table changes, and the table only
    loses entries; the events are those of the frame.  If the codec does
    not fail on the frame, the iteration returns no error; if the body of a
    response, or of a request for a method that is served, cannot be
    decoded, it returns an error. *)
Lemma read_frame_runs (f : Frame) (w : World) :
  mutex (cl w) = false ->
  pending_allocated w ->
  exists r l w',
    read_frame f w = Ok r w'
    /\ log w' = (log w ++ l)%list
    /\ frame_events (blocking (cl w)) (dispatch (client_handlers w) f) f l
    /\ with_pending ∅ (cl w') = with_pending ∅ (cl w)
    /\ pending (cl w') ⊆ pending (cl w)
    /\ pending_allocated w'
    /\ registries w' = registries w
    /\ (codec_serves (client_handlers w) f -> r = None)
    /\ (forall e, o_body_err (f_oracle f) = Some e ->
          req_Method (f_req f) = "" \/ is_Some (client_handlers w !! req_Method (f_req f)) ->
          r = Some e \/ r = Some (ErrorsNew ("reading error body: " ++ error_string e))).
Proof.
  intros Hm Hall.
  set (b := blocking (cl w)). set (h := dispatch (client_handlers w) f).
  assert (Hdebug : forall (r : option error) (pre : string) (l : list Event) (w1 : World),
    log w1 = (log w ++ l)%list ->
    frame_events b h f l ->
    with_pending ∅ (cl w1) = with_pending ∅ (cl w) ->
    pending (cl w1) ⊆ pending (cl w) ->
    pending_allocated w1 ->
    registries w1 = registries w ->
    exists l' w',
      (match r with
       | Some e => emit (EvDebug (pre ++ error_string e)) >> ret r
       | None => ret r
       end) w1 = Ok r w'
      /\ log w' = (log w ++ l')%list
      /\ frame_events b h f l'
      /\ with_pending ∅ (cl w') = with_pending ∅ (cl w)
      /\ pending (cl w') ⊆ pending (cl w)
      /\ pending_allocated w'
      /\ registries w' = registries w).
  { intros r pre l w1 Hl Hq Hc Hp Ha Hr. destruct r as [e|].
    - exists (l ++ [EvDebug (pre ++ error_string e)])%list. eexists.
      split; [reflexivity|]. world_simpl. rewrite Hl, <- app_assoc.
      split; [reflexivity|]. split; [apply frame_events_debug; exact Hq|].
      conj_split; auto.
    - exists l, w1. conj_split; auto. }
  unfold read_frame.
  destruct (bool_decide (req_Method (f_req f) = "")) eqn:Hreq; cbn [negb].
  - (* a response *)
    assert (Hh : h = None) by (subst h; unfold dispatch; rewrite Hreq; reflexivity).
    apply bool_decide_eq_true_1 in Hreq. unfold bind at 1.
    destruct (pending (cl w) !! resp_Seq (f_resp f)) as [p|] eqn:Hp.
    + destruct (Hall _ _ Hp) as [k Hk].
      destruct (readResponse_matched w (f_resp f) (o_body_err (f_oracle f))
                  (o_body (f_oracle f)) p k Hm Hp Hk) as (r & Hrun).
      pose proof (readResponse_matched_result w _ _ _ p k r _ Hm Hp Hk Hrun) as Hr.
      rewrite Hrun.
      match goal with |- context [set_log ?a ?b] => set (w1 := set_log a b) end.
      destruct (Hdebug r "birpc: error reading response: "
                  ([EvLock MuMutex; EvUnlock MuMutex;
                    EvReadResponseBody (body_dropped (f_resp f) k)]
                     ++ done_events p (chan_ready (chans w !! call_Done k)))%list w1)
        as (l' & w' & Hrun' & H1 & H2 & H4 & H5 & H6 & H7).
      * reflexivity.
      * rewrite Hh. unfold frame_events. destruct (chan_ready _); conj_split; try reflexivity; intros _; split; reflexivity.
      * reflexivity.
      * subst w1. world_simpl. apply delete_subseteq.
      * apply (pending_allocated_shrink w); [| |exact Hall].
        -- subst w1. world_simpl. apply delete_subseteq.
        -- subst w1. world_simpl. rewrite dom_insert_L. set_solver.
      * reflexivity.
      * exists r, l', w'. rewrite Hrun'. conj_split; auto.
        -- intros [Hb _]. rewrite Hr, Hb. unfold response_result.
           destruct (bool_decide _); reflexivity.
        -- intros e Hb _. rewrite Hr, Hb. unfold response_result.
           destruct (bool_decide _); auto.
    + rewrite (readResponse_unmatched w (f_resp f) _ _ Hm Hp).
      match goal with |- context [match ?r with Some _ => _ | None => _ end (set_log ?a ?b)] =>
        set (r0 := r); set (w1 := set_log a b) end.
      destruct (Hdebug r0 "birpc: error reading response: "
                  [EvLock MuMutex; EvUnlock MuMutex; EvReadResponseBody true] w1)
        as (l' & w' & Hrun' & H1 & H2 & H4 & H5 & H6 & H7);
        try reflexivity.
      * rewrite Hh. unfold frame_events. conj_split; try reflexivity; intros _; split; reflexivity.
      * subst w1. world_simpl. apply delete_subseteq.
      * apply (pending_allocated_shrink w); [| |exact Hall].
        -- subst w1. world_simpl. apply delete_subseteq.
        -- reflexivity.
      * exists r0, l', w'. rewrite Hrun'. conj_split; auto.
        -- intros [Hb _]. subst r0. rewrite Hb. reflexivity.
        -- intros e Hb _. subst r0. rewrite Hb. auto.
  - (* a request *)
    assert (Hh : h = client_handlers w !! req_Method (f_req f))
      by (subst h; unfold dispatch; rewrite Hreq; reflexivity).
    apply bool_decide_eq_false_1 in Hreq. unfold bind at 1.
    destruct (client_handlers w !! req_Method (f_req f)) as [h0|] eqn:Hh0.
    + destruct (o_body_err (f_oracle f)) as [e|] eqn:Hb.
      * assert (Hrun : readRequest (f_req f) (f_oracle f) w
                       = Ok (Some e) (set_log (log w ++ [EvReadRequestBody]) w)).
        { unfold readRequest. rewrite Hh0. unfold bind, emit. rewrite Hb. reflexivity. }
        rewrite Hrun.
        destruct (Hdebug (Some e) "birpc: error reading request: " [EvReadRequestBody]
                    (set_log (log w ++ [EvReadRequestBody]) w))
          as (l' & w' & Hrun' & H1 & H2 & H4 & H5 & H6 & H7); try reflexivity.
        { unfold frame_events. conj_split; try reflexivity. rewrite Hb. discriminate. }
        { exact Hall. }
        exists (Some e), l', w'. rewrite Hrun'. conj_split; auto.
        intros [Hb' _]. congruence.
      * rewrite (readRequest_known w _ _ h0 Hh0 Hb). fold b.
        assert (Hnone : forall e, None = Some e ->
                  req_Method (f_req f) = "" \/ is_Some (Some h0) ->
                  @None error = Some e \/ @None error
                    = Some (ErrorsNew ("reading error body: " ++ error_string e)))
          by (intros ? ?; discriminate).
        destruct b eqn:Hblk.
        -- destruct (Z.eq_dec (req_Seq (f_req f)) 0) as [Hz|Hz].
           ++ unfold bind at 1. rewrite (handleRequest_notification _ _ _ _ _ _ _ Hz).
              unfold ret. do 3 eexists. split; [reflexivity|]. world_simpl.
              rewrite <- app_assoc. split; [reflexivity|].
              split; [rewrite Hh; unfold frame_events; conj_split; try reflexivity; intros _; split; reflexivity|].
              conj_split; auto.
           ++ unfold bind at 1. rewrite (handleRequest_call _ _ _ _ _ _ _ Hz).
              unfold ret. do 3 eexists. split; [reflexivity|]. world_simpl.
              rewrite <- app_assoc. split; [reflexivity|].
              split; [rewrite Hh; unfold frame_events;
                      destruct (o_write_err (f_oracle f)); conj_split; try reflexivity;
                      intros _; split; reflexivity|].
              conj_split; auto.
        -- unfold bind, emit, ret. do 3 eexists. split; [reflexivity|]. world_simpl.
           rewrite <- app_assoc. split; [reflexivity|].
           split; [rewrite Hh; unfold frame_events; conj_split; try reflexivity; intros _; split; reflexivity|].
           conj_split; auto.
    + rewrite (readRequest_unknown w _ _ Hh0).
      match goal with |- context [match ?r with Some _ => _ | None => _ end (set_log ?a ?b)] =>
        set (r0 := r); set (w1 := set_log a b) end.
      destruct (Hdebug r0 "birpc: error reading request: "
                  [EvWriteResponse
                     (mkResponse (req_Seq (f_req f))
                        ("birpc: can't find method " ++ req_Method (f_req f)))
                     (VResponse
                        (mkResponse (req_Seq (f_req f))
                           ("birpc: can't find method " ++ req_Method (f_req f))))] w1)
        as (l' & w' & Hrun' & H1 & H2 & H4 & H5 & H6 & H7); try reflexivity.
      { rewrite Hh. unfold frame_events. conj_split; try reflexivity; intros _; split; reflexivity. }
      { exact Hall. }
      exists r0, l', w'. rewrite Hrun'. conj_split; auto.
      * intros [_ Hw]. subst r0. auto.
      * intros e _ [Habs|[? Habs]]; [contradiction | discriminate].
Qed.

Lemma client_handlers_same (w w' : World) :
  with_pending ∅ (cl w') = with_pending ∅ (cl w) ->
  registries w' = registries w ->
  client_handlers w' = client_handlers w.
Proof.
  intros Hc Hr. unfold client_handlers. rewrite Hr.
  replace (handlers (cl w')) with (handlers (with_pending ∅ (cl w'))) by reflexivity.
  rewrite Hc. reflexivity.
Qed.

(** The loop of [readLoop] on an engine whose mutex is free: it returns,
    having changed nothing of the engine but the pending table; and if the
    codec fails on none of the frames, it has read them all, ends with the
    error of the last [ReadHeader], and has run or handed on the handlers of
    the requests in the order of the frames. *)
Lemma read_frames_runs (frames : list Frame) (final : error) (w : World) :
  mutex (cl w) = false ->
  pending_allocated w ->
  exists e l w',
    read_frames frames final w = Ok e w'
    /\ log w' = (log w ++ l)%list
    /\ forallb (fun e => negb (is_session_event e)) l = true
    /\ with_pending ∅ (cl w') = with_pending ∅ (cl w)
    /\ pending (cl w') ⊆ pending (cl w)
    /\ pending_allocated w'
    /\ registries w' = registries w
    /\ hd_error l = Some EvReadHeader
    /\ (Forall (codec_serves (client_handlers w)) frames ->
        e = final /\ header_reads l = S (length frames)
        /\ invoked l = (if blocking (cl w)
                        then requests_served (client_handlers w) frames else [])
        /\ spawned l = (if blocking (cl w) then []
                        else (fun x => (x.1.2, x.2))
                               <$> requests_served (client_handlers w) frames)).
Proof.
  revert w. induction frames as [|f frames IH]; intros w Hm Hall.
  - exists final, [EvReadHeader]. eexists. split; [reflexivity|]. world_simpl.
    conj_split; auto. intros _. destruct (blocking (cl w)); conj_split; reflexivity.
  - cbn [read_frames]. unfold bind at 1, emit at 1.
    set (w0 := set_log (log w ++ [EvReadHeader]) w).
    destruct (read_frame_runs f w0 Hm Hall)
      as (r & l1 & w1 & Hrun & Hl1 & (Hq1 & Hh1 & Hev1) & Hc1 & Hp1 & Ha1 & Hr1 & Hclean1 & _).
    unfold bind at 1. rewrite Hrun.
    assert (Hm1 : mutex (cl w1) = false).
    { replace (mutex (cl w1)) with (mutex (with_pending ∅ (cl w1))) by reflexivity.
      rewrite Hc1. exact Hm. }
    assert (Hb1 : blocking (cl w1) = blocking (cl w)).
    { replace (blocking (cl w1)) with (blocking (with_pending ∅ (cl w1))) by reflexivity.
      rewrite Hc1. reflexivity. }
    destruct r as [e|].
    + exists e, (EvReadHeader :: l1), w1. unfold ret.
      split; [reflexivity|].
      split; [rewrite Hl1; subst w0; world_simpl; rewrite <- app_assoc; reflexivity|].
      split; [exact Hq1|].
      split; [exact Hc1|]. split; [exact Hp1|]. split; [exact Ha1|]. split; [exact Hr1|].
      split; [reflexivity|].
      intros Hcl. apply Forall_cons in Hcl. destruct Hcl as [Hf _].
      specialize (Hclean1 Hf). discriminate.
    + destruct (IH w1 Hm1 Ha1)
        as (e & l2 & w2 & Hrun2 & Hl2 & Hq2 & Hc2 & Hp2 & Ha2 & Hr2 & _ & Hclean2).
      exists e, (EvReadHeader :: l1 ++ l2)%list, w2.
      split; [exact Hrun2|].
      split.
      { rewrite Hl2, Hl1. subst w0. world_simpl. rewrite <- !app_assoc. reflexivity. }
      split; [cbn [forallb is_session_event negb andb]; rewrite forallb_app, Hq1, Hq2;
              reflexivity|].
      split; [rewrite Hc2, Hc1; reflexivity|].
      split; [etransitivity; eassumption|].
      split; [exact Ha2|].
      split; [rewrite Hr2, Hr1; reflexivity|].
      split; [reflexivity|].
      intros Hcl. apply Forall_cons in Hcl. destruct Hcl as [[Hbody Hwr] Hrest].
      replace (client_handlers w) with (client_handlers w1) in Hrest
        by (rewrite (client_handlers_same w0 w1 Hc1 Hr1); reflexivity).
      destruct (Hclean2 Hrest) as (-> & Hh2 & Hi2 & Hs2).
      destruct (Hev1 Hbody) as [Hi1 Hs1].
      rewrite Hb1 in Hi2, Hs2.
      rewrite (client_handlers_same w0 w1 Hc1 Hr1) in Hi2, Hs2.
      change (client_handlers w0) with (client_handlers w) in *.
      change (blocking (cl w0)) with (blocking (cl w)) in *.
      split; [reflexivity|].
      split.
      { change (header_reads (EvReadHeader :: l1 ++ l2))
          with (S (header_reads (l1 ++ l2))).
        rewrite header_reads_app, Hh1, Hh2. reflexivity. }
      change (invoked (EvReadHeader :: l1 ++ l2)) with (invoked (l1 ++ l2)).
      change (spawned (EvReadHeader :: l1 ++ l2)) with (spawned (l1 ++ l2)).
      rewrite invoked_app, spawned_app, Hi1, Hs1, Hi2, Hs2.
      unfold requests_served. cbn [omap list_omap].
      destruct (dispatch (client_handlers w) f) as [h|]; destruct (blocking (cl w));
        split; reflexivity.
Qed.

(** X13.  The read loop ends on a failure of the codec only.  On an engine whose
    mutex is free and whose pending calls are allocated, if the codec
    decodes the body of every frame and writes the response to every request
    for a method that is not served, the loop reads all the frames and is
    left with the error of the last [ReadHeader].  What the frames carry
    does not end it: not an error returned by a handler, not a method that
    is not served, not an error response, not a response that no call
    waits for; and not a response of a handler that could not be written. *)
Theorem read_loop_ends_on_codec_failure_only (frames : list Frame) (final : error)
    (w : World) :
  mutex (cl w) = false ->
  pending_allocated w ->
  Forall (codec_serves (client_handlers w)) frames ->
  exists w',
    read_frames frames final w = Ok final w'
    /\ header_reads (log w') = (header_reads (log w) + S (length frames))%nat
    /\ shutdown (cl w') = shutdown (cl w)
    /\ client_handlers w' = client_handlers w.
Proof.
  intros Hm Hall Hclean.
  destruct (read_frames_runs frames final w Hm Hall)
    as (e & l & w' & Hrun & Hl & _ & Hc & _ & _ & Hr & _ & Hfin).
  destruct (Hfin Hclean) as (-> & Hh & _).
  exists w'. split; [exact Hrun|].
  split; [rewrite Hl, header_reads_app, Hh; reflexivity|].
  split; [|apply client_handlers_same; assumption].
  replace (shutdown (cl w')) with (shutdown (with_pending ∅ (cl w'))) by reflexivity.
  rewrite Hc. reflexivity.
Qed.

(** A client that serves [add] in blocking mode reads a request whose
    handler fails, a request for a method it does not serve, and a response
    that no call waits for. *)
Lemma read_loop_ends_on_codec_failure_only_witness :
  exists w',
    read_frames
      [mkFrame (mkRequest 1 "add") (mkResponse 0 "")
         (mkOracle None (VInt 1) VNil (Some (ErrorsNew "overflow")) (Some (CodecError "pipe")));
       request_frame 2 "foo" (VInt 1) VNil;
       response_frame 9 (VInt 3)]
      EOF serving_world = Ok EOF w'
    /\ header_reads (log w') = 4%nat.
Proof.
  destruct (read_loop_ends_on_codec_failure_only
              [mkFrame (mkRequest 1 "add") (mkResponse 0 "")
                 (mkOracle None (VInt 1) VNil (Some (ErrorsNew "overflow"))
                    (Some (CodecError "pipe")));
               request_frame 2 "foo" (VInt 1) VNil;
               response_frame 9 (VInt 3)]
              EOF serving_world) as (w' & Hrun & Hh & _).
  - reflexivity.
  - intros s p Hsp. vm_compute in Hsp. discriminate.
  - repeat constructor; cbn; try reflexivity; intros _ H; try reflexivity;
      vm_compute in H; discriminate.
  - exists w'. split; [exact Hrun | exact Hh].
Defined.

(** X14.  A body that cannot be decoded ends the read loop.  If the codec fails
    to decode the body of a response, or of a request for a method that is
    served, the loop is left at that frame and the frames behind it are not
    read.  The loop is left with the error of the codec as it is when the
    body was meant for a request or for the reply of a pending call; it is
    left with that error wrapped as [reading error body: ...] when the body
    was read to be dropped, that is, when no call is pending under the
    sequence number of the response or when the response carries an error.
    A call that was pending under that number has left the table and was
    completed once: with the error of the response if it carries one, and
    otherwise with [reading body ...] and the text of the codec's error. *)
Theorem undecodable_body_ends_read_loop (f : Frame) (e : error) (w : World) :
  mutex (cl w) = false ->
  pending_allocated w ->
  o_body_err (f_oracle f) = Some e ->
  req_Method (f_req f) = "" \/ is_Some (client_handlers w !! req_Method (f_req f)) ->
  let wrapped := ErrorsNew ("reading error body: " ++ error_string e) in
  let e' :=
    if bool_decide (req_Method (f_req f) = "") then
      match pending (cl w) !! resp_Seq (f_resp f) with
      | Some _ => if bool_decide (resp_Error (f_resp f) = "") then e else wrapped
      | None => wrapped
      end
    else e in
  exists w',
    (forall rest final, read_frames (f :: rest) final w = Ok e' w')
    /\ header_reads (log w') = S (header_reads (log w))
    /\ (forall p,
          req_Method (f_req f) = "" ->
          pending (cl w) !! resp_Seq (f_resp f) = Some p ->
          pending (cl w') !! resp_Seq (f_resp f) = None
          /\ call_Error <$> calls w' !! p
             = Some (Some (if bool_decide (resp_Error (f_resp f) = "")
                           then ErrorsNew ("reading body " ++ error_string e)
                           else ServerError (resp_Error (f_resp f))))
          /\ done_count p (log w') = S (done_count p (log w))).
Proof.
  intros Hm Hall Hb Hkind wrapped e'.
  set (w0 := set_log (log w ++ [EvReadHeader]) w).
  assert (Hstep : forall r w1, read_frame f w0 = Ok (Some r) w1 ->
            forall rest final, read_frames (f :: rest) final w = Ok r w1).
  { intros r w1 Hrun rest final. cbn [read_frames]. unfold bind at 1, emit at 1. fold w0.
    unfold bind at 1. rewrite Hrun. reflexivity. }
  destruct (read_frame_runs f w0 Hm Hall)
    as (r & l1 & w1 & Hrun & Hl1 & (_ & Hh1 & _) & _ & _ & _ & _ & _ & _).
  assert (Hhead : header_reads (log w1) = S (header_reads (log w))).
  { rewrite Hl1. subst w0. world_simpl. rewrite !header_reads_app, Hh1. cbn. lia. }
  pose proof Hrun as Hrun0. unfold read_frame in Hrun. subst e'.
  destruct (bool_decide (req_Method (f_req f) = "")) eqn:Hreq; cbn [negb] in Hrun.
  - (* a response *)
    unfold bind at 1 in Hrun.
    destruct (pending (cl w) !! resp_Seq (f_resp f)) as [p|] eqn:Hp.
    + destruct (Hall _ _ Hp) as [k Hk].
      destruct (readResponse_matched w0 (f_resp f) (o_body_err (f_oracle f))
                  (o_body (f_oracle f)) p k Hm Hp Hk) as (r0 & Hread).
      pose proof (readResponse_matched_result w0 _ _ _ p k r0 _ Hm Hp Hk Hread) as Hr0.
      rewrite Hread in Hrun. rewrite Hb in Hr0, Hrun. unfold response_result in Hr0.
      assert (Hw1 : r = Some (if bool_decide (resp_Error (f_resp f) = "") then e else wrapped)
                    /\ calls w1 = <[p := response_outcome (f_resp f) (Some e)
                                          (o_body (f_oracle f)) k]> (calls w)
                    /\ pending (cl w1) = delete (resp_Seq (f_resp f)) (pending (cl w))
                    /\ exists msg,
                         log w1 = (log w ++ [EvReadHeader]
                                     ++ [EvLock MuMutex; EvUnlock MuMutex;
                                         EvReadResponseBody (body_dropped (f_resp f) k)]
                                     ++ done_events p (chan_ready (chans w !! call_Done k))
                                     ++ [EvDebug msg])%list).
      { subst r0. destruct (bool_decide (resp_Error (f_resp f) = ""));
          unfold bind, emit, ret in Hrun; injection Hrun as <- <-; subst w0; world_simpl;
          (split; [reflexivity|]); (split; [reflexivity|]); (split; [reflexivity|]);
          eexists; rewrite <- !app_assoc; reflexivity. }
      destruct Hw1 as (-> & Hcalls & Hpend & msg & Hlog).
      exists w1. split; [apply Hstep, Hrun0|]. split; [exact Hhead|].
      intros p' _ Hp'. injection Hp' as <-. split; [rewrite Hpend; apply lookup_delete_eq|].
      split.
      * rewrite Hcalls, lookup_insert_eq. cbn [fmap option_fmap option_map]. do 2 f_equal.
        unfold response_outcome.
        destruct (bool_decide (resp_Error (f_resp f) = "")); destruct k; reflexivity.
      * rewrite Hlog, !done_count_app, done_count_done_events.
        rewrite bool_decide_eq_true_2 by reflexivity. cbn. lia.
    + rewrite (readResponse_unmatched w0 (f_resp f) _ _ Hm Hp), Hb in Hrun.
      unfold bind, emit, ret in Hrun. injection Hrun as <- <-.
      eexists. split; [apply Hstep, Hrun0|]. split; [exact Hhead|].
      intros p _ Hp'. discriminate Hp'.
  - (* a request *)
    apply bool_decide_eq_false in Hreq.
    destruct Hkind as [Hkind|[h Hh]]; [contradiction|].
    unfold bind at 1, readRequest in Hrun.
    change (client_handlers w0) with (client_handlers w) in Hrun. rewrite Hh in Hrun.
    unfold bind at 1, emit at 1 in Hrun. rewrite Hb in Hrun.
    unfold bind, emit, ret in Hrun. injection Hrun as <- <-.
    eexists. split; [apply Hstep, Hrun0|]. split; [exact Hhead|].
    intros p Hm' _. contradiction.
Qed.

(** The body of a request for [add] cannot be decoded; and a client has
    sent one call, and cannot decode the body of its response. *)
Lemma undecodable_body_ends_read_loop_witness :
  (exists w',
     read_frames
       [mkFrame (mkRequest 1 "add") (mkResponse 0 "")
          (mkOracle (Some (CodecError "bad gob")) VNil VNil None None);
        request_frame 2 "add" (VInt 1) VNil]
       EOF serving_world = Ok (CodecError "bad gob") w')
  /\ (exists w',
        read_frames
          [mkFrame (mkRequest 0 "") (mkResponse 1 "failed")
             (mkOracle (Some (CodecError "bad gob")) VNil VNil None None)]
          EOF sent_world
        = Ok (ErrorsNew "reading error body: bad gob") w'
        /\ call_Error <$> calls w' !! 0%nat = Some (Some (ServerError "failed"))).
Proof.
  split.
  - destruct (undecodable_body_ends_read_loop
                (mkFrame (mkRequest 1 "add") (mkResponse 0 "")
                   (mkOracle (Some (CodecError "bad gob")) VNil VNil None None))
                (CodecError "bad gob") serving_world)
      as (w' & Hrun & _).
    + reflexivity.
    + intros s p Hsp. vm_compute in Hsp. discriminate.
    + reflexivity.
    + right. vm_compute. eauto.
    + exists w'. exact (Hrun [request_frame 2 "add" (VInt 1) VNil] EOF).
  - destruct (undecodable_body_ends_read_loop
                (mkFrame (mkRequest 0 "") (mkResponse 1 "failed")
                   (mkOracle (Some (CodecError "bad gob")) VNil VNil None None))
                (CodecError "bad gob") sent_world)
      as (w' & Hrun & _ & Hcall).
    + reflexivity.
    + apply map_Forall_to_list.
      let l := eval vm_compute in (map_to_list (pending (cl sent_world))) in
      change (map_to_list (pending (cl sent_world))) with l.
      repeat constructor; cbn [uncurry fst snd]; vm_compute; eexists; reflexivity.
    + reflexivity.
    + left. reflexivity.
    + exists w'. split; [exact (Hrun [] EOF)|].
      destruct (Hcall 0%nat eq_refl) as (_ & He & _); [vm_compute; reflexivity|exact He].
Defined.

(** X15.  Blocking mode decides who runs the handlers.  While the codec does not
    fail, a read loop in blocking mode runs the handler of every request
    for a served method itself, in the order in which the requests arrive,
    and hands none to a goroutine; a read loop that is not in blocking mode
    runs none and hands each of them to a goroutine, in that order. *)
Theorem blocking_mode_decides_who_runs_handlers (frames : list Frame) (final : error)
    (w : World) :
  mutex (cl w) = false ->
  pending_allocated w ->
  Forall (codec_serves (client_handlers w)) frames ->
  exists l w',
    read_frames frames final w = Ok final w'
    /\ log w' = (log w ++ l)%list
    /\ if blocking (cl w) then
         invoked l = requests_served (client_handlers w) frames /\ spawned l = []
       else
         invoked l = []
         /\ spawned l = (fun x => (x.1.2, x.2)) <$> requests_served (client_handlers w) frames.
Proof.
  intros Hm Hall Hclean.
  destruct (read_frames_runs frames final w Hm Hall)
    as (e & l & w' & Hrun & Hl & _ & _ & _ & _ & _ & _ & Hfin).
  destruct (Hfin Hclean) as (-> & _ & Hi & Hs).
  exists l, w'. split; [exact Hrun|]. split; [exact Hl|].
  destruct (blocking (cl w)); auto.
Qed.

(** Two requests for [add] and a notification for it, on a client in
    blocking mode. *)
Lemma blocking_mode_decides_who_runs_handlers_witness :
  exists l w',
    read_frames [request_frame 1 "add" (VInt 1) (VInt 2);
                 request_frame 0 "add" (VInt 5) VNil;
                 request_frame 2 "add" (VInt 3) (VInt 4)] EOF serving_world = Ok EOF w'
    /\ log w' = (log serving_world ++ l)%list
    /\ invoked l = [(add_handler, mkRequest 1 "add", VInt 1);
                    (add_handler, mkRequest 0 "add", VInt 5);
                    (add_handler, mkRequest 2 "add", VInt 3)]
    /\ spawned l = [].
Proof.
  destruct (blocking_mode_decides_who_runs_handlers
              [request_frame 1 "add" (VInt 1) (VInt 2);
               request_frame 0 "add" (VInt 5) VNil;
               request_frame 2 "add" (VInt 3) (VInt 4)] EOF serving_world)
    as (l & w' & Hrun & Hl & Hmode).
  - reflexivity.
  - intros s p Hsp. vm_compute in Hsp. discriminate.
  - repeat constructor; cbn; try reflexivity; intros _ H; vm_compute in H; discriminate.
  - exists l, w'. change (blocking (cl serving_world)) with true in Hmode.
    destruct Hmode as [Hi Hs]. split; [exact Hrun|]. split; [exact Hl|].
    split; [rewrite Hi; vm_compute; reflexivity | exact Hs].
Defined.

(** ** Registration of handlers *)


(** ** Which types a handler may take *)






(** ** Registered handlers over an execution *)

(** A step that touches neither the registries nor the registry the engine
    points to. *)
Lemma serves_same {A} (m : string) (h : handler) (x : M A) :
  (forall w, registries (world_of (x w)) = registries w
             /\ handlers (cl (world_of (x w))) = handlers (cl w)) ->
  preserves (serves m h) x.
Proof.
  intros H w Hw. destruct (H w) as [Hr Hh].
  unfold serves, client_handlers in *. rewrite Hr, Hh. exact Hw.
Qed.

Ltac serves_same_tac :=
  apply serves_same; intros w; destruct_world w;
  repeat match goal with
    | |- context [if ?b then _ else _] => destruct b
    | |- context [match ?x with _ => _ end] => destruct x
    end;
  split; reflexivity.

Lemma serves_Lock (m : string) (h : handler) (mu : Mutex) : preserves (serves m h) (Lock mu).
Proof. unfold Lock. destruct mu; serves_same_tac. Qed.

Lemma serves_Unlock (m : string) (h : handler) (mu : Mutex) :
  preserves (serves m h) (Unlock mu).
Proof. unfold Unlock. destruct mu; serves_same_tac. Qed.

Lemma serves_emit (m : string) (h : handler) (e : Event) : preserves (serves m h) (emit e).
Proof. unfold emit. serves_same_tac. Qed.

Lemma serves_modify_cl (m : string) (h : handler) (f : Client -> Client) :
  (forall c, handlers (f c) = handlers c) -> preserves (serves m h) (modify_cl f).
Proof. intros Hf. apply serves_same. intros w. split; [reflexivity | apply Hf]. Qed.

Lemma serves_get_call (m : string) (h : handler) (p : nat) :
  preserves (serves m h) (get_call p).
Proof. unfold get_call. serves_same_tac. Qed.

Lemma serves_put_call (m : string) (h : handler) (p : nat) (k : Call) :
  preserves (serves m h) (put_call p k).
Proof. unfold put_call. serves_same_tac. Qed.

Lemma serves_new_call (m : string) (h : handler) (k : Call) :
  preserves (serves m h) (new_call k).
Proof. unfold new_call. serves_same_tac. Qed.

Lemma serves_make_chan (m : string) (h : handler) (n : nat) :
  preserves (serves m h) (make_chan n).
Proof. unfold make_chan. serves_same_tac. Qed.

Lemma serves_chan_capacity (m : string) (h : handler) (a : nat) :
  preserves (serves m h) (chan_capacity a).
Proof. unfold chan_capacity. serves_same_tac. Qed.

Lemma serves_recv (m : string) (h : handler) (ch : nat) : preserves (serves m h) (recv ch).
Proof. unfold recv. serves_same_tac. Qed.

Lemma serves_pending_Start (m : string) (h : handler) (s : Z) :
  preserves (serves m h) (pending_Start s).
Proof. unfold pending_Start. serves_same_tac. Qed.

Lemma serves_pending_Cancel (m : string) (h : handler) (s : Z) :
  preserves (serves m h) (pending_Cancel s).
Proof. unfold pending_Cancel. serves_same_tac. Qed.

Lemma serves_done (m : string) (h : handler) (p : nat) : preserves (serves m h) (done p).
Proof.
  apply preserves_bind; [apply serves_get_call|]. intros c.
  apply serves_same. intros w. split; reflexivity.
Qed.

(** A registration adds a name and leaves every name that is taken alone,
    in whichever registry it is made. *)
Lemma serves_addHandler (m : string) (h : handler) (reg : nat) (mname : string)
    (g : iface) :
  preserves (serves m h) (addHandler reg mname g).
Proof.
  intros w Hw. pose proof (addHandler_cases reg mname g w) as H.
  destruct (addHandler reg mname g w) as [[] w'|msg w'|w']; cbn [world_of].
  - destruct H as (hs & h' & Hreg & Hname & ->).
    unfold serves, client_handlers in *. world_simpl.
    destruct (decide (reg = handlers (cl w))) as [->|Hne].
    + rewrite lookup_insert_eq. cbn [default from_option id].
      rewrite Hreg in Hw. cbn [default from_option id] in Hw.
      rewrite lookup_insert_ne; [exact Hw|].
      intros ->. congruence.
    + rewrite lookup_insert_ne by exact Hne. exact Hw.
  - destruct H as [->| ->]; exact Hw.
  - destruct H.
Qed.

Create HintDb registry.

#[local] Hint Resolve preserves_ret preserves_panic preserves_get_cl
  serves_Lock serves_Unlock serves_emit serves_get_call serves_put_call
  serves_new_call serves_make_chan serves_chan_capacity serves_recv
  serves_pending_Start serves_pending_Cancel serves_done serves_addHandler : registry.

#[local] Hint Extern 1 (preserves (serves _ _) (modify_cl _)) =>
  apply serves_modify_cl; intros []; reflexivity : registry.

Lemma serves_Go (m : string) (h : handler) (method : string) (args reply : value)
    (done_ch : option nat) (wres : option error) :
  preserves (serves m h) (Go method args reply done_ch wres).
Proof. unfold Go, send, send_register, send_write, send_failed. preserves_steps registry. Qed.

Lemma serves_Call_wait (m : string) (h : handler) (call : nat) (ctx : ctx_state)
    (prefer_ctx : bool) (wres : option error) :
  preserves (serves m h) (Call_wait call ctx prefer_ctx wres).
Proof.
  apply preserves_Call_wait.
  - intros p. auto with registry.
  - intros chs w Hw. exact Hw.
  - intros e. unfold Call_cancel. preserves_steps registry. apply serves_Go.
Qed.

Lemma serves_handleRequest (m : string) (h : handler) (req : Request) (h' : handler)
    (argv hreply : value) (herr wres : option error) :
  preserves (serves m h) (handleRequest req h' argv hreply herr wres).
Proof. unfold handleRequest. preserves_steps registry. Qed.

Lemma serves_exec_op (m : string) (h : handler) (o : Op) :
  preserves (serves m h) (exec_op o).
Proof.
  destruct o; cbn [exec_op];
    unfold Handle, SetBlocking, Call_start, Notify, Close, read_frame, readResponse,
      readLoop_exit, readLoop_finish, close_disconnect, terminate_calls;
    preserves_steps registry;
    auto using serves_Go, serves_Call_wait, serves_handleRequest.
  apply preserves_readRequest; intros; auto using serves_handleRequest with registry.
Qed.

(** X18.  A handler, once registered, stays.  Registering its name again panics,
    whatever is offered in its place, and the registry is as before; and no
    operation of the engine takes a handler out of the registry or puts
    another one under its name. *)
Theorem registered_handler_is_permanent (w : World) (m : string) (h : handler) :
  client_handlers w !! m = Some h ->
  (forall g, Handle m g w = Panic ("birpc: multiple registrations for " ++ m) w)
  /\ (forall ops, client_handlers (world_of (exec ops w)) !! m = Some h).
Proof.
  intros Hw. split.
  - intros g. cbv beta iota delta [Handle bind get_cl addHandler get_registry].
    change (default ∅ (registries w !! handlers (cl w))) with (client_handlers w).
    rewrite Hw.
    rewrite bool_decide_eq_true_2 by eauto. reflexivity.
  - intros ops. revert w Hw.
    apply (preserves_for_each (serves m h) exec_op ops). apply serves_exec_op.
Qed.

(** The cancel service of a fresh client, across two calls, a notification
    and an attempt to register it again. *)
Lemma registered_handler_is_permanent_witness :
  client_handlers
    (world_of (exec (two_calls_and_a_notification
                       ++ [OpHandle cancel_method (IFunc add_fn)]) new_client_world))
    !! cancel_method = Some cancel_handler.
Proof.
  apply (proj2 (registered_handler_is_permanent new_client_world cancel_method
                  cancel_handler eq_refl)).
Defined.

(** ** The registry of a server and of the peers it serves *)

(** A registration that succeeds. *)

(** The engine [ServeCodecWithState] builds, in full: the registry made for
    it by [NewClientWithCodec] is left behind, and the engine points to the
    registry of the server. *)
Lemma serve_peer_eq (s : Server) (cdc : nat) (state : option nat) (w : World) :
  serve_peer s cdc state w =
  Ok tt (set_registries
           (<[fresh (dom (registries w)) := <[cancel_method := cancel_handler]> ∅]>
              (<[fresh (dom (registries w)) := ∅]> (registries w)))
           (set_cl (mkClient false false (mkRequest 0 "") 1 ∅ false false true cdc
                      (srv_handlers s) false state false) w)).
Proof.
  unfold serve_peer, bind at 1. rewrite NewClientWithCodec_eq.
  destruct_world w. reflexivity.
Qed.

(** X19.  A server and the peers it serves share one registry.  A handler the
    server registers after a connection was accepted is served on that
    connection; and a handler registered through [Handle] on a served peer
    is entered in the registry of the server, for every connection. *)
Theorem server_registry_is_shared (s : Server) (cdc : nat) (state : option nat)
    (w : World) (hs : gmap string handler) (m : string) (f : func_value)
    (argType replyType : gotype) :
  registries w !! srv_handlers s = Some hs ->
  hs !! m = None ->
  fn_ins f = [typeOfCtx; argType; replyType] ->
  isExportedOrBuiltinType argType = true ->
  type_Kind replyType = KPtr ->
  isExportedOrBuiltinType replyType = true ->
  fn_outs f = [typeOfError] ->
  (exists w',
     (serve_peer s cdc state >> Server_Handle s m (IFunc f)) w = Ok tt w'
     /\ client_handlers w' = <[m := mkHandler f argType replyType]> hs)
  /\ (exists w',
        (serve_peer s cdc state >> Handle m (IFunc f)) w = Ok tt w'
        /\ registries w' !! srv_handlers s = Some (<[m := mkHandler f argType replyType]> hs)).
Proof.
  intros Hreg Hname Hins Harg Hptr Hrep Houts.
  assert (Hne : fresh (dom (registries w)) <> srv_handlers s).
  { intros Heq. apply (is_fresh (dom (registries w))).
    rewrite Heq. apply elem_of_dom. eauto. }
  pose proof (serve_peer_eq s cdc state w) as Hserve.
  match type of Hserve with _ = Ok tt ?x => set (w1 := x) in * end.
  assert (Hreg1 : registries w1 !! srv_handlers s = Some hs).
  { subst w1. world_simpl. rewrite !lookup_insert_ne by exact Hne. exact Hreg. }
  assert (Hh1 : handlers (cl w1) = srv_handlers s) by reflexivity.
  split.
  - unfold bind at 1. rewrite Hserve. unfold Server_Handle.
    rewrite (addHandler_ok _ _ _ _ hs argType replyType) by assumption.
    eexists. split; [reflexivity|].
    unfold client_handlers. world_simpl. rewrite lookup_insert_eq. reflexivity.
  - unfold bind at 1. rewrite Hserve. unfold Handle, bind, get_cl. rewrite Hh1.
    rewrite (addHandler_ok _ _ _ _ hs argType replyType) by assumption.
    eexists. split; [reflexivity|]. world_simpl. apply lookup_insert_eq.
Qed.

(** A server registers [add] once its first connection is being served. *)
Lemma server_registry_is_shared_witness :
  exists w',
    (serve_peer (mkServer O) 1%nat None >> Server_Handle (mkServer O) "add" (IFunc add_fn))
      (world_of (NewServer empty_world)) = Ok tt w'
    /\ client_handlers w' !! "add" = Some add_handler.
Proof.
  destruct (server_registry_is_shared (mkServer O) 1%nat None
              (world_of (NewServer empty_world)) ∅ "add" add_fn
              (TPtr Args_type) (TPtr Reply_type))
    as [(w' & Hrun & Hh) _]; try reflexivity.
  exists w'. split; [exact Hrun|]. rewrite Hh. apply lookup_insert_eq.
Defined.

(** ** A connection served from its first frame to its last *)

(** X20.  [ServeCodecWithState], from the accepted connection to the return, when
    nothing but the read loop works on the engine.  It always returns.  The
    connection is published before the first header is read; then come the
    events of the frames; then the disconnect channel is closed, the read
    loop closes the codec, the disconnection is published, and the deferred
    call closes the codec a second time.  The engine is left shut down and
    points to the registry of the server. *)
Theorem ServeCodecWithState_session (s : Server) (cdc : nat) (state : option nat)
    (frames : list Frame) (final : error) (w : World) :
  exists l w',
    ServeCodecWithState s cdc state frames final w = Ok tt w'
    /\ log w' = (log w ++ EvPublish true :: EvReadHeader :: l
                   ++ [EvCloseDisconnect; EvCodecClose; EvPublish false; EvCodecClose])%list
    /\ forallb (fun e => negb (is_session_event e)) l = true
    /\ shutdown (cl w') = true
    /\ disconnect (cl w') = true
    /\ handlers (cl w') = srv_handlers s.
Proof.
  set (c0 := mkClient false false (mkRequest 0 "") 1 ∅ false false true cdc
               (srv_handlers s) false state false).
  assert (Hbody : exists l w1,
    (serve_peer s cdc state >> emit (EvPublish true) >> Run frames final >>
     emit (EvPublish false)) w = Ok tt w1
    /\ log w1 = (log w ++ EvPublish true :: EvReadHeader :: l
                    ++ [EvCloseDisconnect; EvCodecClose; EvPublish false])%list
    /\ forallb (fun e => negb (is_session_event e)) l = true
    /\ cl w1 = with_disconnect true (with_shutdown true c0)).
  { unfold bind at 1. rewrite serve_peer_eq.
    unfold bind at 1, emit at 1. world_simpl. fold c0.
    set (w2 := set_log _ _).
    assert (Hcl2 : cl w2 = c0) by reflexivity.
    destruct (read_frames_runs frames final w2)
      as (e & l & w3 & Hrun & Hl & Hq & Hc & Hp & _ & _ & Hhd & _).
    { reflexivity. }
    { intros k p Hkp. rewrite Hcl2 in Hkp. cbn in Hkp. rewrite lookup_empty in Hkp.
      discriminate. }
    destruct l as [|e0 l]; [discriminate Hhd|]. injection Hhd as ->.
    assert (Hcl3 : cl w3 = c0).
    { rewrite <- (with_pending_same (cl w3)).
      assert (Hempty : pending (cl w3) = ∅).
      { apply map_eq. intros k. rewrite lookup_empty.
        destruct (pending (cl w3) !! k) as [p|] eqn:Hk; [|reflexivity].
        pose proof (lookup_weaken _ _ _ _ Hk Hp) as Hk2.
        rewrite Hcl2 in Hk2. cbn in Hk2. rewrite lookup_empty in Hk2. discriminate. }
      rewrite Hempty, Hc, Hcl2. reflexivity. }
    unfold Run, readLoop. unfold bind at 1, bind at 1. rewrite Hrun.
    destruct w3 as [cs3 chs3 rs3 in3 cl3 log3]. cbn [cl log] in *. subst cl3 log3.
    exists (l ++ [EvLock MuSending; EvLock MuMutex; EvUnlock MuMutex;
                  EvUnlock MuSending])%list.
    unfold readLoop_exit, readLoop_finish, close_disconnect, terminate_calls, c0. unfold_m.
    rewrite map_to_list_empty. cbn [for_each]. unfold_m.
    rewrite !andb_false_r. unfold_m.
    eexists. split; [reflexivity|].
    cbn [log cl].
    split.
    { subst w2. cbn [log set_log]. rewrite <- ?app_assoc. cbn [app]. rewrite <- ?app_assoc.
      reflexivity. }
    split; [|reflexivity].
    cbn [forallb is_session_event negb andb] in Hq.
    rewrite forallb_app, Hq. reflexivity. }
  destruct Hbody as (l & w1 & Hrun & Hl & Hq & Hcl).
  unfold ServeCodecWithState, defer. rewrite Hrun.
  exists l. eexists. split; [reflexivity|]. world_simpl. rewrite Hcl, Hl.
  split; [rewrite <- ?app_assoc; cbn [app]; rewrite <- ?app_assoc; reflexivity|].
  split; [exact Hq|]. auto.
Qed.

(** ** The client of a handler's context *)

(** X21.  What [WithClient] puts into a context, [ClientValueFromContext] gets
    out of it, also from every context derived from it by cancellation or
    by values under other keys; the values under other keys are not
    touched; and a context that never went through [WithClient] yields
    [nil]. *)
Theorem client_of_context (ctx : Context) (c : option nat)
    (steps : list (option (string * ctx_value))) :
  ClientValueFromContext (derive steps (WithClient ctx c)) = c
  /\ (forall name, Context_Value (derive steps (WithClient ctx c)) (OtherKey name)
                   = Context_Value (derive steps ctx) (OtherKey name))
  /\ ClientValueFromContext (derive steps Background) = None.
Proof.
  unfold ClientValueFromContext.
  induction steps as [|[[name v]|] steps (IH1 & IH2 & IH3)]; cbn [derive Context_Value].
  - split; [reflexivity|]. split; [intros name|]; reflexivity.
  - rewrite !bool_decide_eq_false_2 by discriminate. split; [exact IH1|]. split; [|exact IH3].
    intros name'. rewrite IH2. reflexivity.
  - auto.
Qed.
